(** * Coordinate engine of analiza_permiso: UTM and geographic coordinates

    A shallow embedding of [CoordinateUtils] (utils/coordinateUtils.ts):
    [utmToGeographic], [geographicToUtm], [calculatePolygonCentroid],
    [calculateDistance], [validateUtmCoordinates] and
    [validateGeographicCoordinates], and of the two callers of
    [utmToGeographic]: the effect of PolygonMapView.tsx that draws the
    polygon and [handleFileAnalysis] of App.tsx.

    The TypeScript type [number] is an IEEE binary64 value.  The functions are
    written once, over an interface [JsNumber] of the operators and [Math]
    functions the source uses, and read at two instances (a third one, of
    enclosures, serves the proof of the round trip only):

    - [ideal]: real numbers extended with the non-finite values of JavaScript
      ([Infinity], [-Infinity], [NaN]).  Arithmetic on finite values is exact
      (no rounding, no overflow) and zero carries no sign.  This is the
      "exact real arithmetic" reading of the engine.
    - [float] (module [F64]): binary64 itself, with the kernel's primitive
      operations for [+], [-], [*], [/], [Math.sqrt] and the comparisons, and a
      record [MathLib] for the transcendental functions, which ECMAScript
      leaves implementation-approximated. *)

From Stdlib Require Import Reals Lra Lia ZArith QArith Bool String Ascii List.
From Stdlib Require Import Zfloor DecimalString Floats Machin.
From Bignums Require Import BigZ.
Import ListNotations.

Set Implicit Arguments.

(** ** Exceptions *)

(** A call either returns a value or throws; [Throw] carries the message of
    the [Error] (or the name of the built-in error). *)
Inductive Result (A : Type) : Type :=
| Ok (value : A)
| Throw (message : string).

Arguments Ok {A} value.
Arguments Throw {A} message.

Definition bind {A B : Type} (r : Result A) (k : A -> Result B) : Result B :=
  match r with
  | Ok v => k v
  | Throw m => Throw m
  end.

Notation "v <- r ;; k" := (bind r (fun v => k))
  (at level 61, r at next level, right associativity).
Notation "' pat <- r ;; k" := (bind r (fun v => match v with pat => k end))
  (at level 61, pat pattern, r at next level, right associativity).

(** ** The numbers of JavaScript *)

Class JsNumber (num : Type) : Type := {
  (** a numeric literal of the source text *)
  lit : Q -> num;
  NaN : num;
  Math_PI : num;
  (** [+], [-], [*], [/] *)
  add : num -> num -> num;
  sub : num -> num -> num;
  mul : num -> num -> num;
  div : num -> num -> num;
  (** [<], [<=]; [>] and [>=] are the same comparisons with the operands
      exchanged *)
  lt : num -> num -> bool;
  le : num -> num -> bool;
  Math_sqrt : num -> num;
  Math_sin : num -> num;
  Math_cos : num -> num;
  Math_tan : num -> num;
  Math_floor : num -> num;
  Math_round : num -> num;
  Math_pow : num -> num -> num;
  Math_atan2 : num -> num -> num;
  (** conversion to a string inside a template literal *)
  toString : num -> string
}.

Arguments lit {num _} _%_Q.

Definition gt {num} `{JsNumber num} (a b : num) : bool := lt b a.
Definition ge {num} `{JsNumber num} (a b : num) : bool := le b a.

Declare Scope js_scope.
Delimit Scope js_scope with js.
Infix "+" := add : js_scope.
Infix "-" := sub : js_scope.
Infix "*" := mul : js_scope.
Infix "/" := div : js_scope.
Infix "<" := lt : js_scope.
Infix "<=" := le : js_scope.
Infix ">" := gt : js_scope.
Infix ">=" := ge : js_scope.

(** ** The interfaces of coordinateUtils.ts *)

Record UTMCoordinates (num : Type) : Type := {
  x : num;
  y : num;
  zone : string
}.

Record GeographicCoordinates (num : Type) : Type := {
  lat : num;
  lng : num
}.

(** [PolygonPoint] has the fields of [GeographicCoordinates]; the source
    returns a [PolygonPoint] where a [GeographicCoordinates] is expected. *)
Definition PolygonPoint (num : Type) : Type := GeographicCoordinates num.

Arguments Build_UTMCoordinates {num} x y zone.
Arguments Build_GeographicCoordinates {num} lat lng.

(** ** Strings and the two regular expressions *)

Local Open Scope string_scope.

(** [\d]: an ASCII digit. *)
Definition isDigit (c : ascii) : bool :=
  (48 <=? nat_of_ascii c)%nat && (nat_of_ascii c <=? 57)%nat.

(** [[NS]] under the [i] flag: one of N, S, n, s. *)
Definition isNS (c : ascii) : bool :=
  (c =? "N")%char || (c =? "S")%char || (c =? "n")%char || (c =? "s")%char.

(** [String.prototype.toUpperCase] on the one letter [[NS]] captured. *)
Definition toUpperCase (c : ascii) : ascii :=
  let n := nat_of_ascii c in
  if (97 <=? n)%nat && (n <=? 122)%nat then ascii_of_nat (n - 32) else c.

(** The longest prefix of digits, and what follows it: [\d+] is greedy. *)
Fixpoint span_digits (s : string) : string * string :=
  match s with
  | String c s' =>
      if isDigit c
      then let '(ds, rest) := span_digits s' in (String c ds, rest)
      else (EmptyString, s)
  | EmptyString => (EmptyString, EmptyString)
  end.

(** [/(\d+)([NS])/i] tried at the start of [s] only: the two captures.  The
    digits are taken greedily; giving one back cannot help, since the
    character after a shorter run is a digit and not a letter. *)
Definition zone_at (s : string) : option (string * ascii) :=
  match span_digits s with
  | (String d ds, String l _) =>
      if isNS l then Some (String d ds, l) else None
  | _ => None
  end.

(** [s.match(/(\d+)([NS])/i)]: the pattern is not anchored, so it is tried
    at every position from the left and the first success is the match;
    [None] is the [null] of JavaScript. *)
Fixpoint zone_match (s : string) : option (string * ascii) :=
  match zone_at s with
  | Some m => Some m
  | None =>
      match s with
      | String _ s' => zone_match s'
      | EmptyString => None
      end
  end.

(** [s.match(/^(\d{1,2})[NS]$/i)]: the capture, when the whole string is one
    or two digits and one letter. *)
Definition zone_match_anchored (s : string) : option string :=
  match s with
  | String d1 (String l EmptyString) =>
      if isDigit d1 && isNS l then Some (String d1 EmptyString) else None
  | String d1 (String d2 (String l EmptyString)) =>
      if isDigit d1 && isDigit d2 && isNS l
      then Some (String d1 (String d2 EmptyString))
      else None
  | _ => None
  end.

(** The value of a string of decimal digits, most significant first. *)
Fixpoint digits_value (acc : Z) (s : string) : Z :=
  match s with
  | String c s' => digits_value (10 * acc + Z.of_nat (nat_of_ascii c - 48)) s'
  | EmptyString => acc
  end.

Section Engine.

Context {num : Type} `{JsNumber num}.

Local Open Scope js_scope.

(** [parseInt] on a capture of [\d+] or [\d{1,2}]: the digits read in base
    ten (a leading zero does not select another radix), [NaN] when there is
    no digit.  The program passes nothing else, so signs, blanks and radix
    prefixes are not modelled. *)
Definition parseInt (s : string) : num :=
  match span_digits s with
  | (String d ds, _) => lit (inject_Z (digits_value 0 (String d ds)))
  | _ => NaN
  end.

(** *** utmToGeographic *)

(** [zoneMatch[1]] and [zoneMatch[2]]: the captures of a match, and a
    TypeError on [null]. *)
Definition capture1 (zoneMatch : option (string * ascii)) : Result string :=
  match zoneMatch with
  | Some (digits, _) => Ok digits
  | None => Throw "TypeError"
  end.

Definition capture2 (zoneMatch : option (string * ascii)) : Result ascii :=
  match zoneMatch with
  | Some (_, letter) => Ok letter
  | None => Throw "TypeError"
  end.

(** [!zoneMatch] *)
Definition isNull {A : Type} (m : option A) : bool :=
  match m with
  | None => true
  | Some _ => false
  end.

(** Lines 23-40: [zoneNumber] and [isNorthern] from [utm.zone]. *)
Definition utmToGeographic_zone (zone : string) : Result (num * bool) :=
  if (zone =? "19Q") || (zone =? "19N") then Ok (lit 19, true)
  else if zone =? "20N" then Ok (lit 20, true)
  else
    let zoneMatch := zone_match zone in
    if isNull zoneMatch then Ok (lit 19, true)
    else
      digits <- capture1 zoneMatch ;;
      letter <- capture2 zoneMatch ;;
      Ok (parseInt digits, (toUpperCase letter =? "N")%char).

Definition utmToGeographic (utm : UTMCoordinates num)
  : Result (GeographicCoordinates num) :=
  '(zoneNumber, isNorthern) <- utmToGeographic_zone (zone utm) ;;
  let k0 := lit 0.9996 in
  let e := lit 0.00669438 in
  let e1sq := lit 0.00673949674228 in
  let n := (lit 1 - Math_sqrt (lit 1 - e)) / (lit 1 + Math_sqrt (lit 1 - e)) in
  let a := lit 6378137 in
  let x := x utm - lit 500000.0 in
  let y := y utm in
  let y := if negb isNorthern then y - lit 10000000.0 else y in
  let lonOrigin := (zoneNumber - lit 1) * lit 6 - lit 180 + lit 3 in
  let M := y / k0 in
  let mu := M / (a * (lit 1 - e / lit 4 - lit 3 * e * e / lit 64
                      - lit 5 * Math_pow e (lit 3) / lit 256)) in
  let phi1Rad := mu +
      (lit 3 * n / lit 2 - lit 27 * Math_pow n (lit 3) / lit 32)
        * Math_sin (lit 2 * mu) +
      (lit 21 * n * n / lit 16 - lit 55 * Math_pow n (lit 4) / lit 32)
        * Math_sin (lit 4 * mu) +
      (lit 151 * Math_pow n (lit 3) / lit 96) * Math_sin (lit 6 * mu) in
  let phi1 := phi1Rad in
  let rho1Calc := a * (lit 1 - e)
      / Math_pow (lit 1 - e * Math_sin phi1 * Math_sin phi1) (lit 1.5) in
  let nu1Calc := a / Math_sqrt (lit 1 - e * Math_sin phi1 * Math_sin phi1) in
  let T1 := Math_tan phi1 * Math_tan phi1 in
  let C1 := e1sq * Math_cos phi1 * Math_cos phi1 in
  let D := x / (nu1Calc * k0) in
  let lat := phi1Rad - (nu1Calc * Math_tan phi1 / rho1Calc) *
      (D * D / lit 2
       - (lit 5 + lit 3 * T1 + lit 10 * C1 - lit 4 * C1 * C1 - lit 9 * e1sq)
           * Math_pow D (lit 4) / lit 24
       + (lit 61 + lit 90 * T1 + lit 298 * C1 + lit 45 * T1 * T1
          - lit 252 * e1sq - lit 3 * C1 * C1)
           * Math_pow D (lit 6) / lit 720) in
  let lng := (lonOrigin * Math_PI / lit 180) +
      (D - (lit 1 + lit 2 * T1 + C1) * Math_pow D (lit 3) / lit 6
       + (lit 5 - lit 2 * C1 + lit 28 * T1 - lit 3 * C1 * C1 + lit 8 * e1sq
          + lit 24 * T1 * T1)
           * Math_pow D (lit 5) / lit 120) / Math_cos phi1 in
  Ok {| lat := lat * lit 180 / Math_PI;
        lng := lng * lit 180 / Math_PI |}.

(** *** geographicToUtm *)

Definition geographicToUtm_zoneNumber (coords : GeographicCoordinates num)
  : num :=
  Math_floor ((lng coords + lit 180) / lit 6) + lit 1.

Definition geographicToUtm_hemisphere (coords : GeographicCoordinates num)
  : string :=
  if lat coords >= lit 0 then "N" else "S".

(** Lines 96-124: [utmEasting] and [utmNorthing] as the series give them. *)
Definition geographicToUtm_series (coords : GeographicCoordinates num)
  : num * num :=
  let lat := lat coords * Math_PI / lit 180 in
  let lon := lng coords * Math_PI / lit 180 in
  let zoneNumber := geographicToUtm_zoneNumber coords in
  let lonOrigin := (zoneNumber - lit 1) * lit 6 - lit 180 + lit 3 in
  let lonOriginRad := lonOrigin * Math_PI / lit 180 in
  let a := lit 6378137 in
  let eccSquared := lit 0.00669438 in
  let k0 := lit 0.9996 in
  let eccPrimeSquared := eccSquared / (lit 1 - eccSquared) in
  let N := a / Math_sqrt (lit 1 - eccSquared * Math_sin lat * Math_sin lat) in
  let T := Math_tan lat * Math_tan lat in
  let C := eccPrimeSquared * Math_cos lat * Math_cos lat in
  let A := Math_cos lat * (lon - lonOriginRad) in
  let M := a * ((lit 1 - eccSquared / lit 4
                 - lit 3 * eccSquared * eccSquared / lit 64
                 - lit 5 * Math_pow eccSquared (lit 3) / lit 256) * lat
      - (lit 3 * eccSquared / lit 8 + lit 3 * eccSquared * eccSquared / lit 32
         + lit 45 * Math_pow eccSquared (lit 3) / lit 1024)
          * Math_sin (lit 2 * lat)
      + (lit 15 * eccSquared * eccSquared / lit 256
         + lit 45 * Math_pow eccSquared (lit 3) / lit 1024)
          * Math_sin (lit 4 * lat)
      - (lit 35 * Math_pow eccSquared (lit 3) / lit 3072)
          * Math_sin (lit 6 * lat)) in
  let utmEasting := k0 * N * (A + (lit 1 - T + C) * Math_pow A (lit 3) / lit 6
      + (lit 5 - lit 18 * T + T * T + lit 72 * C - lit 58 * eccPrimeSquared)
          * Math_pow A (lit 5) / lit 120) + lit 500000.0 in
  let utmNorthing := k0 * (M + N * Math_tan lat *
      (A * A / lit 2
       + (lit 5 - T + lit 9 * C + lit 4 * C * C) * Math_pow A (lit 4) / lit 24
       + (lit 61 - lit 58 * T + T * T + lit 600 * C
          - lit 330 * eccPrimeSquared) * Math_pow A (lit 6) / lit 720)) in
  (utmEasting, utmNorthing).

Definition geographicToUtm (coords : GeographicCoordinates num)
  : UTMCoordinates num :=
  let zoneNumber := geographicToUtm_zoneNumber coords in
  let '(utmEasting, utmNorthing) := geographicToUtm_series coords in
  let hemisphere := geographicToUtm_hemisphere coords in
  let utmNorthing :=
    if hemisphere =? "S" then utmNorthing + lit 10000000.0 else utmNorthing in
  {| x := Math_round utmEasting;
     y := Math_round utmNorthing;
     zone := toString zoneNumber ++ hemisphere |}.

(** *** calculatePolygonCentroid *)

(** [polygon[i]]: a vertex, or [undefined], whose property access throws. *)
Definition vertex (polygon : list (PolygonPoint num)) (i : nat)
  : Result (PolygonPoint num) :=
  match nth_error polygon i with
  | Some p => Ok p
  | None => Throw "TypeError"
  end.

(** One turn of the loop at lines 152-163 on [(area, centroidLat,
    centroidLng)]. *)
Definition centroid_step (polygon : list (PolygonPoint num))
  (acc : Result (num * num * num)) (i : nat) : Result (num * num * num) :=
  '(area, centroidLat, centroidLng) <- acc ;;
  let j := ((i + 1) mod List.length polygon)%nat in
  pi <- vertex polygon i ;;
  pj <- vertex polygon j ;;
  let xi := lng pi in
  let yi := lat pi in
  let xj := lng pj in
  let yj := lat pj in
  let a := xi * yj - xj * yi in
  Ok (area + a, centroidLat + (yi + yj) * a, centroidLng + (xi + xj) * a).

Definition calculatePolygonCentroid (polygon : list (PolygonPoint num))
  : Result (GeographicCoordinates num) :=
  match polygon with
  | [] => Throw "Polygon must have at least one point"
  | [p] => Ok p
  | _ =>
      '(area, centroidLat, centroidLng) <-
        fold_left (centroid_step polygon) (seq 0 (List.length polygon))
                  (Ok (lit 0, lit 0, lit 0)) ;;
      let area := area * lit 0.5 in
      let centroidLat := centroidLat / (lit 6 * area) in
      let centroidLng := centroidLng / (lit 6 * area) in
      Ok {| lat := centroidLat; lng := centroidLng |}
  end.

(** *** calculateDistance *)

Definition calculateDistance (point1 point2 : GeographicCoordinates num)
  : num :=
  let R := lit 6371000 in
  let lat1Rad := lat point1 * Math_PI / lit 180 in
  let lat2Rad := lat point2 * Math_PI / lit 180 in
  let deltaLat := (lat point2 - lat point1) * Math_PI / lit 180 in
  let deltaLng := (lng point2 - lng point1) * Math_PI / lit 180 in
  let a := Math_sin (deltaLat / lit 2) * Math_sin (deltaLat / lit 2) +
      Math_cos lat1Rad * Math_cos lat2Rad *
      Math_sin (deltaLng / lit 2) * Math_sin (deltaLng / lit 2) in
  let c := lit 2 * Math_atan2 (Math_sqrt a) (Math_sqrt (lit 1 - a)) in
  R * c.

(** *** The validators *)

Definition validateUtmCoordinates (utm : UTMCoordinates num) : bool :=
  match zone_match_anchored (zone utm) with
  | None => false
  | Some digits =>
      let zoneNumber := parseInt digits in
      if (zoneNumber < lit 1) || (zoneNumber > lit 60) then false
      else if (x utm < lit 160000) || (x utm > lit 840000) then false
      else if (y utm < lit 0) || (y utm > lit 10000000) then false
      else true
  end.

Definition validateGeographicCoordinates (coords : GeographicCoordinates num)
  : bool :=
  (lat coords >= lit (-90)) && (lat coords <= lit 90) &&
  (lng coords >= lit (-180)) && (lng coords <= lit 180).

End Engine.

(** ** Exact real arithmetic with the non-finite values *)

(** A JavaScript number read without rounding: a real number, an infinity
    with its sign ([Inf true] is [-Infinity]), or [NaN].  The special values
    combine as IEEE 754 prescribes.  Zero is unsigned and divides as [+0],
    so the sign of an infinite quotient by zero is the sign of the dividend;
    the results below depend only on whether a value is finite. *)
Inductive ideal : Type :=
| Fin (r : R)
| Inf (negative : bool)
| NotANumber.

Module Ideal.

Local Open Scope R_scope.

Definition Rltb (a b : R) : bool := if Rlt_dec a b then true else false.
Definition Rleb (a b : R) : bool := if Rle_dec a b then true else false.
Definition Reqb (a b : R) : bool := if Req_dec_T a b then true else false.

Definition finite (a : ideal) : bool :=
  match a with Fin _ => true | _ => false end.

Definition neg (a : ideal) : ideal :=
  match a with
  | Fin r => Fin (- r)
  | Inf s => Inf (negb s)
  | NotANumber => NotANumber
  end.

Definition add (a b : ideal) : ideal :=
  match a, b with
  | NotANumber, _ | _, NotANumber => NotANumber
  | Fin r, Fin s => Fin (r + s)
  | Fin _, Inf s | Inf s, Fin _ => Inf s
  | Inf s, Inf t => if Bool.eqb s t then Inf s else NotANumber
  end.

Definition sub (a b : ideal) : ideal := add a (neg b).

(** An infinity of sign [s] times the finite [r]. *)
Definition scale_inf (r : R) (s : bool) : ideal :=
  if Req_dec_T r 0 then NotANumber else Inf (xorb (Rltb r 0) s).

Definition mul (a b : ideal) : ideal :=
  match a, b with
  | NotANumber, _ | _, NotANumber => NotANumber
  | Fin r, Fin s => Fin (r * s)
  | Fin r, Inf s | Inf s, Fin r => scale_inf r s
  | Inf s, Inf t => Inf (xorb s t)
  end.

Definition div (a b : ideal) : ideal :=
  match a, b with
  | NotANumber, _ | _, NotANumber => NotANumber
  | Fin r, Fin s =>
      if Req_dec_T s 0
      then if Req_dec_T r 0 then NotANumber else Inf (Rltb r 0)
      else Fin (r / s)
  | Fin _, Inf _ => Fin 0
  | Inf s, Fin r => Inf (xorb s (Rltb r 0))
  | Inf _, Inf _ => NotANumber
  end.

Definition lt (a b : ideal) : bool :=
  match a, b with
  | NotANumber, _ | _, NotANumber => false
  | Fin r, Fin s => Rltb r s
  | Fin _, Inf t => negb t
  | Inf s, Fin _ => s
  | Inf s, Inf t => s && negb t
  end.

Definition le (a b : ideal) : bool :=
  match a, b with
  | NotANumber, _ | _, NotANumber => false
  | Fin r, Fin s => Rleb r s
  | Fin _, Inf t => negb t
  | Inf s, Fin _ => s
  | Inf s, Inf t => s || negb t
  end.

Definition sqrt (a : ideal) : ideal :=
  match a with
  | Fin r => if Rlt_dec r 0 then NotANumber else Fin (R_sqrt.sqrt r)
  | Inf false => Inf false
  | _ => NotANumber
  end.

(** [Math.sin], [Math.cos], [Math.tan]: the function on a finite argument,
    [NaN] otherwise.  [tan] is the library's [sin / cos]. *)
Definition trig (f : R -> R) (a : ideal) : ideal :=
  match a with
  | Fin r => Fin (f r)
  | _ => NotANumber
  end.

Definition floor (a : ideal) : ideal :=
  match a with
  | Fin r => Fin (IZR (Zfloor r))
  | other => other
  end.

(** [Math.round]: the nearest integer, a tie going up. *)
Definition round (a : ideal) : ideal :=
  match a with
  | Fin r => Fin (IZR (Zfloor (r + 1 / 2)))
  | other => other
  end.

Definition is_integer (r : R) : bool := Reqb r (IZR (Zfloor r)).

(** [Math.pow], case by case as ECMAScript's Number::exponentiate. *)
Definition pow (base exponent : ideal) : ideal :=
  match exponent with
  | NotANumber => NotANumber
  | Fin e =>
      if Req_dec_T e 0 then Fin 1
      else
        match base with
        | NotANumber => NotANumber
        | Inf false => if Rlt_dec 0 e then Inf false else Fin 0
        | Inf true =>
            if Rlt_dec 0 e
            then Inf (is_integer e && Z.odd (Zfloor e))
            else Fin 0
        | Fin b =>
            if Req_dec_T b 0
            then if Rlt_dec 0 e then Fin 0 else Inf false
            else if is_integer e then Fin (powerRZ b (Zfloor e))
            else if Rlt_dec b 0 then NotANumber
            else Fin (Rpower b e)
        end
  | Inf s =>
      match base with
      | NotANumber => NotANumber
      | Inf _ => if s then Fin 0 else Inf false
      | Fin b =>
          if Req_dec_T b 0 then if s then Inf false else Fin 0
          else if Rlt_dec 1 (Rabs b) then if s then Fin 0 else Inf false
          else if Req_dec_T (Rabs b) 1 then NotANumber
          else if s then Inf false else Fin 0
      end
  end.

(** The angle of the point [(x, y)], for finite coordinates. *)
Definition atan2R (y x : R) : R :=
  if Rlt_dec 0 x then atan (y / x)
  else if Rlt_dec x 0
       then if Rlt_dec y 0 then atan (y / x) - PI else atan (y / x) + PI
       else if Rlt_dec 0 y then PI / 2
            else if Rlt_dec y 0 then - (PI / 2) else 0.

Definition atan2 (y x : ideal) : ideal :=
  match y, x with
  | NotANumber, _ | _, NotANumber => NotANumber
  | Inf sy, Inf sx =>
      Fin ((if sy then -1 else 1) * (if sx then 3 * PI / 4 else PI / 4))
  | Inf sy, Fin _ => Fin (if sy then - (PI / 2) else PI / 2)
  | Fin r, Inf sx =>
      if sx then if Rlt_dec r 0 then Fin (- PI) else Fin PI else Fin 0
  | Fin r, Fin s => Fin (atan2R r s)
  end.

Definition string_of_Z (z : Z) : string := NilZero.string_of_int (Z.to_int z).

Fixpoint zeros (n : nat) : string :=
  match n with
  | O => ""
  | S n' => String "0" (zeros n')
  end.

(** Number::toString, steps 6 to 11: the significant digits of a positive
    number and the position [n] of the decimal point after the first of
    them, laid out plainly when -6 < n <= 21 and in exponent notation
    otherwise. *)
Definition layout (digits : string) (n : Z) : string :=
  let k := Z.of_nat (String.length digits) in
  if ((k <=? n) && (n <=? 21))%Z
  then digits ++ zeros (Z.to_nat (n - k))
  else if ((0 <? n) && (n <=? 21))%Z
  then substring 0 (Z.to_nat n) digits ++ "." ++
       substring (Z.to_nat n) (Z.to_nat (k - n)) digits
  else if ((-6 <? n) && (n <=? 0))%Z
  then "0." ++ zeros (Z.to_nat (- n)) ++ digits
  else
    let e := (n - 1)%Z in
    let exponent :=
      (if (e <? 0)%Z then "e-" else "e+") ++ string_of_Z (Z.abs e) in
    if (k =? 1)%Z then digits ++ exponent
    else substring 0 1 digits ++ "." ++
         substring 1 (Z.to_nat (k - 1)) digits ++ exponent.

(** A positive integer without its final zeros, and their count. *)
Fixpoint significant (fuel : nat) (s j : Z) : Z * Z :=
  match fuel with
  | O => (s, j)
  | S fuel' =>
      if ((s mod 10 =? 0) && negb (s =? 0))%Z
      then significant fuel' (s / 10)%Z (j + 1)%Z
      else (s, j)
  end.

(** An integer as a string: decimal digits below 1e21, exponent notation
    from there on, with all the digits that the integer has. *)
Definition integer_toString (z : Z) : string :=
  if (Z.abs z <? 10 ^ 21)%Z then string_of_Z z
  else
    let '(s, j) := significant (Z.to_nat (Z.log2 (Z.abs z))) (Z.abs z) 0 in
    let digits := string_of_Z s in
    (if (z <? 0)%Z then "-" else "") ++
    layout digits (Z.of_nat (String.length digits) + j).

(** A number inside a template literal.  The program converts only
    [Math.floor(...) + 1], which is an integer or not finite; of a number
    that is not an integer, which has no digits to print in general, the
    integer below is printed. *)
Definition toString (a : ideal) : string :=
  match a with
  | Fin r => integer_toString (Zfloor r)
  | Inf false => "Infinity"
  | Inf true => "-Infinity"
  | NotANumber => "NaN"
  end.

End Ideal.

#[export] Instance ideal_number : JsNumber ideal := {|
  lit q := Fin (Q2R q);
  NaN := NotANumber;
  Math_PI := Fin PI;
  add := Ideal.add;
  sub := Ideal.sub;
  mul := Ideal.mul;
  div := Ideal.div;
  lt := Ideal.lt;
  le := Ideal.le;
  Math_sqrt := Ideal.sqrt;
  Math_sin := Ideal.trig sin;
  Math_cos := Ideal.trig cos;
  Math_tan := Ideal.trig tan;
  Math_floor := Ideal.floor;
  Math_round := Ideal.round;
  Math_pow := Ideal.pow;
  Math_atan2 := Ideal.atan2;
  toString := Ideal.toString
|}.

(** ** IEEE binary64 *)

Module F64.

(** [Math.sin], [Math.cos], [Math.tan], [Math.pow] and [Math.atan2] return
    implementation-approximated values: an engine's choice of them. *)
Record MathLib : Type := {
  sin : float -> float;
  cos : float -> float;
  tan : float -> float;
  pow : float -> float -> float;
  atan2 : float -> float -> float
}.

(** What ECMAScript fixes of [Math.sin] and [Math.tan]: an argument that is
    +0, -0 or NaN is returned as it is. *)
Definition ES_zero_cases (M : MathLib) : Prop :=
  sin M 0 = 0%float /\ sin M (-0) = (-0)%float /\
  sin M PrimFloat.nan = PrimFloat.nan /\
  tan M 0 = 0%float /\ tan M (-0) = (-0)%float /\
  tan M PrimFloat.nan = PrimFloat.nan.

(** The double nearest to an integer. *)
Definition of_Z (z : Z) : float :=
  SF2Prim (binary_normalize prec emax z 0 false).

(** A decimal literal whose digits and power of ten are both below 2^53, as
    all literals of the source are: one correctly rounded division. *)
Definition literal (q : Q) : float :=
  PrimFloat.div (of_Z (Qnum q)) (of_Z (Zpos (Qden q))).

(** The numerator of a finite double over [2 ^ scale]. *)
Definition scaled (negative : bool) (m : positive) (e : Z) : Z * Z :=
  let z := if negative then Zneg m else Zpos m in
  if (0 <=? e)%Z then (z * 2 ^ e, 1)%Z else (z, 2 ^ (- e))%Z.

Definition floor (a : float) : float :=
  match Prim2SF a with
  | S754_finite s m e =>
      let '(n, d) := scaled s m e in
      let z := (n / d)%Z in
      if (z =? 0)%Z then PrimFloat.zero else of_Z z
  | _ => a
  end.

(** [Math.round]: the integer nearest to [a], a tie going up; values in
    [[-0.5, 0)] give [-0]. *)
Definition round (a : float) : float :=
  match Prim2SF a with
  | S754_finite s m e =>
      let '(n, d) := scaled s m e in
      let z := ((2 * n + d) / (2 * d))%Z in
      if (z =? 0)%Z then (if s then PrimFloat.neg_zero else PrimFloat.zero)
      else of_Z z
  | _ => a
  end.

(** Powers of two and of ten as fractions. *)
Definition power (base : Z) (e : Z) : Q :=
  if (0 <=? e)%Z then inject_Z (base ^ e)
  else (1 # Z.to_pos (base ^ (- e)))%Q.

(** The decimals that are read as the double [m * 2 ^ e]: those between the
    middle to the double below and the middle to the double above, the
    middles included when [m] is even (a tie goes to the even double).  The
    double below a power of two is at half the distance. *)
Definition reads_as (m : positive) (e : Z) (c : Q) : bool :=
  let above := (inject_Z (2 * Zpos m + 1) * power 2 (e - 1))%Q in
  let below :=
    if ((Zpos m =? 2 ^ 52) && (-1074 <? e))%Z
    then (inject_Z (4 * Zpos m - 1) * power 2 (e - 2))%Q
    else (inject_Z (2 * Zpos m - 1) * power 2 (e - 1))%Q in
  let inclusive := Z.even (Zpos m) in
  match (below ?= c)%Q, (c ?= above)%Q with
  | Lt, Lt => true
  | Eq, (Lt | Eq) | Lt, Eq => inclusive
  | _, _ => false
  end.

(** The least [n] from [n] on with [x < 10 ^ n].  A double from [2 ^ b]
    on is at least [10 ^ (b * 30103 / 100000 - 1)], where the search
    starts. *)
Fixpoint position (fuel : nat) (n : Z) (x : Q) : Z :=
  match fuel with
  | O => n
  | S fuel' =>
      match (x ?= power 10 n)%Q with
      | Lt => n
      | _ => position fuel' (n + 1)%Z x
      end
  end.

(** Number::toString, step 5: the fewest digits [s] that, with the decimal
    point at [n], are read as the double again; of two such numbers the one
    nearer to the double, and the even one at equal distance.  Seventeen
    digits always suffice. *)
Fixpoint shortest (fuel : nat) (k : Z) (m : positive) (e : Z) (n : Z)
  : Z * Z :=
  let x := (inject_Z (Zpos m) * power 2 e)%Q in
  let unit := power 10 (n - k) in
  let s := (Qnum (x / unit) / Zpos (Qden (x / unit)))%Z in
  match fuel with
  | O => (s, n)
  | S fuel' =>
      let down := reads_as m e (inject_Z s * unit) in
      let up := reads_as m e (inject_Z (s + 1) * unit) in
      let pick (t : Z) := if (t =? 10 ^ k)%Z then (1, n + 1)%Z else (t, n) in
      match down, up with
      | true, true =>
          match (x - inject_Z s * unit ?= inject_Z (s + 1) * unit - x)%Q with
          | Lt => pick s
          | Gt => pick (s + 1)%Z
          | Eq => if Z.even s then pick s else pick (s + 1)%Z
          end
      | true, false => pick s
      | false, true => pick (s + 1)%Z
      | false, false => shortest fuel' (k + 1)%Z m e n
      end
  end.

(** Number::toString: "NaN", "0", "Infinity", a minus sign for a negative
    number, and the shortest digits that identify the double, laid out as
    [Ideal.layout] does. *)
Definition toString (a : float) : string :=
  match Prim2SF a with
  | S754_finite negative m e =>
      let x := (inject_Z (Zpos m) * power 2 e)%Q in
      let binary := (Z.log2 (Zpos m) + e)%Z in
      let first := (binary * 30103 / 100000 - 1)%Z in
      let '(s, n) := shortest 17 1 m e (position 8 first x) in
      (if negative then "-" else "") ++ Ideal.layout (Ideal.string_of_Z s) n
  | S754_zero _ => "0"
  | S754_infinity false => "Infinity"
  | S754_infinity true => "-Infinity"
  | S754_nan => "NaN"
  end.

(** [Math.PI], the double nearest to pi: 0x1.921fb54442d18p+1. *)
Definition PI : float := Z.ldexp (of_Z 7074237752028440) (-51).

End F64.

#[export] Instance float_number (M : F64.MathLib) : JsNumber float := {|
  lit := F64.literal;
  NaN := PrimFloat.nan;
  Math_PI := F64.PI;
  add := PrimFloat.add;
  sub := PrimFloat.sub;
  mul := PrimFloat.mul;
  div := PrimFloat.div;
  lt := PrimFloat.ltb;
  le := PrimFloat.leb;
  Math_sqrt := PrimFloat.sqrt;
  Math_sin := F64.sin M;
  Math_cos := F64.cos M;
  Math_tan := F64.tan M;
  Math_floor := F64.floor;
  Math_round := F64.round;
  Math_pow := F64.pow M;
  Math_atan2 := F64.atan2 M;
  toString := F64.toString
|}.

(** ** What the specification says, in its own terms *)

Fixpoint all_digits (s : string) : bool :=
  match s with
  | String c s' => isDigit c && all_digits s'
  | EmptyString => true
  end.

(** "contains a <digits><N|S> pattern": somewhere in the string, one or more
    digits and then a hemisphere letter, in either case as the pattern of the
    source is case-insensitive. *)
Definition contains_zone_pattern (s : string) : Prop :=
  exists pre ds l post,
    s = pre ++ ds ++ String l post /\
    ds <> "" /\ all_digits ds = true /\ isNS l = true.

(** "<1-2 digits><N|S> (case-insensitive)", the whole string, with the number
    the digits spell. *)
Definition zone_designator (s : string) (zoneNumber : Z) : Prop :=
  exists ds l,
    s = ds ++ String l "" /\
    (String.length ds = 1%nat \/ String.length ds = 2%nat) /\
    all_digits ds = true /\ isNS l = true /\
    zoneNumber = digits_value 0 ds.

(** "rounded to the nearest integer": [z] is an integer nearest to [r], the
    upper one at a tie. *)
Definition nearest_integer (r : R) (z : Z) : Prop :=
  (IZR z - 1 / 2 <= r < IZR z + 1 / 2)%R.

Section Shoelace.

Context {num : Type} `{JsNumber num}.

Local Open Scope js_scope.

(** "each consecutive pair of vertices (wrapping last to first)". *)
Definition cyclic_pairs (polygon : list (PolygonPoint num))
  : list (PolygonPoint num * PolygonPoint num) :=
  combine polygon (tl polygon ++ firstn 1 polygon).

(** "the cross term a_i = x_i y_j - x_j y_i", lng as x and lat as y. *)
Definition cross (pq : PolygonPoint num * PolygonPoint num) : num :=
  let '(p, q) := pq in lng p * lat q - lng q * lat p.

Definition sum (terms : list num) : num := fold_right add (lit 0) terms.

(** "signed area = 1/2 sum a_i". *)
Definition signed_area (polygon : list (PolygonPoint num)) : num :=
  lit 0.5 * sum (map cross (cyclic_pairs polygon)).

(** "centroid_x = (1/(6 area)) sum (x_i + x_j) a_i; centroid_y analogous
    with y". *)
Definition shoelace_centroid (polygon : list (PolygonPoint num))
  : GeographicCoordinates num :=
  let area := signed_area polygon in
  {| lat := lit 1 / (lit 6 * area) *
            sum (map (fun pq => (lat (fst pq) + lat (snd pq)) * cross pq)
                     (cyclic_pairs polygon));
     lng := lit 1 / (lit 6 * area) *
            sum (map (fun pq => (lng (fst pq) + lng (snd pq)) * cross pq)
                     (cyclic_pairs polygon)) |}.

End Shoelace.

(** The Haversine formula on a sphere of radius 6,371,000 m, for two points
    given in degrees: d = 2 R asin (sqrt h). *)
Definition haversine (lat1 lng1 lat2 lng2 : R) : R :=
  let rad (deg : R) := (deg * PI / 180)%R in
  let h := ((sin (rad (lat2 - lat1) / 2))² +
            cos (rad lat1) * cos (rad lat2) * (sin (rad (lng2 - lng1) / 2))²)%R
  in (2 * 6371000 * asin (R_sqrt.sqrt h))%R.

Unset Implicit Arguments.

(** ** The callers of utmToGeographic *)

Section Callers.

Context {num : Type} `{JsNumber num}.

Local Open Scope list_scope.
Local Open Scope js_scope.

(** *** PolygonMapView.tsx: the effect that draws the polygon *)

(** [try { return f() } catch (error) { return null }] *)
Definition orNull {A : Type} (r : Result A) : option A :=
  match r with
  | Ok v => Some v
  | Throw _ => None
  end.

(** [.filter(point => point !== null)] *)
Fixpoint notNull {A : Type} (l : list (option A)) : list A :=
  match l with
  | [] => []
  | Some v :: l' => v :: notNull l'
  | None :: l' => notNull l'
  end.

(** Lines 97-108.  A point of [polygonData.points] has the fields [x], [y]
    and [zone] of [UTMCoordinates] and a [label] that is only displayed. *)
Definition geographicPoints (points : list (UTMCoordinates num))
  : list (GeographicCoordinates num) :=
  notNull
    (map (fun point =>
            orNull (utmToGeographic
                      {| x := x point; y := y point; zone := zone point |}))
         points).

(** [array.length], a number. *)
Definition length_of {A : Type} (l : list A) : num :=
  lit (inject_Z (Z.of_nat (List.length l))).

(** Lines 116-117. *)
Definition centerLat (geographicPoints : list (GeographicCoordinates num))
  : num :=
  fold_left (fun sum point => sum + lat point) geographicPoints (lit 0)
  / length_of geographicPoints.

Definition centerLng (geographicPoints : list (GeographicCoordinates num))
  : num :=
  fold_left (fun sum point => sum + lng point) geographicPoints (lit 0)
  / length_of geographicPoints.

(** What the effect does with the points, once the map container is
    mounted: nothing, an alert, or a map with the vertices and the centre
    given to Leaflet. *)
Inductive MapEffect : Type :=
| Skipped
| Alerted (message : string)
| Drawn (vertices : list (GeographicCoordinates num))
        (centerLat centerLng : num).

(** Lines 88-120. *)
Definition PolygonMapView_effect (points : list (UTMCoordinates num))
  : MapEffect :=
  if (List.length points =? 0)%nat then Skipped
  else
    let geographicPoints := geographicPoints points in
    if (List.length geographicPoints =? 0)%nat
    then Alerted
           "Error: No se pudieron convertir las coordenadas UTM a geográficas"
    else Drawn geographicPoints (centerLat geographicPoints)
               (centerLng geographicPoints).

(** *** App.tsx: handleFileAnalysis *)

(** The location of the response, as the model's JSON gives it: a number
    that was not found is [null]. *)
Record NullableUTM : Type := {
  utm_x : option num;
  utm_y : option num;
  utm_zone : string
}.

Record NullableCoordinates : Type := {
  lat_or_null : option num;
  lng_or_null : option num
}.

Record LocationResponse : Type := {
  utm_coordinates : NullableUTM;
  geographic_coordinates : NullableCoordinates;
  polygon_center : NullableCoordinates
}.

(** [v === null] *)
Definition isNullValue (v : option num) : bool :=
  match v with
  | None => true
  | Some _ => false
  end.

(** The truth value of a number: false for +0, -0 and NaN. *)
Definition truthy (a : num) : bool := (a < lit 0) || (lit 0 < a).

(** Lines 30-47: [geographic] and [polygonCenter] of the result. *)
Definition handleFileAnalysis_location (location : LocationResponse)
  : NullableCoordinates * NullableCoordinates :=
  let geographic := geographic_coordinates location in
  let polygonCenter := polygon_center location in
  let utm := utm_coordinates location in
  let geographic :=
    match utm_x utm, utm_y utm with
    | Some easting, Some northing =>
        if (isNullValue (lat_or_null geographic)
            || isNullValue (lng_or_null geographic))
           && truthy easting && truthy northing
        then
          match utmToGeographic
                  {| x := easting; y := northing; zone := utm_zone utm |} with
          | Ok g => {| lat_or_null := Some (lat g);
                       lng_or_null := Some (lng g) |}
          | Throw _ => geographic
          end
        else geographic
    | _, _ => geographic
    end in
  let polygonCenter :=
    if (isNullValue (lat_or_null polygonCenter)
        || isNullValue (lng_or_null polygonCenter))
       && negb (isNullValue (lat_or_null geographic))
       && negb (isNullValue (lng_or_null geographic))
    then {| lat_or_null := lat_or_null geographic;
            lng_or_null := lng_or_null geographic |}
    else polygonCenter in
  (geographic, polygonCenter).

(** *** The points as [JSON.parse] gives them *)

(** Nothing checks the points of the answer: they are the result of
    [JSON.parse] (aiService, analyzePolygonDocument), cast to the declared
    type.  [utmToGeographic] reads [x] and [y] in arithmetic only, which
    converts whatever it finds to a number; of the zone it calls the method
    [match], which only a string has: [zone_of] is the zone when it is a
    string, and nothing when it is null, absent or any other value, or when
    the point itself is null. *)
Record ParsedPoint : Type := {
  x_of : num;
  y_of : num;
  zone_of : option string
}.

(** The call at lines 99-103 on such a point: a zone that is not a string
    is not equal to ["19Q"], ["19N"] or ["20N"], and [utm.zone.match] throws
    a TypeError. *)
Definition utmToGeographic_parsed (point : ParsedPoint)
  : Result (GeographicCoordinates num) :=
  match zone_of point with
  | Some zone => utmToGeographic {| x := x_of point; y := y_of point;
                                    zone := zone |}
  | None => Throw "TypeError"
  end.

(** Lines 97-108 on the points as parsed. *)
Definition geographicPoints_parsed (points : list ParsedPoint)
  : list (GeographicCoordinates num) :=
  notNull (map (fun point => orNull (utmToGeographic_parsed point)) points).

(** Lines 88-120 on the points as parsed. *)
Definition PolygonMapView_effect_parsed (points : list ParsedPoint)
  : MapEffect :=
  if (List.length points =? 0)%nat then Skipped
  else
    let geographicPoints := geographicPoints_parsed points in
    if (List.length geographicPoints =? 0)%nat
    then Alerted
           "Error: No se pudieron convertir las coordenadas UTM a geográficas"
    else Drawn geographicPoints (centerLat geographicPoints)
               (centerLng geographicPoints).

(** A point of the declared type. *)
Definition parsed (point : UTMCoordinates num) : ParsedPoint :=
  {| x_of := x point; y_of := y point; zone_of := Some (zone point) |}.

Definition has_zone (point : ParsedPoint) : bool :=
  match zone_of point with
  | Some _ => true
  | None => false
  end.

End Callers.

Arguments MapEffect num : clear implicits.
Arguments ParsedPoint num : clear implicits.
Arguments NullableUTM num : clear implicits.
Arguments NullableCoordinates num : clear implicits.
Arguments LocationResponse num : clear implicits.

(** * Enclosures

    The claim on the round trip of a point through [geographicToUtm] and
    [utmToGeographic] is about every point of a region.  It is proved by
    reading the two functions, as they are written above, at one more
    instance of [JsNumber]: an enclosure of all the values that a quantity
    takes on a cell of the region.  The definitions of this part are the
    arithmetic of these enclosures; they are a device of the proof and model
    nothing of the program. *)

(** ** Intervals with fixed-point bounds *)

Module Interval.

Local Open Scope bigZ_scope.

(** A bound [z] stands for the real number [z / 2^bits]. *)
Definition bits : bigZ := 64.

Definition floor_scale (z : bigZ) : bigZ := BigZ.shiftr z bits.
Definition ceil_scale (z : bigZ) : bigZ := - BigZ.shiftr (- z) bits.
Definition ceil_div (n d : bigZ) : bigZ := - ((- n) / d).
Definition unscale (z : bigZ) : bigZ := BigZ.shiftl z bits.

Record interval : Type := mk { lo : bigZ; hi : bigZ }.

Definition point (z : bigZ) : interval := mk z z.
Definition of_Z (z : Z) : interval := point (unscale (BigZ.of_Z z)).
Definition of_Q (q : Q) : interval :=
  let n := unscale (BigZ.of_Z (Qnum q)) in
  let d := BigZ.of_Z (Zpos (Qden q)) in
  mk (n / d) (ceil_div n d).

Definition zero : interval := point 0.
Definition iadd (a b : interval) : interval := mk (lo a + lo b) (hi a + hi b).
Definition isub (a b : interval) : interval := mk (lo a - hi b) (hi a - lo b).
Definition ineg (a : interval) : interval := mk (- hi a) (- lo a).

Definition imul (a b : interval) : interval :=
  let p1 := lo a * lo b in
  let p2 := lo a * hi b in
  let p3 := hi a * lo b in
  let p4 := hi a * hi b in
  mk (floor_scale (BigZ.min (BigZ.min p1 p2) (BigZ.min p3 p4)))
     (ceil_scale (BigZ.max (BigZ.max p1 p2) (BigZ.max p3 p4))).

(** The quotient by an interval of positive numbers. *)
Definition div_pos (a b : interval) : interval :=
  mk (unscale (lo a) / (if 0 <=? lo a then hi b else lo b))
     (ceil_div (unscale (hi a)) (if 0 <=? hi a then lo b else hi b)).

Definition idiv (a b : interval) : option interval :=
  if 0 <? lo b then Some (div_pos a b)
  else if hi b <? 0 then Some (div_pos (ineg a) (ineg b))
  else None.

Definition isqrt (a : interval) : interval :=
  mk (BigZ.sqrt (unscale (lo a))) (BigZ.sqrt (unscale (hi a)) + 1).

Definition half (a : interval) : interval :=
  mk (BigZ.shiftr (lo a) 1) (- BigZ.shiftr (- hi a) 1).

Definition subset (a b : interval) : bool := (lo b <=? lo a) && (hi a <=? hi b).

(** The largest absolute value. *)
Definition mag (a : interval) : bigZ := BigZ.max (- lo a) (hi a).

(** The quotient by a positive integer. *)
Definition div_Z (a : interval) (d : Z) : interval :=
  let d := BigZ.of_Z d in mk (lo a / d) (ceil_div (hi a) d).

(** The sine series on [a]: from the term of rank [k - 1] and the partial
    sum up to it, the term and the partial sum [n] ranks further; a term is
    the one before times [- a^2 / ((2k) (2k+1))]. *)
Fixpoint sin_series (n : nat) (k : Z) (a2 term sum : interval)
  : interval * interval :=
  match n with
  | O => (term, sum)
  | S n =>
      let term' := ineg (div_Z (imul term a2) (2 * k * (2 * k + 1))) in
      sin_series n (k + 1) a2 term' (iadd sum term')
  end.

(** Twice [rank] terms after the first bound the sine from below, one more
    from above, for an argument between 0 and 3. *)
Definition rank : nat := 6.

Definition isin (a : interval) : interval :=
  let a2 := imul a a in
  let '(term, below) := sin_series (2 * rank + 1) 1 a2 a a in
  let '(_, above) := sin_series 1 (2 * Z.of_nat rank + 2) a2 term below in
  mk (lo below) (hi above).

(** The cosine, as [1 - 2 sin^2 (a / 2)]. *)
Definition icos (a : interval) : interval :=
  let s := isin (half a) in
  let s2 := imul s s in
  isub (of_Z 1) (iadd s2 s2).

Definition in_0_3 (a : interval) : bool :=
  (0 <=? lo a) && (hi a <=? lo (of_Z 3)).

End Interval.

(** ** Enclosures of second order

    A quantity that depends on the latitude and the longitude of a point of
    a cell is enclosed by [c + g1 d1 + g2 d2 + h11 d1^2 + h12 d1 d2 + h22 d2^2],
    [d1] and [d2] the offsets of the point from the centre of the cell, each
    coefficient somewhere in its interval. *)

Module Taylor.

Import Interval.

Record cell : Type := {
  W1 : interval; W2 : interval;
  W11 : interval; W12 : interval; W22 : interval
}.

Definition cell_of (w1 w2 : bigZ) : cell :=
  let a := mk (- w1) w1 in
  let b := mk (- w2) w2 in
  {| W1 := a; W2 := b;
     W11 := mk 0 (hi (imul a a)); W12 := imul a b; W22 := mk 0 (hi (imul b b)) |}.

Record form : Type := {
  c : interval;
  g1 : interval; g2 : interval;
  h11 : interval; h12 : interval; h22 : interval;
  (** the value less [c], and the value *)
  dev : interval;
  range : interval
}.

Inductive enclosure : Type :=
| Top
| Const (k : interval)
| Form (f : form).

Section Cell.

Variable K : cell.

Definition linear (a1 a2 : interval) : interval :=
  iadd (imul a1 (W1 K)) (imul a2 (W2 K)).

Definition quadratic (a11 a12 a22 : interval) : interval :=
  iadd (iadd (imul a11 (W11 K)) (imul a12 (W12 K))) (imul a22 (W22 K)).

Definition make (c g1 g2 h11 h12 h22 : interval) : form :=
  let d := iadd (linear g1 g2) (quadratic h11 h12 h22) in
  {| c := c; g1 := g1; g2 := g2; h11 := h11; h12 := h12; h22 := h22;
     dev := d; range := iadd c d |}.

Definition add_form (a b : form) : form :=
  make (iadd (c a) (c b)) (iadd (g1 a) (g1 b)) (iadd (g2 a) (g2 b))
       (iadd (h11 a) (h11 b)) (iadd (h12 a) (h12 b)) (iadd (h22 a) (h22 b)).

Definition shift (a : form) (k : interval) : form :=
  {| c := iadd (c a) k; g1 := g1 a; g2 := g2 a;
     h11 := h11 a; h12 := h12 a; h22 := h22 a;
     dev := dev a; range := iadd (range a) k |}.

Definition neg_form (a : form) : form :=
  {| c := ineg (c a); g1 := ineg (g1 a); g2 := ineg (g2 a);
     h11 := ineg (h11 a); h12 := ineg (h12 a); h22 := ineg (h22 a);
     dev := ineg (dev a); range := ineg (range a) |}.

Definition scale (a : form) (k : interval) : form :=
  {| c := imul (c a) k; g1 := imul (g1 a) k; g2 := imul (g2 a) k;
     h11 := imul (h11 a) k; h12 := imul (h12 a) k; h22 := imul (h22 a) k;
     dev := imul (dev a) k; range := imul (range a) k |}.

Definition mul_form (a b : form) : form :=
  let lb := iadd (c b) (linear (g1 b) (g2 b)) in
  make (imul (c a) (c b))
       (iadd (imul (c a) (g1 b)) (imul (c b) (g1 a)))
       (iadd (imul (c a) (g2 b)) (imul (c b) (g2 a)))
       (iadd (iadd (imul (range a) (h11 b)) (imul lb (h11 a))) (imul (g1 a) (g1 b)))
       (iadd (iadd (imul (range a) (h12 b)) (imul lb (h12 a)))
            (iadd (imul (g1 a) (g2 b)) (imul (g2 a) (g1 b))))
       (iadd (iadd (imul (range a) (h22 b)) (imul lb (h22 a))) (imul (g2 a) (g2 b))).

(** [f0 + f1 (x - c) + f2 (x - c)^2] for the [x] of [a]. *)
Definition compose (a : form) (f0 f1 f2 : interval) : form :=
  let k := iadd (linear (g1 a) (g2 a)) (dev a) in
  make f0 (imul f1 (g1 a)) (imul f1 (g2 a))
       (iadd (imul f1 (h11 a)) (imul f2 (iadd (imul (g1 a) (g1 a)) (imul k (h11 a)))))
       (iadd (imul f1 (h12 a))
            (imul f2 (iadd (let p := imul (g1 a) (g2 a) in iadd p p)
                         (imul k (h12 a)))))
       (iadd (imul f1 (h22 a)) (imul f2 (iadd (imul (g2 a) (g2 a)) (imul k (h22 a))))).

Definition one : interval := of_Z 1.

Definition inv_form (a : form) : option form :=
  match idiv one (c a), idiv one (range a) with
  | Some ic, Some ir =>
      let ic2 := imul ic ic in
      Some (compose a ic (ineg ic2) (imul ic2 ir))
  | _, _ => None
  end.

Definition sqrt_form (a : form) : option form :=
  if (0 <? lo (c a))%bigZ && (0 <? lo (range a))%bigZ then
    let sc := isqrt (c a) in
    let sr := isqrt (range a) in
    let t := iadd sc sr in
    match idiv one (iadd sc sc), idiv one (imul (iadd sc sc) (imul t t)) with
    | Some f1, Some f2 => Some (compose a sc f1 (ineg f2))
    | _, _ => None
    end
  else None.

(** Enclosures of [(1 - cos t) / t^2] and [(t - sin t) / t^3] for [t] in
    [d]. *)
Definition kappa (d : interval) : interval * interval :=
  let m := point (mag d) in
  let m2 := imul m m in
  (mk (lo (isub (of_Q (1 # 2)) (div_Z m2 24))) (hi (of_Q (1 # 2))),
   mk (lo (isub (of_Q (1 # 6)) (div_Z m2 120))) (hi (of_Q (1 # 6)))).

Definition small (d : interval) : bool := subset d (mk (lo (of_Z (-1))) (lo (of_Z 1))).

Definition sin_form (a : form) : option form :=
  if in_0_3 (c a) && small (dev a) then
    let sc := isin (c a) in
    let cc := icos (c a) in
    let '(k1, k2) := kappa (dev a) in
    Some (compose a sc cc (ineg (iadd (imul k1 sc) (imul (imul (dev a) k2) cc))))
  else None.

Definition cos_form (a : form) : option form :=
  if in_0_3 (c a) && small (dev a) then
    let sc := isin (c a) in
    let cc := icos (c a) in
    let '(k1, k2) := kappa (dev a) in
    Some (compose a cc (ineg sc) (ineg (isub (imul k1 cc) (imul (imul (dev a) k2) sc))))
  else None.

Definition lift (o : option form) : enclosure :=
  match o with Some f => Form f | None => Top end.

Definition lift_const (o : option interval) : enclosure :=
  match o with Some k => Const k | None => Top end.

Definition add_enclosure (a b : enclosure) : enclosure :=
  match a, b with
  | Const k, Const l => Const (iadd k l)
  | Const k, Form f | Form f, Const k => Form (shift f k)
  | Form f, Form g => Form (add_form f g)
  | _, _ => Top
  end.

Definition neg_enclosure (a : enclosure) : enclosure :=
  match a with
  | Const k => Const (ineg k)
  | Form f => Form (neg_form f)
  | Top => Top
  end.

Definition sub_enclosure (a b : enclosure) : enclosure :=
  add_enclosure a (neg_enclosure b).

Definition mul_enclosure (a b : enclosure) : enclosure :=
  match a, b with
  | Const k, Const l => Const (imul k l)
  | Const k, Form f | Form f, Const k => Form (scale f k)
  | Form f, Form g => Form (mul_form f g)
  | _, _ => Top
  end.

Definition inv_enclosure (a : enclosure) : enclosure :=
  match a with
  | Const k => lift_const (idiv one k)
  | Form f => lift (inv_form f)
  | Top => Top
  end.

Definition div_form_const (f : form) (k : interval) : option form :=
  match idiv (c f) k, idiv (g1 f) k, idiv (g2 f) k,
        idiv (h11 f) k, idiv (h12 f) k, idiv (h22 f) k,
        idiv (dev f) k, idiv (range f) k with
  | Some c, Some g1, Some g2, Some h11, Some h12, Some h22, Some d, Some r =>
      Some {| c := c; g1 := g1; g2 := g2; h11 := h11; h12 := h12; h22 := h22;
              dev := d; range := r |}
  | _, _, _, _, _, _, _, _ => None
  end.

Definition div_enclosure (a b : enclosure) : enclosure :=
  match a, b with
  | Const k, Const l => lift_const (idiv k l)
  | Form f, Const l => lift (div_form_const f l)
  | _, _ => mul_enclosure a (inv_enclosure b)
  end.

Definition sqrt_enclosure (a : enclosure) : enclosure :=
  match a with
  | Const k => if (0 <=? lo k)%bigZ then Const (isqrt k) else Top
  | Form f => lift (sqrt_form f)
  | Top => Top
  end.

Definition sin_enclosure (a : enclosure) : enclosure :=
  match a with
  | Const k => if in_0_3 k then Const (isin k) else Top
  | Form f => lift (sin_form f)
  | Top => Top
  end.

Definition cos_enclosure (a : enclosure) : enclosure :=
  match a with
  | Const k => if in_0_3 k then Const (icos k) else Top
  | Form f => lift (cos_form f)
  | Top => Top
  end.

Definition tan_enclosure (a : enclosure) : enclosure :=
  div_enclosure (sin_enclosure a) (cos_enclosure a).

Definition half_up : interval := mk (lo (of_Q (-1 # 2))) (hi (of_Q (1 # 2))).

Definition round_enclosure (a : enclosure) : enclosure :=
  match a with
  | Const k => Const (iadd k half_up)
  | Form f => Form (shift f half_up)
  | Top => Top
  end.

(** The integer part, when it is the same on the whole range. *)
Definition floor_interval (k : interval) : enclosure :=
  let z := BigZ.shiftr (lo k) bits in
  if (hi k <? unscale (z + 1))%bigZ then Const (point (unscale z)) else Top.

Definition floor_enclosure (a : enclosure) : enclosure :=
  match a with
  | Const k => floor_interval k
  | Form f => floor_interval (range f)
  | Top => Top
  end.

Fixpoint power (a : enclosure) (n : nat) : enclosure :=
  match n with
  | O => Const one
  | 1%nat => a
  | S n => mul_enclosure (power a n) a
  end.

(** [Math.pow] with an exponent that is a literal: a whole number from 1 to
    7, or 1.5.  The source has 3, 4, 5, 6 and 1.5. *)
Definition pow_enclosure (a e : enclosure) : enclosure :=
  match e with
  | Const k =>
      if (lo k =? hi k)%bigZ then
        if (lo k =? lo (of_Q (3 # 2)))%bigZ
        then mul_enclosure a (sqrt_enclosure a)
        else
          let n := BigZ.to_Z (BigZ.shiftr (lo k) bits) in
          if (lo k =? unscale (BigZ.of_Z n))%bigZ && (0 <? n)%Z && (n <? 8)%Z
          then power a (Z.to_nat n)
          else Top
      else Top
  | _ => Top
  end.

(** [Math.PI] lies between 57952155664616982739 and 57952155664616982740
    times 2^-64. *)
Definition pi : interval :=
  mk 57952155664616982739%bigZ 57952155664616982740%bigZ.

#[export] Instance enclosure_number : JsNumber enclosure := {|
  lit q := Const (of_Q q);
  NaN := Top;
  Math_PI := Const pi;
  add := add_enclosure;
  sub := sub_enclosure;
  mul := mul_enclosure;
  div := div_enclosure;
  lt := fun _ _ => false;
  le := fun _ _ => false;
  Math_sqrt := sqrt_enclosure;
  Math_sin := sin_enclosure;
  Math_cos := cos_enclosure;
  Math_tan := tan_enclosure;
  Math_floor := floor_enclosure;
  Math_round := round_enclosure;
  Math_pow := pow_enclosure;
  Math_atan2 := fun _ _ => Top;
  toString := fun _ => EmptyString
|}.

End Cell.

End Taylor.

(** ** The round trip on a cell *)

Section RoundTrip.

Context {num : Type} `{JsNumber num}.

Local Open Scope js_scope.

(** [utmToGeographic(geographicToUtm(coords))] less [coords], for a point of
    the northern hemisphere in zone 19. *)
Definition round_trip_error (coords : GeographicCoordinates num)
  : Result (num * num) :=
  let '(utmEasting, utmNorthing) := geographicToUtm_series coords in
  back <- utmToGeographic {| x := Math_round utmEasting;
                             y := Math_round utmNorthing;
                             zone := "19N" |} ;;
  Ok (lat back - lat coords, lng back - lng coords).

End RoundTrip.

Module Grid.

Import Interval Taylor.
Local Open Scope bigZ_scope.

(** A coordinate of the point of a cell: the centre of the cell, and 1 for
    the coefficient of its own offset. *)
Definition variable (K : cell) (centre : bigZ) (first : bool) : enclosure :=
  Form (if first then make K (point centre) one zero zero zero zero
        else make K (point centre) zero one zero zero zero).

(** The largest differences of latitude and of longitude that an enclosure
    of the round trip allows. *)
Definition extent (r : Result (enclosure * enclosure))
  : option (bigZ * bigZ) :=
  match r with
  | Ok (Form a, Form b) => Some (mag (range a), mag (range b))
  | _ => None
  end.

(** Latitude 17.5 to 20 and longitude -72 to -68, cut in 16 by 16 cells of
    half height 5/64 and half width 1/8 degrees. *)
Definition cells : nat := 16.
Definition lat0 : bigZ := lo (of_Q (35 # 2)).
Definition lng0 : bigZ := lo (of_Z (-72)).
Definition half_height : bigZ := lo (of_Q (5 # 64)).
Definition half_width : bigZ := lo (of_Q (1 # 8)).
Definition box : cell := cell_of half_height half_width.

Definition centre (first half : bigZ) (i : nat) : bigZ :=
  first + BigZ.of_Z (2 * Z.of_nat i + 1) * half.

(** The square of the angle, in degrees and in units of 2^-128, that one
    metre spans on the sphere of [calculateDistance]. *)
Definition limit : bigZ := 27521335183158694323546340738.

Definition within (o : option (bigZ * bigZ)) : bool :=
  match o with
  | Some (m1, m2) => m1 * m1 + m2 * m2 <=? limit
  | None => false
  end.

End Grid.

(** ** The Dominican Republic as one cell *)

Module Region.

Import Interval Taylor Grid.
Local Open Scope bigZ_scope.

(** The interval of the values that an enclosure allows. *)
Definition span (e : enclosure) : option interval :=
  match e with
  | Form f => Some (range f)
  | Const k => Some k
  | Top => None
  end.

(** The values lie between the integers [a] and [b]. *)
Definition inside (e : enclosure) (a b : Z) : bool :=
  match span e with
  | Some k => subset k (mk (unscale (BigZ.of_Z a)) (unscale (BigZ.of_Z b)))
  | None => false
  end.

(** Latitude 17.5 to 20 and longitude -72 to -68: the centre 18.75, -70 and
    the half sides 1.25 and 2 degrees. *)
Definition mid_latitude : bigZ := lo (of_Q (75 # 4)).
Definition mid_longitude : bigZ := lo (of_Z (-70)).
Definition half_latitude : bigZ := lo (of_Q (5 # 4)).
Definition half_longitude : bigZ := lo (of_Z 2).

(** Easting 300,000 to 800,000 and northing 1,900,000 to 2,200,000, the
    ranges the application documents for the country. *)
Definition mid_easting : bigZ := lo (of_Z 550000).
Definition mid_northing : bigZ := lo (of_Z 2050000).
Definition half_easting : bigZ := lo (of_Z 250000).
Definition half_northing : bigZ := lo (of_Z 150000).

Definition inside_pair (p : enclosure * enclosure) (a b c d : Z) : bool :=
  inside (fst p) a b && inside (snd p) c d.

Definition inside_point (r : Result (GeographicCoordinates enclosure))
           (a b c d : Z) : bool :=
  match r with
  | Ok g => inside (lat g) a b && inside (lng g) c d
  | Throw _ => false
  end.

End Region.

(** * Properties *)

(** ** Strings *)

Lemma span_digits_spec (s : string) :
  s = fst (span_digits s) ++ snd (span_digits s) /\
  all_digits (fst (span_digits s)) = true /\
  match snd (span_digits s) with
  | String c _ => isDigit c = false
  | EmptyString => True
  end.
Proof.
  induction s as [|c s IH]; simpl.
  - auto.
  - destruct (isDigit c) eqn:Hc.
    + destruct (span_digits s) as [ds rest]; simpl in *.
      destruct IH as (-> & Hds & Hrest).
      rewrite Hc. auto.
    + simpl. rewrite Hc. auto.
Qed.

Lemma isNS_not_digit (l : ascii) : isNS l = true -> isDigit l = false.
Proof.
  unfold isNS. rewrite !orb_true_iff, !Ascii.eqb_eq.
  intros [[[-> | ->] | ->] | ->]; reflexivity.
Qed.

Lemma all_digits_app (a b : string) :
  all_digits (a ++ b) = all_digits a && all_digits b.
Proof.
  induction a as [|c a IH]; simpl; [reflexivity|].
  now rewrite IH, andb_assoc.
Qed.

(** What greedy [\d+] takes from [ds ++ l ++ post] when [l] is no digit. *)
Lemma span_digits_run (ds : string) (l : ascii) (post : string) :
  all_digits ds = true -> isDigit l = false ->
  span_digits (ds ++ String l post) = (ds, String l post).
Proof.
  intros Hds Hl. induction ds as [|c ds IH]; simpl in *.
  - now rewrite Hl.
  - apply andb_true_iff in Hds as [Hc Hds].
    now rewrite Hc, (IH Hds).
Qed.

Lemma zone_at_run (ds : string) (l : ascii) (post : string) :
  ds <> "" -> all_digits ds = true -> isNS l = true ->
  zone_at (ds ++ String l post) = Some (ds, l).
Proof.
  intros Hne Hds Hl. unfold zone_at.
  rewrite (span_digits_run ds l post Hds (isNS_not_digit l Hl)).
  destruct ds; [congruence|]. now rewrite Hl.
Qed.

Lemma zone_at_Some (s ds : string) (l : ascii) :
  zone_at s = Some (ds, l) ->
  exists post, s = ds ++ String l post /\
               ds <> "" /\ all_digits ds = true /\ isNS l = true.
Proof.
  unfold zone_at. intros Hz.
  destruct (span_digits_spec s) as (Hs & Hds & _).
  destruct (span_digits s) as [[|d ds'] [|l' rest]]; try discriminate.
  simpl in *. destruct (isNS l') eqn:Hl; [|discriminate].
  injection Hz as <- <-. exists rest. repeat split; auto. discriminate.
Qed.

Lemma zone_match_Some (s ds : string) (l : ascii) :
  zone_match s = Some (ds, l) ->
  exists pre post, s = pre ++ ds ++ String l post /\
                   ds <> "" /\ all_digits ds = true /\ isNS l = true.
Proof.
  induction s as [|c s IH]; simpl.
  - discriminate.
  - destruct (zone_at (String c s)) as [[ds' l']|] eqn:Hat.
    + intros Heq. injection Heq as -> ->.
      destruct (zone_at_Some _ _ _ Hat) as (post & Hs & Hrest).
      exists "", post. simpl. auto.
    + intros Hm. destruct (IH Hm) as (pre & post & -> & Hrest).
      exists (String c pre), post. simpl. auto.
Qed.

Lemma zone_match_app (pre ds : string) (l : ascii) (post : string) :
  ds <> "" -> all_digits ds = true -> isNS l = true ->
  zone_match (pre ++ ds ++ String l post) <> None.
Proof.
  intros Hne Hds Hl. induction pre as [|c pre IH].
  - simpl. destruct ds as [|d ds]; [congruence|].
    change (String d ds ++ String l post)
      with (String d (ds ++ String l post)).
    cbn [zone_match].
    change (String d (ds ++ String l post))
      with (String d ds ++ String l post).
    now rewrite (zone_at_run _ l post Hne Hds Hl).
  - simpl. destruct (zone_at (String c (pre ++ ds ++ String l post)));
      [discriminate | exact IH].
Qed.

(** [match] returns [null] exactly on the strings without the pattern. *)
Lemma zone_match_None (s : string) :
  zone_match s = None <-> ~ contains_zone_pattern s.
Proof.
  split.
  - intros Hnone (pre & ds & l & post & -> & Hne & Hds & Hl).
    exact (zone_match_app pre ds l post Hne Hds Hl Hnone).
  - intros Hno. destruct (zone_match s) as [[ds l]|] eqn:Hm; [|reflexivity].
    exfalso. apply Hno. destruct (zone_match_Some _ _ _ Hm) as (pre & post & H').
    now exists pre, ds, l, post.
Qed.

(** ** Exact arithmetic *)

Module IdealFacts.

Import Ideal.
Local Open Scope R_scope.

Lemma Q2R_inject_Z (z : Z) : Q2R (inject_Z z) = IZR z.
Proof. unfold Q2R, inject_Z; simpl. now rewrite Rinv_1, Rmult_1_r. Qed.

Lemma Rltb_true (a b : R) : Rltb a b = true <-> a < b.
Proof. unfold Rltb; destruct (Rlt_dec a b); split; auto; discriminate. Qed.

Lemma Rltb_false (a b : R) : Rltb a b = false <-> b <= a.
Proof.
  unfold Rltb; destruct (Rlt_dec a b); split; auto; try discriminate; lra.
Qed.

Lemma Rleb_true (a b : R) : Rleb a b = true <-> a <= b.
Proof. unfold Rleb; destruct (Rle_dec a b); split; auto; discriminate. Qed.

Lemma Rleb_false (a b : R) : Rleb a b = false <-> b < a.
Proof.
  unfold Rleb; destruct (Rle_dec a b); split; auto; try discriminate; lra.
Qed.

Lemma Rltb_opp (r : R) : r <> 0 -> Rltb (- r) 0 = negb (Rltb r 0).
Proof.
  intros Hr. unfold Rltb.
  destruct (Rlt_dec (- r) 0), (Rlt_dec r 0); simpl; auto; lra.
Qed.

(** Case analysis on the decisions the operations take. *)
Ltac decide_reals :=
  repeat match goal with
  | |- context [Req_dec_T ?a ?b] => destruct (Req_dec_T a b)
  | |- context [Rlt_dec ?a ?b] => destruct (Rlt_dec a b)
  | |- context [Rle_dec ?a ?b] => destruct (Rle_dec a b)
  end.

Ltac ideal_cases :=
  unfold sub, neg, add, mul, div, scale_inf, Rltb, Rleb; decide_reals;
  simpl; try reflexivity; try (f_equal; lra); try lra; try congruence.

Lemma add_comm (a b : ideal) : add a b = add b a.
Proof. destruct a as [r|[]|], b as [s|[]|]; ideal_cases. Qed.

Lemma add_assoc (a b c : ideal) : add a (add b c) = add (add a b) c.
Proof.
  destruct a as [r|[]|], b as [s|[]|], c as [t|[]|]; ideal_cases.
Qed.

Lemma add_0_l (a : ideal) : add (Fin 0) a = a.
Proof. destruct a as [r|[]|]; ideal_cases. Qed.

Lemma mul_comm (a b : ideal) : mul a b = mul b a.
Proof. destruct a as [r|[]|], b as [s|[]|]; ideal_cases. Qed.

Lemma sub_antisym (a b : ideal) : sub a b = neg (sub b a).
Proof. destruct a as [r|[]|], b as [s|[]|]; ideal_cases. Qed.

Lemma neg_neg (a : ideal) : neg (neg a) = a.
Proof. destruct a as [r|[]|]; ideal_cases. Qed.

Lemma mul_neg_r (a b : ideal) : mul a (neg b) = neg (mul a b).
Proof.
  destruct a as [r|[]|], b as [s|[]|]; ideal_cases.
Qed.

Lemma mul_neg_l (a b : ideal) : mul (neg a) b = neg (mul a b).
Proof. now rewrite mul_comm, mul_neg_r, mul_comm. Qed.

Lemma div_neg_l (a b : ideal) : div (neg a) b = neg (div a b).
Proof.
  destruct a as [r|[]|], b as [s|[]|]; ideal_cases.
Qed.

Lemma trig_sin_neg (a : ideal) : trig sin (neg a) = neg (trig sin a).
Proof. destruct a as [r|[]|]; simpl; try reflexivity. now rewrite sin_neg. Qed.

(** A value with its opposite: zero, unless the value is not finite. *)
Definition zero_or_nan (a : ideal) : Prop := a = Fin 0 \/ a = NotANumber.

Lemma add_neg_self (a : ideal) : zero_or_nan (add a (neg a)).
Proof.
  destruct a as [r|[]|]; simpl; [left | right | right | right]; auto.
  f_equal; lra.
Qed.

Lemma zero_or_nan_mul_fin (a : ideal) (r : R) :
  zero_or_nan a -> zero_or_nan (mul a (Fin r)) /\ zero_or_nan (mul (Fin r) a).
Proof.
  intros [-> | ->]; simpl; split; try (now right); left; f_equal; lra.
Qed.

Lemma zero_or_nan_div (a b : ideal) :
  zero_or_nan a -> zero_or_nan b -> div a b = NotANumber.
Proof.
  intros [-> | ->] [-> | ->]; simpl; try reflexivity.
  destruct (Req_dec_T 0 0); [reflexivity | congruence].
Qed.

(** Division by an exact zero is never finite. *)
Lemma div_zero_not_finite (a : ideal) (r : R) :
  r = 0 -> finite (div a (Fin r)) = false.
Proof.
  intros ->. destruct a as [s|[]|]; simpl; try reflexivity.
  destruct (Req_dec_T 0 0); [|congruence].
  destruct (Req_dec_T s 0); reflexivity.
Qed.

Lemma div_fin (r s : R) : s <> 0 -> div (Fin r) (Fin s) = Fin (r / s).
Proof. intros Hs. simpl. destruct (Req_dec_T s 0); [contradiction | reflexivity]. Qed.

Lemma sqrt_fin (r : R) : 0 <= r -> sqrt (Fin r) = Fin (R_sqrt.sqrt r).
Proof. intros Hr. simpl. destruct (Rlt_dec r 0); [lra | reflexivity]. Qed.

(** [(1 / B) S] and [S / B] agree, also when [B] is zero or a value is not
    finite. *)
Lemma div_eq_mul_inv (S B : ideal) : div S B = mul (div (Fin 1) B) S.
Proof.
  destruct B as [b|[]|].
  - destruct (Req_dec_T b 0) as [-> | Hb].
    + destruct S as [s|[]|]; ideal_cases.
    + assert (H1 : 1 / b <> 0).
      { unfold Rdiv. rewrite Rmult_1_l. now apply Rinv_neq_0_compat. }
      destruct (Rlt_dec b 0) as [Hneg | Hpos].
      * assert (H2 : 1 / b < 0).
        { unfold Rdiv. rewrite Rmult_1_l. now apply Rinv_lt_0_compat. }
        destruct S as [s|[]|]; ideal_cases; f_equal; field; lra.
      * assert (H2 : 0 < 1 / b).
        { unfold Rdiv. rewrite Rmult_1_l. apply Rinv_0_lt_compat. lra. }
        destruct S as [s|[]|]; ideal_cases; f_equal; field; lra.
  - destruct S as [s|[]|]; ideal_cases.
  - destruct S as [s|[]|]; ideal_cases.
  - destruct S as [s|[]|]; ideal_cases.
Qed.

Lemma div_as_mul_inverse (S A : ideal) :
  div S (mul (Fin (Q2R 6)) (mul A (Fin (Q2R 0.5)))) =
  mul (div (Fin (Q2R 1)) (mul (Fin (Q2R 6)) (mul (Fin (Q2R 0.5)) A))) S.
Proof.
  rewrite (mul_comm A). replace (Q2R 1) with 1.
  - apply div_eq_mul_inv.
  - unfold Q2R; simpl; lra.
Qed.

End IdealFacts.

(** ** The loop of calculatePolygonCentroid *)

Section CentroidLoop.

Context {num : Type} `{JsNumber num}.

Local Open Scope list_scope.
Local Open Scope js_scope.

(** One turn of the loop, on the pair of vertices it reads. *)
Definition pair_step (acc : num * num * num)
  (pq : PolygonPoint num * PolygonPoint num) : num * num * num :=
  let '(area, centroidLat, centroidLng) := acc in
  (area + cross pq,
   centroidLat + (lat (fst pq) + lat (snd pq)) * cross pq,
   centroidLng + (lng (fst pq) + lng (snd pq)) * cross pq).

(** The pair read at index [i]. *)
Definition pair_at (polygon : list (PolygonPoint num)) (d : PolygonPoint num)
  (i : nat) : PolygonPoint num * PolygonPoint num :=
  (nth i polygon d, nth ((i + 1) mod List.length polygon) polygon d).

Lemma vertex_nth (polygon : list (PolygonPoint num)) (d : PolygonPoint num)
  (i : nat) :
  (i < List.length polygon)%nat -> vertex polygon i = Ok (nth i polygon d).
Proof.
  intros Hi. unfold vertex. now rewrite (nth_error_nth' polygon d Hi).
Qed.

(** Inside the bounds no access throws, and the loop is a fold over the
    pairs read. *)
Lemma centroid_loop_indices (polygon : list (PolygonPoint num))
  (d : PolygonPoint num) (indices : list nat) (acc : num * num * num) :
  (forall i, In i indices -> (i < List.length polygon)%nat) ->
  fold_left (centroid_step polygon) indices (Ok acc) =
  Ok (fold_left pair_step (map (pair_at polygon d) indices) acc).
Proof.
  revert acc. induction indices as [|i indices IH]; intros acc Hin.
  - reflexivity.
  - cbn [fold_left map].
    assert (Hi : (i < List.length polygon)%nat) by (apply Hin; now left).
    assert (Hj : ((i + 1) mod List.length polygon < List.length polygon)%nat)
      by (apply Nat.mod_upper_bound; lia).
    replace (centroid_step polygon (Ok acc) i)
      with (Ok (pair_step acc (pair_at polygon d i))).
    + apply IH. intros k Hk. apply Hin. now right.
    + unfold centroid_step, pair_at, pair_step, cross.
      destruct acc as [[area cLat] cLng]. cbn [bind].
      rewrite (vertex_nth polygon d i Hi). cbn [bind].
      rewrite (vertex_nth polygon d _ Hj). reflexivity.
Qed.

Lemma cyclic_pairs_length (polygon : list (PolygonPoint num)) :
  List.length (cyclic_pairs polygon) = List.length polygon.
Proof.
  unfold cyclic_pairs. destruct polygon as [|p polygon]; [reflexivity|].
  rewrite length_combine, length_app. cbn [tl firstn List.length]. lia.
Qed.

Lemma pairs_read (polygon : list (PolygonPoint num)) (d : PolygonPoint num) :
  map (pair_at polygon d) (seq 0 (List.length polygon)) =
  cyclic_pairs polygon.
Proof.
  apply (nth_ext _ _ (d, d) (d, d)).
  - now rewrite length_map, length_seq, cyclic_pairs_length.
  - intros i Hi. rewrite length_map, length_seq in Hi.
    rewrite (nth_indep _ _ (pair_at polygon d 0%nat))
      by now rewrite length_map, length_seq.
    rewrite map_nth, seq_nth by assumption. simpl.
    unfold cyclic_pairs, pair_at.
    destruct polygon as [|p polygon]; [simpl in Hi; lia|].
    rewrite combine_nth by (rewrite length_app; simpl; lia).
    f_equal. cbn [tl firstn List.length] in *.
    destruct (Nat.eq_dec (i + 1) (S (List.length polygon))) as [Hlast | Hmid].
    + rewrite Hlast, Nat.Div0.mod_same.
      rewrite app_nth2 by lia.
      replace (i - List.length polygon)%nat with 0%nat by lia. reflexivity.
    + rewrite Nat.mod_small by lia.
      rewrite app_nth1 by lia.
      replace (i + 1)%nat with (S i) by lia. reflexivity.
Qed.

Lemma centroid_loop (polygon : list (PolygonPoint num))
  (acc : num * num * num) :
  polygon <> [] ->
  fold_left (centroid_step polygon) (seq 0 (List.length polygon)) (Ok acc) =
  Ok (fold_left pair_step (cyclic_pairs polygon) acc).
Proof.
  intros Hne. destruct polygon as [|d polygon]; [congruence|].
  rewrite (centroid_loop_indices _ d).
  - now rewrite pairs_read.
  - intros i Hi. apply in_seq in Hi. lia.
Qed.

(** The three accumulators separately. *)
Lemma pair_step_components
  (pairs : list (PolygonPoint num * PolygonPoint num)) (a b c : num) :
  fold_left pair_step pairs (a, b, c) =
  (fold_left add (map cross pairs) a,
   fold_left add
     (map (fun pq => (lat (fst pq) + lat (snd pq)) * cross pq) pairs) b,
   fold_left add
     (map (fun pq => (lng (fst pq) + lng (snd pq)) * cross pq) pairs) c).
Proof.
  revert a b c. induction pairs as [|pq pairs IH]; intros a b c.
  - reflexivity.
  - cbn [fold_left map]. unfold pair_step at 2. apply IH.
Qed.

(** The pairs along a path that ends by stepping to [z]. *)
Fixpoint chain (l : list (PolygonPoint num)) (z : PolygonPoint num)
  : list (PolygonPoint num * PolygonPoint num) :=
  match l with
  | [] => []
  | p :: rest =>
      match rest with
      | [] => [(p, z)]
      | q :: _ => (p, q) :: chain rest z
      end
  end.

Lemma combine_chain (l : list (PolygonPoint num)) (z : PolygonPoint num) :
  combine l (tl l ++ [z]) = chain l z.
Proof.
  induction l as [|p [|q rest] IH]; try reflexivity.
  change ((p, q) :: combine (q :: rest) (tl (q :: rest) ++ [z]) =
          (p, q) :: chain (q :: rest) z).
  now rewrite IH.
Qed.

Lemma cyclic_pairs_chain (p : PolygonPoint num)
  (rest : list (PolygonPoint num)) :
  cyclic_pairs (p :: rest) = chain (p :: rest) p.
Proof. unfold cyclic_pairs. cbn [firstn]. apply combine_chain. Qed.

Lemma chain_app (l1 l2 : list (PolygonPoint num)) (q z : PolygonPoint num) :
  chain (l1 ++ q :: l2) z = chain l1 q ++ chain (q :: l2) z.
Proof.
  induction l1 as [|p [|p' l1] IH].
  - reflexivity.
  - reflexivity.
  - change (chain ((p :: p' :: l1) ++ q :: l2) z)
      with ((p, p') :: chain ((p' :: l1) ++ q :: l2) z).
    change (chain (p :: p' :: l1) q) with ((p, p') :: chain (p' :: l1) q).
    now rewrite IH.
Qed.

(** The ring started at another vertex has the same pairs, in two blocks
    exchanged. *)
Lemma cyclic_pairs_rotate (l1 l2 : list (PolygonPoint num)) :
  exists P Q,
    cyclic_pairs (l1 ++ l2) = P ++ Q /\ cyclic_pairs (l2 ++ l1) = Q ++ P.
Proof.
  destruct l1 as [|a l1].
  - exists (cyclic_pairs l2), []. now rewrite !app_nil_r.
  - destruct l2 as [|b l2].
    + exists [], (cyclic_pairs (a :: l1)). now rewrite !app_nil_r.
    + exists (chain (a :: l1) b), (chain (b :: l2) a).
      change ((a :: l1) ++ b :: l2) with (a :: (l1 ++ b :: l2)).
      change ((b :: l2) ++ a :: l1) with (b :: (l2 ++ a :: l1)).
      rewrite !cyclic_pairs_chain.
      change (a :: l1 ++ b :: l2) with ((a :: l1) ++ b :: l2).
      change (b :: l2 ++ a :: l1) with ((b :: l2) ++ a :: l1).
      now rewrite !chain_app.
Qed.

End CentroidLoop.

(** ** The centroid in exact arithmetic *)

Module CentroidFacts.

Import IdealFacts.
Local Open Scope list_scope.

(** The operators of the interface, read at [ideal]. *)
Ltac ideal_ops :=
  cbn [add sub mul div lt le gt ge lit NaN Math_PI Math_sqrt Math_sin Math_cos Math_tan
       Math_floor Math_round Math_pow Math_atan2 toString ideal_number] in *.

Lemma Q2R_0 : Q2R 0 = 0%R.
Proof. unfold Q2R; simpl; lra. Qed.

Lemma sum_cons (a : ideal) (l : list ideal) : sum (a :: l) = add a (sum l).
Proof. reflexivity. Qed.

Lemma sum_nil : sum (@nil ideal) = Fin 0.
Proof. unfold sum; simpl. now rewrite Q2R_0. Qed.

Lemma fold_left_add_sum (l : list ideal) (a : ideal) :
  fold_left add l a = add a (sum l).
Proof.
  revert a. induction l as [|b l IH]; intros a.
  - rewrite sum_nil, add_comm. symmetry. apply add_0_l.
  - cbn [fold_left]. rewrite IH, sum_cons. ideal_ops.
    now rewrite add_assoc.
Qed.

Lemma sum_app (P Q : list ideal) : sum (P ++ Q) = add (sum P) (sum Q).
Proof.
  induction P as [|a P IH].
  - rewrite sum_nil. simpl. symmetry. apply add_0_l.
  - cbn [app]. rewrite !sum_cons, IH. apply add_assoc.
Qed.

Lemma sum_swap (P Q : list ideal) : sum (P ++ Q) = sum (Q ++ P).
Proof. rewrite !sum_app. apply add_comm. Qed.

(** What the function returns on two vertices or more: the three sums of
    the loop, then the two quotients. *)
Lemma centroid_sums (polygon : list (PolygonPoint ideal)) :
  (2 <= List.length polygon)%nat ->
  calculatePolygonCentroid polygon =
  Ok {| lat := div
          (sum (map (fun pq => mul (add (lat (fst pq)) (lat (snd pq)))
                                   (cross pq)) (cyclic_pairs polygon)))
          (mul (Fin (Q2R 6))
               (mul (sum (map cross (cyclic_pairs polygon))) (Fin (Q2R 0.5))));
        lng := div
          (sum (map (fun pq => mul (add (lng (fst pq)) (lng (snd pq)))
                                   (cross pq)) (cyclic_pairs polygon)))
          (mul (Fin (Q2R 6))
               (mul (sum (map cross (cyclic_pairs polygon))) (Fin (Q2R 0.5))))
     |}.
Proof.
  intros Hlen. destruct polygon as [|p [|q rest]]; simpl in Hlen; try lia.
  unfold calculatePolygonCentroid.
  rewrite centroid_loop by discriminate.
  rewrite pair_step_components. cbn [bind].
  rewrite !fold_left_add_sum. ideal_ops. rewrite Q2R_0, !add_0_l.
  reflexivity.
Qed.

Lemma centroid_shoelace (polygon : list (PolygonPoint ideal)) :
  (2 <= List.length polygon)%nat ->
  calculatePolygonCentroid polygon = Ok (shoelace_centroid polygon).
Proof.
  intros Hlen. rewrite centroid_sums by assumption.
  unfold shoelace_centroid, signed_area. ideal_ops.
  now rewrite !div_as_mul_inverse.
Qed.

Lemma centroid_rotate (l1 l2 : list (PolygonPoint ideal)) :
  (2 <= List.length (l1 ++ l2))%nat ->
  calculatePolygonCentroid (l2 ++ l1) = calculatePolygonCentroid (l1 ++ l2).
Proof.
  intros Hlen.
  assert (Hlen' : (2 <= List.length (l2 ++ l1))%nat)
    by (rewrite length_app in *; lia).
  rewrite !centroid_sums by assumption.
  destruct (cyclic_pairs_rotate l1 l2) as (P & Q & -> & ->).
  rewrite !map_app. now rewrite !(sum_swap (map _ Q)).
Qed.

(** The cross term of the pair read back is the opposite. *)
Lemma cross_swap (p q : PolygonPoint ideal) :
  cross (q, p) = Ideal.neg (cross (p, q)).
Proof. unfold cross. ideal_ops. apply sub_antisym. Qed.

Lemma centroid_two_points (p q : PolygonPoint ideal) :
  calculatePolygonCentroid [p; q] =
  Ok {| lat := NotANumber; lng := NotANumber |}.
Proof.
  rewrite centroid_sums by (simpl; lia).
  unfold cyclic_pairs. cbn [tl firstn app combine map fst snd].
  rewrite !sum_cons, sum_nil, cross_swap. ideal_ops.
  rewrite (add_comm (lat q) (lat p)), (add_comm (lng q) (lng p)).
  rewrite !mul_neg_r.
  rewrite !(add_comm _ (Fin 0)), !add_0_l.
  rewrite !(add_comm (Ideal.neg _) _).
  set (a := cross (q, p)).
  assert (Harea := add_neg_self a).
  assert (Hlat := add_neg_self (Ideal.mul (Ideal.add (lat p) (lat q)) a)).
  assert (Hlng := add_neg_self (Ideal.mul (Ideal.add (lng p) (lng q)) a)).
  apply (zero_or_nan_mul_fin _ (Q2R 0.5)) in Harea as [Harea _].
  apply (zero_or_nan_mul_fin _ (Q2R 6)) in Harea as [_ Harea].
  now rewrite (zero_or_nan_div _ _ Hlat Harea), (zero_or_nan_div _ _ Hlng Harea).
Qed.

Lemma centroid_zero_area (polygon : list (PolygonPoint ideal)) :
  (2 <= List.length polygon)%nat ->
  signed_area polygon = Fin 0 ->
  exists c, calculatePolygonCentroid polygon = Ok c /\
            Ideal.finite (lat c) = false /\ Ideal.finite (lng c) = false.
Proof.
  intros Hlen Harea. rewrite centroid_sums by assumption.
  eexists; split; [reflexivity|]. cbn [lat lng].
  unfold signed_area in Harea. ideal_ops.
  destruct (sum (map cross (cyclic_pairs polygon))) as [a|[]|];
    try discriminate.
  - simpl in Harea. injection Harea as Ha.
    assert (Hz : (Q2R 6 * (a * Q2R 0.5) = 0)%R).
    { unfold Q2R in *; simpl in *; lra. }
    cbn [Ideal.mul]. now rewrite !div_zero_not_finite.
  - simpl in Harea. unfold Ideal.scale_inf in Harea.
    destruct (Req_dec_T (Q2R 0.5) 0); discriminate.
  - simpl in Harea. unfold Ideal.scale_inf in Harea.
    destruct (Req_dec_T (Q2R 0.5) 0); discriminate.
Qed.

(** A sum of finite terms that are all zero. *)
Lemma sum_zero (terms : list ideal) :
  Forall (fun t => exists r, t = Fin r /\ r = 0%R) terms ->
  exists r, sum terms = Fin r /\ r = 0%R.
Proof.
  induction 1 as [|t terms (r & -> & Hr) _ (s & IH & Hs)].
  - exists 0%R. split; [apply sum_nil | reflexivity].
  - rewrite sum_cons, IH. exists (r + s)%R. split; [reflexivity | lra].
Qed.

Lemma cyclic_pairs_repeat (p : PolygonPoint ideal) (n : nat) :
  cyclic_pairs (repeat p n) = repeat (p, p) n.
Proof.
  destruct n as [|n]; [reflexivity|].
  cbn [repeat]. rewrite cyclic_pairs_chain.
  induction n as [|n IH]; [reflexivity|].
  change (chain (p :: repeat p (S n)) p)
    with ((p, p) :: chain (p :: repeat p n) p).
  now rewrite IH.
Qed.

Lemma centroid_repeated_point (la lo : R) (n : nat) :
  (2 <= n)%nat ->
  calculatePolygonCentroid (repeat {| lat := Fin la; lng := Fin lo |} n) =
  Ok {| lat := NotANumber; lng := NotANumber |}.
Proof.
  intros Hn. rewrite centroid_sums by (rewrite repeat_length; lia).
  rewrite cyclic_pairs_repeat, !map_repeat.
  cbn [fst snd lat lng].
  match goal with |- context [sum (repeat (cross ?pp) n)] =>
    destruct (sum_zero (repeat (cross pp) n)) as (a & -> & ->) end.
  { apply Forall_forall. intros t Ht. apply repeat_spec in Ht as ->.
    eexists; split; [reflexivity | lra]. }
  match goal with |- context [sum (repeat ?t n)] =>
    destruct (sum_zero (repeat t n)) as (b & -> & ->) end.
  { apply Forall_forall. intros t Ht. apply repeat_spec in Ht as ->.
    eexists; split; [reflexivity | lra]. }
  match goal with |- context [sum (repeat ?t n)] =>
    destruct (sum_zero (repeat t n)) as (c & -> & ->) end.
  { apply Forall_forall. intros t Ht. apply repeat_spec in Ht as ->.
    eexists; split; [reflexivity | lra]. }
  ideal_ops. cbn [Ideal.mul].
  rewrite zero_or_nan_div; [reflexivity | now left |].
  left. f_equal. unfold Q2R; simpl; lra.
Qed.

End CentroidFacts.

(** ** The distance in exact arithmetic *)

Module DistanceFacts.

Import IdealFacts CentroidFacts.
Local Open Scope R_scope.

(** The literals of the source as real numbers. *)
Ltac literals :=
  unfold Q2R in *; cbn [Qnum Qden] in *;
  rewrite ?Rinv_1, ?Rmult_1_r in *.

Lemma distance_symmetric (a b : GeographicCoordinates ideal) :
  calculateDistance a b = calculateDistance b a.
Proof.
  unfold calculateDistance. ideal_ops.
  rewrite (sub_antisym (lat a) (lat b)), (sub_antisym (lng a) (lng b)).
  rewrite !mul_neg_l, !div_neg_l, !trig_sin_neg.
  repeat (rewrite mul_neg_l || rewrite mul_neg_r || rewrite neg_neg).
  now rewrite (mul_comm (Ideal.trig cos (Ideal.div (Ideal.mul (lat b) _) _))).
Qed.

(** The quantity under the square roots lies between 0 and 1. *)
Lemma hav_bounds (p1 p2 dl : R) :
  0 <= sin ((p2 - p1) / 2) * sin ((p2 - p1) / 2)
       + cos p1 * cos p2 * sin (dl / 2) * sin (dl / 2) <= 1.
Proof.
  pose proof (SIN_bound (dl / 2)) as Ht.
  pose proof (SIN_bound ((p2 - p1) / 2)) as Hs.
  pose proof (COS_bound (p1 + p2)) as Hplus.
  pose proof (COS_bound (p2 - p1)) as Hminus.
  rewrite cos_plus in Hplus. rewrite cos_minus in Hminus.
  pose proof (cos_2a_sin ((p2 - p1) / 2)) as Hdouble.
  replace (2 * ((p2 - p1) / 2)) with (p2 - p1) in Hdouble by lra.
  rewrite cos_minus in Hdouble.
  set (s := sin ((p2 - p1) / 2)) in *. set (t := sin (dl / 2)) in *.
  set (c1 := cos p1) in *. set (c2 := cos p2) in *.
  set (n1 := sin p1) in *. set (n2 := sin p2) in *.
  assert (Htt : 0 <= t * t <= 1) by nra.
  assert (HA : 0 <= s * s <= 1) by nra.
  assert (HB : 0 <= s * s + c1 * c2 <= 1) by nra.
  replace (s * s + c1 * c2 * t * t)
    with (s * s + (t * t) * ((s * s + c1 * c2) - s * s)) by ring.
  nra.
Qed.

Lemma atan2R_asin (h : R) :
  0 <= h <= 1 ->
  Ideal.atan2R (R_sqrt.sqrt h) (R_sqrt.sqrt (1 - h)) = asin (R_sqrt.sqrt h).
Proof.
  intros [H0 H1]. unfold Ideal.atan2R.
  destruct (Req_dec_T h 1) as [-> | Hne].
  - replace (1 - 1) with 0 by lra. rewrite sqrt_0, sqrt_1.
    destruct (Rlt_dec 0 0); [lra|]. destruct (Rlt_dec 0 1); [|lra].
    unfold asin. destruct (Rle_dec 1 (-1)); [lra|].
    destruct (Rle_dec 1 1); [reflexivity | lra].
  - assert (Hpos : 0 < R_sqrt.sqrt (1 - h)) by (apply sqrt_lt_R0; lra).
    destruct (Rlt_dec 0 (R_sqrt.sqrt (1 - h))); [|lra].
    assert (Hlt : R_sqrt.sqrt h < 1).
    { rewrite <- sqrt_1. apply sqrt_lt_1_alt. lra. }
    pose proof (sqrt_pos h) as Hge.
    unfold asin. destruct (Rle_dec (R_sqrt.sqrt h) (-1)); [lra|].
    destruct (Rle_dec 1 (R_sqrt.sqrt h)); [lra|].
    now rewrite Rsqr_sqrt by assumption.
Qed.

(** On finite coordinates the function computes the Haversine distance. *)
Lemma distance_haversine (lat1 lng1 lat2 lng2 : R) :
  calculateDistance {| lat := Fin lat1; lng := Fin lng1 |}
                    {| lat := Fin lat2; lng := Fin lng2 |} =
  Fin (haversine lat1 lng1 lat2 lng2).
Proof.
  unfold calculateDistance, haversine. ideal_ops. cbn [lat lng].
  literals.
  cbn [Ideal.sub Ideal.neg Ideal.add Ideal.mul].
  rewrite !div_fin by lra.
  cbn [Ideal.trig Ideal.mul Ideal.add Ideal.sub Ideal.neg].
  replace ((lat2 + - lat1) * PI / 180) with ((lat2 - lat1) * PI / 180) by lra.
  replace ((lng2 + - lng1) * PI / 180) with ((lng2 - lng1) * PI / 180) by lra.
  set (p1 := lat1 * PI / 180). set (p2 := lat2 * PI / 180).
  replace ((lat2 - lat1) * PI / 180) with (p2 - p1) by (unfold p1, p2; lra).
  set (dl := (lng2 - lng1) * PI / 180).
  pose proof (hav_bounds p1 p2 dl) as Hh.
  set (h := sin ((p2 - p1) / 2) * sin ((p2 - p1) / 2)
            + cos p1 * cos p2 * sin (dl / 2) * sin (dl / 2)) in *.
  replace ((sin ((p2 - p1) / 2))² + cos p1 * cos p2 * (sin (dl / 2))²)
    with h by (unfold h, Rsqr; ring).
  rewrite !sqrt_fin by lra.
  cbn [Ideal.atan2 Ideal.mul].
  replace (1 + - h) with (1 - h) by lra.
  rewrite atan2R_asin by assumption.
  f_equal. ring.
Qed.

Lemma haversine_self (la lo : R) : haversine la lo la lo = 0.
Proof.
  unfold haversine.
  replace ((la - la) * PI / 180 / 2) with 0 by lra.
  replace ((lo - lo) * PI / 180 / 2) with 0 by lra.
  rewrite sin_0. unfold Rsqr.
  replace (0 * 0 + cos (la * PI / 180) * cos (la * PI / 180) * (0 * 0))
    with 0 by ring.
  rewrite sqrt_0, asin_0. ring.
Qed.

End DistanceFacts.

(** ** The validators *)

Module ValidatorFacts.

Import IdealFacts CentroidFacts.

Lemma span_all_digits (ds : string) :
  all_digits ds = true -> span_digits ds = (ds, "").
Proof.
  induction ds as [|c ds IH]; simpl; [reflexivity|].
  intros Hds. apply andb_true_iff in Hds as [Hc Hds].
  now rewrite Hc, (IH Hds).
Qed.

(** [parseInt] on a capture: the number its digits spell. *)
Lemma parseInt_digits {num : Type} `{JsNumber num} (ds : string) :
  ds <> "" -> all_digits ds = true ->
  parseInt ds = lit (inject_Z (digits_value 0 ds)).
Proof.
  intros Hne Hds. unfold parseInt. rewrite (span_all_digits ds Hds).
  destruct ds; [congruence | reflexivity].
Qed.

(** The anchored pattern matches the designators, and captures the
    digits. *)
Lemma zone_match_anchored_Some (s ds : string) :
  zone_match_anchored s = Some ds <->
  exists l, s = ds ++ String l "" /\
            (String.length ds = 1%nat \/ String.length ds = 2%nat) /\
            all_digits ds = true /\ isNS l = true.
Proof.
  split.
  - destruct s as [|c1 [|c2 [|c3 [|c4 s]]]]; simpl; try discriminate.
    + destruct (isDigit c1) eqn:H1, (isNS c2) eqn:H2; try discriminate.
      intros [= <-]. exists c2. simpl. rewrite H1. auto.
    + destruct (isDigit c1) eqn:H1, (isDigit c2) eqn:H2, (isNS c3) eqn:H3;
        try discriminate.
      intros [= <-]. exists c3. simpl. rewrite H1, H2. auto.
  - intros (l & -> & Hlen & Hds & Hl).
    destruct ds as [|d1 [|d2 [|d3 ds]]]; simpl in Hlen;
      try (destruct Hlen; discriminate); simpl in *.
    + apply andb_true_iff in Hds as [-> _]. now rewrite Hl.
    + apply andb_true_iff in Hds as [-> Hds].
      apply andb_true_iff in Hds as [-> _]. now rewrite Hl.
Qed.

(** A number within bounds: finite, and between them. *)
Definition in_range (a : ideal) (lo hi : R) : Prop :=
  exists r, a = Fin r /\ (lo <= r <= hi)%R.

Lemma outside_range (a : ideal) (lo hi : Q) :
  a <> NotANumber ->
  (lt a (lit lo) || gt a (lit hi) = false <-> in_range a (Q2R lo) (Q2R hi)).
Proof.
  intros Hnan. unfold gt, in_range. ideal_ops. rewrite orb_false_iff.
  destruct a as [r|[]|]; simpl; try congruence.
  - rewrite !Rltb_false. split.
    + intros [Hlo Hhi]. exists r. repeat split; assumption.
    + intros (r' & [= <-] & Hr). exact Hr.
  - split; [intros [[=] _] | intros (r & [=] & _)].
  - split; [intros [_ [=]] | intros (r & [=] & _)].
Qed.

(** The validator on every easting and northing other than [NaN]. *)
Lemma validateUtmCoordinates_spec (easting northing : ideal) (s : string) :
  easting <> NotANumber -> northing <> NotANumber ->
  validateUtmCoordinates {| x := easting; y := northing; zone := s |} = true
  <->
  (exists zoneNumber, zone_designator s zoneNumber /\
                      (1 <= zoneNumber <= 60)%Z) /\
  in_range easting 160000 840000 /\ in_range northing 0 10000000.
Proof.
  intros Hx Hy. unfold validateUtmCoordinates. cbn [x y zone].
  pose proof (outside_range easting 160000 840000 Hx) as Hxr.
  pose proof (outside_range northing 0 10000000 Hy) as Hyr.
  replace (Q2R 160000) with 160000%R in Hxr by (unfold Q2R; simpl; lra).
  replace (Q2R 840000) with 840000%R in Hxr by (unfold Q2R; simpl; lra).
  replace (Q2R 0) with 0%R in Hyr by (unfold Q2R; simpl; lra).
  replace (Q2R 10000000) with 10000000%R in Hyr by (unfold Q2R; simpl; lra).
  destruct (zone_match_anchored s) as [ds|] eqn:Hm.
  - apply zone_match_anchored_Some in Hm as (l & -> & Hlen & Hds & Hl).
    assert (Hne : ds <> "") by (destruct ds; [simpl in Hlen; lia | discriminate]).
    rewrite (parseInt_digits ds Hne Hds).
    pose proof (outside_range (lit (inject_Z (digits_value 0 ds))) 1 60) as Hz.
    replace (Q2R 1) with 1%R in Hz by (unfold Q2R; simpl; lra).
    replace (Q2R 60) with 60%R in Hz by (unfold Q2R; simpl; lra).
    destruct (_ || _) eqn:Hzone in |- *.
    + split; [discriminate|]. intros [(z & (ds' & l' & Heq & _ & Hds' & Hl' & ->) & Hrange) _].
      assert (ds' = ds) as ->.
      { clear - Heq Hds Hds' Hl Hl'.
        pose proof (span_digits_run ds l "" Hds (isNS_not_digit l Hl)) as H1.
        pose proof (span_digits_run ds' l' "" Hds' (isNS_not_digit l' Hl')) as H2.
        rewrite Heq in H1. congruence. }
      assert (Hin : in_range (lit (inject_Z (digits_value 0 ds))) 1 60).
      { exists (IZR (digits_value 0 ds)). ideal_ops.
        rewrite Q2R_inject_Z. split; [reflexivity|].
        split; [apply (IZR_le 1) | apply (IZR_le _ 60)]; lia. }
      apply Hz in Hin; [congruence | discriminate].
    + apply Hz in Hzone as (r & Hr & Hr1); [|discriminate].
      ideal_ops. rewrite Q2R_inject_Z in Hr. injection Hr as <-.
      assert (Hzn : (1 <= digits_value 0 ds <= 60)%Z).
      { split; [apply (le_IZR 1) | apply (le_IZR _ 60)]; lra. }
      destruct (_ || _) eqn:Hxe in |- *.
      * split; [discriminate|]. intros (_ & Hin & _).
        apply Hxr in Hin. congruence.
      * destruct (_ || _) eqn:Hye in |- *.
        -- split; [discriminate|]. intros (_ & _ & Hin).
           apply Hyr in Hin. congruence.
        -- split; [|reflexivity]. intros _. repeat split.
           ++ exists (digits_value 0 ds). split; [|exact Hzn].
              exists ds, l. auto.
           ++ now apply Hxr.
           ++ now apply Hyr.
  - split; [discriminate|].
    intros [(z & (ds & l & Heq & Hlen & Hds & Hl & _) & _) _].
    assert (Hs : zone_match_anchored s = Some ds).
    { apply zone_match_anchored_Some. exists l. auto. }
    congruence.
Qed.

End ValidatorFacts.

(** ** The projections in exact arithmetic *)

Module ProjectionFacts.

Import IdealFacts CentroidFacts DistanceFacts.
Local Open Scope R_scope.

Lemma pow_fin_nat (b : R) (n : positive) :
  Ideal.pow (Fin b) (Fin (IZR (Zpos n))) = Fin (b ^ Pos.to_nat n).
Proof.
  unfold Ideal.pow.
  assert (Hn : 0 < IZR (Zpos n)) by (apply (IZR_lt 0); lia).
  destruct (Req_dec_T (IZR (Zpos n)) 0); [lra|].
  destruct (Req_dec_T b 0) as [-> | Hb].
  - destruct (Rlt_dec 0 (IZR (Zpos n))); [|lra].
    rewrite pow_i; [reflexivity | apply Pos2Nat.is_pos].
  - unfold Ideal.is_integer, Ideal.Reqb. rewrite ZfloorZ.
    destruct (Req_dec_T (IZR (Zpos n)) (IZR (Zpos n))); [reflexivity | congruence].
Qed.

Lemma pow_fin_3_2 (b : R) :
  0 < b ->
  Ideal.pow (Fin b) (Fin (15 * / 10)) = Fin (Rpower b (15 * / 10)).
Proof.
  intros Hb. unfold Ideal.pow.
  destruct (Req_dec_T (15 * / 10) 0); [lra|].
  destruct (Req_dec_T b 0); [lra|].
  assert (Hfloor : Zfloor (15 * / 10) = 1%Z) by (apply Zfloor_eq; lra).
  unfold Ideal.is_integer, Ideal.Reqb. rewrite Hfloor.
  destruct (Req_dec_T (15 * / 10) 1); [lra|].
  destruct (Rlt_dec b 0); [lra | reflexivity].
Qed.

(** Bounds on the sines in a side condition. *)
Ltac sin_bounds :=
  repeat match goal with
  | |- context [sin ?t] =>
      lazymatch goal with
      | _ : -1 <= sin t <= 1 |- _ => fail
      | _ => pose proof (SIN_bound t)
      end
  end.

Ltac side :=
  first
    [ lra
    | match goal with
      | |- R_sqrt.sqrt _ <> 0 => apply Rgt_not_eq, Rlt_gt, sqrt_lt_R0
      | |- _ => idtac
      end; sin_bounds; nra ].

(** The operations on finite values, with the side conditions of division
    and square root discharged. *)
Ltac ideal_eval :=
  repeat first
    [ progress cbn [Ideal.add Ideal.sub Ideal.neg Ideal.mul Ideal.trig
                    Ideal.floor Ideal.round]
    | rewrite pow_fin_nat
    | rewrite div_fin by side
    | rewrite sqrt_fin by side ].

Lemma geographicToUtm_series_fin (la lo : R) :
  exists E N0 : R,
    geographicToUtm_series {| lat := Fin la; lng := Fin lo |} =
    (Fin E, Fin N0).
Proof.
  unfold geographicToUtm_series, geographicToUtm_zoneNumber.
  ideal_ops. cbn [lat lng]. literals.
  ideal_eval.
  eexists. eexists. reflexivity.
Qed.

Lemma round_nearest (r : R) :
  exists z, Ideal.round (Fin r) = Fin (IZR z) /\ nearest_integer r z.
Proof.
  exists (Zfloor (r + 1 / 2)). split; [reflexivity|].
  unfold nearest_integer. pose proof (Zfloor_bound (r + 1 / 2)). lra.
Qed.

Lemma zoneNumber_fin (la lo : R) :
  geographicToUtm_zoneNumber {| lat := Fin la; lng := Fin lo |} =
  Fin (IZR (Zfloor ((lo + 180) / 6) + 1)).
Proof.
  unfold geographicToUtm_zoneNumber. ideal_ops. cbn [lng]. literals.
  ideal_eval. now rewrite plus_IZR.
Qed.

Lemma hemisphere_fin (la lo : R) :
  geographicToUtm_hemisphere {| lat := Fin la; lng := Fin lo |} =
  if Rle_dec 0 la then "N"%string else "S"%string.
Proof.
  unfold geographicToUtm_hemisphere, ge. ideal_ops. cbn [lat]. literals.
  cbn [Ideal.le]. unfold Ideal.Rleb.
  replace (0 * / 1) with 0 by lra.
  destruct (Rle_dec 0 la); reflexivity.
Qed.

(** Below 1e21 an integer is printed in decimal digits. *)
Lemma integer_toString_small (z : Z) :
  (Z.abs z < 10 ^ 21)%Z -> Ideal.integer_toString z = Ideal.string_of_Z z.
Proof.
  intros Hz. unfold Ideal.integer_toString.
  now apply Z.ltb_lt in Hz as ->.
Qed.

Lemma geographicToUtm_fin (la lo : R) :
  exists (E N0 : R) (zE zN : Z),
    geographicToUtm_series {| lat := Fin la; lng := Fin lo |} =
      (Fin E, Fin N0) /\
    geographicToUtm {| lat := Fin la; lng := Fin lo |} =
      {| x := Fin (IZR zE);
         y := Fin (IZR zN);
         zone := (Ideal.integer_toString (Zfloor ((lo + 180) / 6) + 1) ++
                  if Rle_dec 0 la then "N" else "S")%string |} /\
    nearest_integer E zE /\
    nearest_integer (if Rle_dec 0 la then N0 else N0 + 10000000) zN.
Proof.
  destruct (geographicToUtm_series_fin la lo) as (E & N0 & Hs).
  destruct (round_nearest E) as (zE & HzE & HnE).
  destruct (round_nearest (if Rle_dec 0 la then N0 else N0 + 10000000))
    as (zN & HzN & HnN).
  exists E, N0, zE, zN.
  split; [exact Hs | split; [| split; assumption]].
  unfold geographicToUtm.
  rewrite Hs, zoneNumber_fin, hemisphere_fin. ideal_ops. rewrite HzE.
  cbn [Ideal.toString]. rewrite ZfloorZ.
  destruct (Rle_dec 0 la); cbn [String.eqb Ascii.eqb Bool.eqb];
    ideal_ops; literals; cbn [Ideal.add];
    replace (100000000 * / 10) with 10000000 by lra; now rewrite HzN.
Qed.

Lemma add_fin (a b : R) : Ideal.add (Fin a) (Fin b) = Fin (a + b).
Proof. reflexivity. Qed.
Lemma sub_fin (a b : R) : Ideal.sub (Fin a) (Fin b) = Fin (a - b).
Proof. reflexivity. Qed.
Lemma mul_fin (a b : R) : Ideal.mul (Fin a) (Fin b) = Fin (a * b).
Proof. reflexivity. Qed.
Lemma trig_fin (f : R -> R) (a : R) : Ideal.trig f (Fin a) = Fin (f a).
Proof. reflexivity. Qed.

Ltac exponents :=
  repeat match goal with
  | |- context [Pos.to_nat ?p] =>
      let k := eval compute in (Pos.to_nat p) in
      change (Pos.to_nat p) with k
  end.

Ltac positive :=
  repeat first
    [ apply Rdiv_lt_0_compat | apply Rmult_lt_0_compat | apply sqrt_lt_R0
    | apply exp_pos ];
  first [ lra | sin_bounds; nra ].

Ltac unfold_reals :=
  repeat match goal with v := _ : R |- _ => progress unfold v end.

Ltac sqrt_bounds :=
  repeat match goal with
  | |- context [R_sqrt.sqrt ?u] =>
      lazymatch goal with
      | _ : 0 <= R_sqrt.sqrt u |- _ => fail
      | _ => pose proof (sqrt_pos u)
      end
  end.

Ltac cheap :=
  unfold_reals;
  first [ lra | apply PI_neq0 | assumption | sqrt_bounds; lra ].

Ltac eval_with side :=
  repeat first
    [ rewrite add_fin | rewrite sub_fin | rewrite mul_fin | rewrite trig_fin
    | rewrite pow_fin_nat; exponents
    | rewrite div_fin by side
    | rewrite sqrt_fin by side
    | rewrite pow_fin_3_2 by side ].

Ltac full :=
  unfold_reals;
  first
    [ lra | apply PI_neq0 | assumption | sqrt_bounds; lra
    | sin_bounds; nra
    | apply Rgt_not_eq, Rlt_gt; positive ].

(** The outermost [let] of the value under [P] becomes a hypothesis. *)
Ltac hoist :=
  lazymatch goal with
  | |- ?P (let v := ?t in @?b v) =>
      change (let v := t in P (b v)); intro; cbv beta
  end.

(** One [let] of the source: its value is computed, to a finite number named
    after the variable. *)
Ltac step side :=
  hoist;
  lazymatch goal with
  | v := _ : ideal |- _ =>
      let H := fresh "H" in
      eassert (H : v = Fin _)
        by (unfold v; ideal_ops; literals; eval_with side; reflexivity);
      clearbody v;
      lazymatch type of H with
      | _ = Fin ?e =>
          let r := fresh "r" in
          set (r := e) in H; subst v; rename r into v
      end
  end.

(** The scenario of the specification, easting 530478 and northing 2042873
    in zone 19N: every intermediate value is finite, the footpoint latitude
    stays below one radian, and the result is a pair of finite numbers. *)
Lemma utmToGeographic_scenario
  (P : Result (GeographicCoordinates ideal) -> Prop) :
  (forall la lo : R, P (Ok {| lat := Fin la; lng := Fin lo |})) ->
  P (utmToGeographic
       {| x := Fin 530478; y := Fin 2042873; zone := "19N" |}).
Proof.
  intros HP.
  lazy delta [utmToGeographic]. lazy beta.
  lazy beta iota delta [utmToGeographic_zone zone x y String.eqb Ascii.eqb
                        Bool.eqb orb negb bind].
  step cheap. step cheap. step cheap. step cheap.
  assert (Hn : 0 <= n <= 1 / 100).
  { pose proof (sqrt_pos (1 - e)) as H0.
    pose proof (sqrt_sqrt (1 - e)) as H1.
    set (s := R_sqrt.sqrt (1 - e)) in *.
    assert (Hs : 99 / 100 <= s <= 1) by (unfold e in *; nra).
    assert (Hn1 : n * (1 + s) = 1 - s) by (unfold n; fold s; field; lra).
    nra. }
  clearbody n.
  step cheap. step cheap. step cheap. step cheap. step cheap. step cheap.
  step cheap.
  assert (Hmu : 3 / 10 <= mu <= 4 / 10).
  { unfold mu.
    match goal with |- _ <= _ / ?d <= _ => set (den := d) end.
    assert (Hd : 6360000 <= den <= 6380000) by (unfold den, a, e; lra).
    assert (HM : 2043000 <= M <= 2044000) by (unfold M, y1, y0, k0; lra).
    assert (Hq : M / den * den = M) by (field; lra).
    set (q := M / den) in *. nra. }
  clearbody mu.
  step cheap.
  assert (Hphi : 0 < phi1Rad < 1).
  { unfold phi1Rad.
    pose proof (SIN_bound (2 * mu)). pose proof (SIN_bound (4 * mu)).
    pose proof (SIN_bound (6 * mu)).
    set (s2 := sin (2 * mu)) in *. set (s4 := sin (4 * mu)) in *.
    set (s6 := sin (6 * mu)) in *.
    replace (n ^ 3) with (n * (n * n)) by ring.
    replace (n ^ 4) with (n * n * (n * n)) by ring.
    replace (21 * n * n) with (21 * (n * n)) by ring.
    assert (Hm : 0 <= n * n <= 1 / 10000) by nra.
    set (m := n * n) in *.
    assert (Hnm : 0 <= n * m <= 1 / 10000) by nra.
    assert (Hmm : 0 <= m * m <= 1 / 10000) by nra.
    set (c1 := 3 * n / 2 - 27 * (n * m) / 32).
    set (c2 := 21 * m / 16 - 55 * (m * m) / 32).
    set (c3 := 151 * (n * m) / 96).
    assert (Hc1 : -2 / 100 <= c1 <= 2 / 100) by (unfold c1; lra).
    assert (Hc2 : -1 / 100 <= c2 <= 1 / 100) by (unfold c2; lra).
    assert (Hc3 : -1 / 100 <= c3 <= 1 / 100) by (unfold c3; lra).
    clearbody c1 c2 c3 s2 s4 s6. nra. }
  assert (Hcos : cos phi1Rad <> 0).
  { apply Rgt_not_eq, Rlt_gt, cos_gt_0; pose proof PI2_1; lra. }
  clearbody phi1Rad.
  step cheap.
  step full.
  assert (Hrho : 0 < rho1Calc) by (unfold rho1Calc, a, e, phi1; positive).
  clearbody rho1Calc.
  step full.
  assert (Hnu : 0 < nu1Calc) by (unfold nu1Calc, a, e, phi1; positive).
  clearbody nu1Calc.
  step cheap. step cheap. step full. step full. step full.
  ideal_ops. literals. eval_with cheap. apply HP.
Qed.
End ProjectionFacts.

(** ** Binary64 arithmetic *)

Module F64Facts.

Lemma Prim2SF_inj (a b : float) : Prim2SF a = Prim2SF b -> a = b.
Proof.
  intros Hab. rewrite <- (SF2Prim_Prim2SF a), <- (SF2Prim_Prim2SF b).
  now rewrite Hab.
Qed.

Definition SFzero_or_nan (t : spec_float) : Prop :=
  match t with
  | S754_zero _ | S754_nan => True
  | _ => False
  end.

Definition zero_or_nan (f : float) : Prop := SFzero_or_nan (Prim2SF f).

Definition not_finite (f : float) : bool :=
  match Prim2SF f with
  | S754_infinity _ | S754_nan => true
  | _ => false
  end.

Lemma binary_round_aux_negb (s : bool) (m e : Z) (l : location) :
  binary_round_aux prec emax (negb s) m e l =
  SFopp (binary_round_aux prec emax s m e l).
Proof.
  unfold binary_round_aux.
  destruct (shr_fexp prec emax m e l) as [mrs' e'].
  destruct (shr_fexp prec emax _ e' loc_Exact) as [mrs'' e''].
  destruct (shr_m mrs''); try reflexivity.
  destruct (Z.leb e'' (emax - prec)); reflexivity.
Qed.

Lemma binary_round_negb (s : bool) (m : positive) (e : Z) :
  binary_round prec emax (negb s) m e = SFopp (binary_round prec emax s m e).
Proof.
  unfold binary_round. destruct (shl_align m e _) as [mz ez].
  apply binary_round_aux_negb.
Qed.

Lemma SFopp_involutive (t : spec_float) : SFopp (SFopp t) = t.
Proof. destruct t as [s|s| |s m e]; simpl; now rewrite ?negb_involutive. Qed.

Lemma binary_normalize_opp (z e : Z) :
  z <> 0%Z ->
  binary_normalize prec emax (- z) e false =
  SFopp (binary_normalize prec emax z e false).
Proof.
  destruct z as [|m|m]; intros Hz; [congruence| |]; simpl.
  - apply (binary_round_negb false).
  - change true with (negb false).
    now rewrite binary_round_negb, SFopp_involutive.
Qed.

(** [y - x] is the opposite of [x - y], or both are [+0]. *)
Lemma SFsub_antisym (x y : spec_float) :
  SFsub prec emax y x = SFopp (SFsub prec emax x y) \/
  (SFsub prec emax x y = S754_zero false /\
   SFsub prec emax y x = S754_zero false).
Proof.
  destruct x as [sx|sx| |sx mx ex], y as [sy|sy| |sy my ey];
    try (destruct sx, sy; simpl; auto; fail);
    try (destruct sx; simpl; auto; fail);
    try (destruct sy; simpl; auto; fail); simpl; auto.
  rewrite (Z.min_comm ey ex).
  set (zx := cond_Zopp sx (Z.pos (fst (shl_align mx ex (Z.min ex ey))))).
  set (zy := cond_Zopp sy (Z.pos (fst (shl_align my ey (Z.min ex ey))))).
  destruct (Z.eq_dec (zx - zy) 0) as [H0 | Hne].
  - right. replace (zy - zx)%Z with 0%Z by lia. rewrite H0. auto.
  - left. replace (zy - zx)%Z with (- (zx - zy))%Z by lia.
    now apply binary_normalize_opp.
Qed.

Lemma SFmul_opp_r (x y : spec_float) :
  SFmul prec emax x (SFopp y) = SFopp (SFmul prec emax x y).
Proof.
  destruct x as [sx|sx| |sx mx ex], y as [sy|sy| |sy my ey]; simpl;
    rewrite <- ?negb_xorb_r; try reflexivity.
  apply binary_round_aux_negb.
Qed.

Lemma SFadd_comm (x y : spec_float) :
  SFadd prec emax x y = SFadd prec emax y x.
Proof.
  destruct x as [sx|sx| |sx mx ex], y as [sy|sy| |sy my ey];
    try (destruct sx, sy; reflexivity); try reflexivity.
  simpl. now rewrite (Z.min_comm ey ex), Z.add_comm.
Qed.

Lemma cond_Zopp_cancel (s : bool) (z : Z) :
  (cond_Zopp s z + cond_Zopp (negb s) z = 0)%Z.
Proof. destruct s; simpl; lia. Qed.

(** A value added to zero and then to its opposite: zero or NaN. *)
Lemma SFadd_cancel (t : spec_float) :
  SFzero_or_nan
    (SFadd prec emax (SFadd prec emax (S754_zero false) t) (SFopp t)).
Proof.
  destruct t as [[]|[]| |s m e]; simpl; auto.
  rewrite Z.min_id, cond_Zopp_cancel. exact I.
Qed.

Ltac float_ops :=
  cbn [add sub mul div lt le gt ge lit NaN Math_PI Math_sqrt Math_sin
       Math_cos Math_tan Math_floor Math_round Math_pow Math_atan2 toString
       float_number] in *.

Lemma zero_or_nan_mul_l (a b : float) :
  zero_or_nan a -> zero_or_nan (a * b)%float.
Proof.
  unfold zero_or_nan. rewrite mul_spec. unfold SF64mul.
  destruct (Prim2SF a), (Prim2SF b); simpl; tauto.
Qed.

Lemma zero_or_nan_mul_r (a b : float) :
  zero_or_nan b -> zero_or_nan (a * b)%float.
Proof.
  unfold zero_or_nan. rewrite mul_spec. unfold SF64mul.
  destruct (Prim2SF a), (Prim2SF b); simpl; tauto.
Qed.

Lemma zero_or_nan_add (a b : float) :
  zero_or_nan a -> zero_or_nan b -> zero_or_nan (a + b)%float.
Proof.
  unfold zero_or_nan. rewrite add_spec. unfold SF64add.
  destruct (Prim2SF a) as [[]|[]| |], (Prim2SF b) as [[]|[]| |]; simpl; tauto.
Qed.

Lemma zero_or_nan_div_l (a b : float) :
  zero_or_nan a -> zero_or_nan (a / b)%float.
Proof.
  unfold zero_or_nan. rewrite div_spec. unfold SF64div.
  destruct (Prim2SF a), (Prim2SF b); simpl; tauto.
Qed.

Lemma float_zero_or_nan_div (a b : float) :
  zero_or_nan a -> zero_or_nan b -> (a / b)%float = nan.
Proof.
  unfold zero_or_nan. intros Ha Hb. apply Prim2SF_inj. rewrite div_spec.
  unfold SF64div.
  destruct (Prim2SF a), (Prim2SF b); simpl in *; try reflexivity;
    contradiction.
Qed.

(** Division by a zero of either sign is never finite. *)
Lemma float_div_zero_not_finite (a z : float) :
  (exists s, Prim2SF z = S754_zero s) -> not_finite (a / z)%float = true.
Proof.
  intros [s Hz]. unfold not_finite. rewrite div_spec, Hz. unfold SF64div.
  destruct (Prim2SF a); reflexivity.
Qed.

Lemma float_add_comm (a b : float) : (a + b = b + a)%float.
Proof. apply Prim2SF_inj. rewrite !add_spec. apply SFadd_comm. Qed.

(** The two cross terms of a two-point polygon cancel in each of the three
    accumulators. *)
Lemma accumulate_cancel (P Q S : float) :
  zero_or_nan (0 + S * (P - Q) + S * (Q - P))%float.
Proof.
  unfold zero_or_nan. rewrite !add_spec, !mul_spec, !sub_spec.
  change (Prim2SF 0) with (S754_zero false). unfold SF64add, SF64mul, SF64sub.
  destruct (SFsub_antisym (Prim2SF P) (Prim2SF Q)) as [-> | [-> ->]].
  - rewrite SFmul_opp_r. apply SFadd_cancel.
  - destruct (Prim2SF S) as [[]|[]| |[] m e]; simpl; auto.
Qed.

Lemma area_cancel (P Q : float) :
  zero_or_nan (0 + (P - Q) + (Q - P))%float.
Proof.
  unfold zero_or_nan. rewrite !add_spec, !sub_spec.
  change (Prim2SF 0) with (S754_zero false). unfold SF64add, SF64sub.
  destruct (SFsub_antisym (Prim2SF P) (Prim2SF Q)) as [-> | [-> ->]].
  - apply SFadd_cancel.
  - exact I.
Qed.

Lemma literal_0 : F64.literal 0 = 0%float.
Proof. reflexivity. Qed.

(** In binary64, whatever the engine's [Math] functions: the centroid of
    two points is NaN, NaN. *)
Lemma float_centroid_two_points (M : F64.MathLib) (p q : PolygonPoint float) :
  @calculatePolygonCentroid float (float_number M) [p; q] =
  Ok {| lat := nan; lng := nan |}.
Proof.
  unfold calculatePolygonCentroid.
  rewrite centroid_loop by discriminate.
  rewrite pair_step_components. cbn [bind].
  unfold cyclic_pairs, cross.
  cbn [tl firstn app combine map fold_left fst snd].
  float_ops. rewrite literal_0.
  rewrite (float_add_comm (lat q) (lat p)), (float_add_comm (lng q) (lng p)).
  pose proof (area_cancel (lng p * lat q) (lng q * lat p)) as Harea.
  apply (zero_or_nan_mul_l _ (F64.literal 0.5)) in Harea.
  apply (zero_or_nan_mul_r (F64.literal 6)) in Harea.
  rewrite (float_zero_or_nan_div _ _ (accumulate_cancel _ _ (lat p + lat q)) Harea).
  rewrite (float_zero_or_nan_div _ _ (accumulate_cancel _ _ (lng p + lng q)) Harea).
  reflexivity.
Qed.


Lemma zero_or_nan_cases (f : float) :
  zero_or_nan f -> f = 0%float \/ f = (-0)%float \/ f = nan.
Proof.
  unfold zero_or_nan. intros Hf.
  destruct (Prim2SF f) as [[]| | |] eqn:E; try contradiction.
  - right; left. now apply Prim2SF_inj.
  - left. now apply Prim2SF_inj.
  - right; right. now apply Prim2SF_inj.
Qed.

Lemma zero_or_nan_sin (M : F64.MathLib) (f : float) :
  F64.ES_zero_cases M -> zero_or_nan f -> zero_or_nan (F64.sin M f).
Proof.
  intros (H0 & Hn0 & Hnan & _) Hf.
  destruct (zero_or_nan_cases f Hf) as [-> | [-> | ->]];
    [rewrite H0 | rewrite Hn0 | rewrite Hnan]; exact I.
Qed.

Lemma zero_or_nan_tan (M : F64.MathLib) (f : float) :
  F64.ES_zero_cases M -> zero_or_nan f -> zero_or_nan (F64.tan M f).
Proof.
  intros (_ & _ & _ & H0 & Hn0 & Hnan) Hf.
  destruct (zero_or_nan_cases f Hf) as [-> | [-> | ->]];
    [rewrite H0 | rewrite Hn0 | rewrite Hnan]; exact I.
Qed.

(** [+Infinity] or NaN. *)
Definition inf_or_nan (f : float) : Prop :=
  match Prim2SF f with
  | S754_infinity false | S754_nan => True
  | _ => False
  end.

Lemma inf_or_nan_sub_l (a b : float) :
  inf_or_nan a -> inf_or_nan (a - b)%float.
Proof.
  unfold inf_or_nan. rewrite sub_spec. unfold SF64sub.
  destruct (Prim2SF a) as [|[]| |], (Prim2SF b) as [|[]| |]; simpl; tauto.
Qed.

Lemma inf_or_nan_add_l (a b : float) :
  inf_or_nan a -> inf_or_nan (a + b)%float.
Proof.
  unfold inf_or_nan. rewrite add_spec. unfold SF64add.
  destruct (Prim2SF a) as [|[]| |], (Prim2SF b) as [|[]| |]; simpl; tauto.
Qed.

Lemma zero_times_inf (k i : float) :
  zero_or_nan k -> inf_or_nan i -> (k * i)%float = nan.
Proof.
  unfold zero_or_nan, inf_or_nan. intros Hk Hi. apply Prim2SF_inj.
  rewrite mul_spec. unfold SF64mul.
  destruct (Prim2SF k), (Prim2SF i) as [|[]| |]; simpl in *;
    try reflexivity; contradiction.
Qed.

Lemma sub_nan_r (a b : float) : b = nan -> (a - b)%float = nan.
Proof.
  intros ->. apply Prim2SF_inj. rewrite sub_spec. unfold SF64sub.
  change (Prim2SF nan) with S754_nan. now destruct (Prim2SF a).
Qed.

Lemma mul_nan_l (a b : float) : a = nan -> (a * b)%float = nan.
Proof.
  intros ->. apply Prim2SF_inj. rewrite mul_spec. reflexivity.
Qed.

Lemma div_nan_l (a b : float) : a = nan -> (a / b)%float = nan.
Proof.
  intros ->. apply Prim2SF_inj. rewrite div_spec. reflexivity.
Qed.

(** A finite [c] less a zero is [c]. *)
Lemma sub_zero_or_nan (c z : float) :
  (exists s m e, Prim2SF c = S754_finite s m e) ->
  zero_or_nan z -> (c - z)%float = c \/ (c - z)%float = nan.
Proof.
  intros (s & m & e & Hc) Hz. unfold zero_or_nan in Hz.
  destruct (Prim2SF z) eqn:E; try contradiction.
  - left. apply Prim2SF_inj. rewrite sub_spec, Hc, E. reflexivity.
  - right. apply Prim2SF_inj. rewrite sub_spec, Hc, E. reflexivity.
Qed.

Ltac z0 HM :=
  repeat lazymatch goal with
  | _ : zero_or_nan ?f |- zero_or_nan ?f => assumption
  | |- zero_or_nan (_ + _)%float => apply zero_or_nan_add
  | |- zero_or_nan (_ * _)%float => apply zero_or_nan_mul_r
  | |- zero_or_nan (_ / _)%float => apply zero_or_nan_div_l
  | |- zero_or_nan (F64.sin _ _) => apply (zero_or_nan_sin _ _ HM)
  | |- zero_or_nan (F64.tan _ _) => apply (zero_or_nan_tan _ _ HM)
  | |- zero_or_nan 0%float => exact I
  end.

(** Easting 1e300, northing 0, zone 19N: the footpoint latitude is zero,
    D * D overflows to +Infinity, and zero times +Infinity is NaN. *)
Lemma utmToGeographic_overflow (M : F64.MathLib) :
  F64.ES_zero_cases M ->
  exists lo,
    @utmToGeographic float (float_number M)
      {| x := 1e300%float; y := 0%float; zone := "19N" |} =
    Ok {| lat := nan; lng := lo |}.
Proof.
  intros HM.
  unfold utmToGeographic, utmToGeographic_zone.
  cbn [zone x y String.eqb Ascii.eqb Bool.eqb orb negb bind].
  float_ops.
  match goal with |- context [F64.tan M ?p] => set (phi1 := p) end.
  assert (Hphi : zero_or_nan phi1) by (unfold phi1; z0 HM).
  clearbody phi1.
  match goal with |- context [(_ / sqrt ?u)%float] => set (w := u) end.
  assert (Hw : w = 1%float \/ w = nan).
  { unfold w. apply sub_zero_or_nan; [|z0 HM].
    now exists false, 4503599627370496%positive, (-52)%Z. }
  clearbody w.
  eexists. f_equal. f_equal.
  apply div_nan_l, mul_nan_l, sub_nan_r.
  apply zero_times_inf; [z0 HM|].
  apply inf_or_nan_add_l, inf_or_nan_sub_l.
  destruct Hw as [-> | ->]; vm_compute; exact I.
Qed.

(** A zero of either sign. *)
Definition is_zero (f : float) : Prop := exists s, Prim2SF f = S754_zero s.

Lemma is_zero_scaled (a : float) :
  is_zero a -> is_zero (F64.literal 6 * (a * F64.literal 0.5))%float.
Proof.
  intros [s Ha]. unfold is_zero. rewrite !mul_spec, Ha.
  vm_compute. eauto.
Qed.

(** In binary64: when the area accumulated by the loop is a zero, both
    quotients are divisions by zero. *)
Lemma float_centroid_zero_area (M : F64.MathLib)
  (polygon : list (PolygonPoint float)) :
  (2 <= List.length polygon)%nat ->
  is_zero (fold_left (@add float (float_number M))
             (map (@cross float (float_number M)) (cyclic_pairs polygon))
             (@lit float (float_number M) 0)) ->
  exists c,
    @calculatePolygonCentroid float (float_number M) polygon = Ok c /\
    not_finite (lat c) = true /\ not_finite (lng c) = true.
Proof.
  intros Hlen Harea.
  destruct polygon as [|p [|q rest]]; simpl in Hlen; try lia.
  unfold calculatePolygonCentroid.
  rewrite centroid_loop by discriminate.
  rewrite pair_step_components. cbn [bind].
  eexists. split; [reflexivity|]. cbn [lat lng].
  apply is_zero_scaled in Harea. float_ops.
  split; now apply float_div_zero_not_finite.
Qed.

(** [Math.round] in binary64: the double of the integer nearest to the
    value [n / d] of a finite double, the upper one at a tie; a zero keeps
    the sign of the argument. *)
Lemma round_nearest_double (a : float) (s : bool) (m : positive) (e : Z) :
  Prim2SF a = S754_finite s m e ->
  exists z : Z,
    nearest_integer
      (IZR (fst (F64.scaled s m e)) / IZR (snd (F64.scaled s m e))) z /\
    (F64.round a = F64.of_Z z \/
     z = 0%Z /\ F64.round a = if s then neg_zero else zero).
Proof.
  intros Ha. unfold F64.round. rewrite Ha.
  assert (Hd : (0 < snd (F64.scaled s m e))%Z).
  { unfold F64.scaled. destruct (0 <=? e)%Z eqn:He; cbn [snd]; [lia|].
    apply Z.leb_gt in He. apply Z.pow_pos_nonneg; lia. }
  destruct (F64.scaled s m e) as [n d]. cbn [fst snd] in *.
  set (z := ((2 * n + d) / (2 * d))%Z). exists z. split.
  - unfold nearest_integer.
    assert (H2d : (0 < 2 * d)%Z) by lia.
    pose proof (Z.mul_div_le (2 * n + d) (2 * d) H2d) as H1.
    pose proof (Z.mul_succ_div_gt (2 * n + d) (2 * d) H2d) as H2.
    fold z in H1, H2. apply IZR_le in H1. apply IZR_lt in H2.
    repeat (rewrite mult_IZR in H1 || rewrite plus_IZR in H1).
    repeat (rewrite mult_IZR in H2 || rewrite plus_IZR in H2
            || rewrite succ_IZR in H2).
    assert (Hd' : (0 < IZR d)%R) by now apply IZR_lt.
    assert (Hq : (IZR n / IZR d * IZR d = IZR n)%R)
      by (field; apply Rgt_not_eq; exact Hd').
    set (q := (IZR n / IZR d)%R) in *. split.
    + apply (Rmult_le_reg_r (IZR d)); [exact Hd'|]. rewrite Hq. nra.
    + apply (Rmult_lt_reg_r (IZR d)); [exact Hd'|]. rewrite Hq. nra.
  - destruct (z =? 0)%Z eqn:Hz; [right | left; reflexivity].
    apply Z.eqb_eq in Hz. auto.
Qed.

(** The zone numbers of the globe are printed in decimal digits. *)
Lemma toString_zone_numbers :
  forallb (fun z => (F64.toString (F64.of_Z z) =? Ideal.string_of_Z z)%string)
          (map Z.of_nat (seq 1 61)) = true.
Proof. vm_compute. reflexivity. Qed.

End F64Facts.

(** ** Zone resolution *)

Section ZoneFacts.

Context {num : Type} `{JsNumber num}.

(** The result depends on the zone string only through the zone number and
    the hemisphere resolved from it. *)
Lemma utmToGeographic_same_zone (easting northing : num) (s1 s2 : string) :
  utmToGeographic_zone (num := num) s1 = utmToGeographic_zone s2 ->
  utmToGeographic {| x := easting; y := northing; zone := s1 |} =
  utmToGeographic {| x := easting; y := northing; zone := s2 |}.
Proof.
  intros Hz. unfold utmToGeographic. cbn [x y zone]. now rewrite Hz.
Qed.

Lemma utmToGeographic_zone_19N :
  utmToGeographic_zone (num := num) "19N" = Ok (lit 19, true).
Proof. reflexivity. Qed.

Lemma utmToGeographic_zone_19Q :
  utmToGeographic_zone (num := num) "19Q" = Ok (lit 19, true).
Proof. reflexivity. Qed.

Lemma utmToGeographic_zone_unparsed (s : string) :
  s <> "19Q" -> s <> "19N" -> s <> "20N" -> ~ contains_zone_pattern s ->
  utmToGeographic_zone (num := num) s = Ok (lit 19, true).
Proof.
  intros HQ HN H20 Hno. unfold utmToGeographic_zone.
  apply String.eqb_neq in HQ, HN, H20. rewrite HQ, HN, H20.
  apply zone_match_None in Hno. now rewrite Hno.
Qed.

(** No property of [null] is read: the function throws on no zone string. *)
Lemma utmToGeographic_zone_returns (s : string) :
  exists zoneNumber isNorthern,
    utmToGeographic_zone (num := num) s = Ok (zoneNumber, isNorthern).
Proof.
  unfold utmToGeographic_zone.
  destruct (_ || _); [eauto|]. destruct (s =? "20N")%string; [eauto|].
  destruct (zone_match s) as [[digits letter]|]; cbn; eauto.
Qed.

Lemma utmToGeographic_returns (utm : UTMCoordinates num) :
  exists g, utmToGeographic utm = Ok g.
Proof.
  unfold utmToGeographic.
  destruct (utmToGeographic_zone_returns (zone utm)) as (zn & b & ->).
  cbn [bind]. eauto.
Qed.

End ZoneFacts.

(** ** Enclosures of the conversions *)

Module IntervalFacts.

Import Interval.
Local Open Scope R_scope.

(** The real number a bound stands for. *)
Definition scaling : R := IZR (2 ^ 64).
Definition val (z : bigZ) : R := IZR (BigZ.to_Z z) / scaling.

Definition contains (a : interval) (x : R) : Prop :=
  val (lo a) <= x <= val (hi a).

Lemma scaling_pos : 0 < scaling.
Proof. unfold scaling. apply (IZR_lt 0). reflexivity. Qed.

Lemma val_le (a b : bigZ) : (BigZ.to_Z a <= BigZ.to_Z b)%Z -> val a <= val b.
Proof.
  intros H. unfold val. apply Rmult_le_compat_r.
  - left. apply Rinv_0_lt_compat, scaling_pos.
  - now apply IZR_le.
Qed.

Lemma val_add (a b : bigZ) : val (a + b) = val a + val b.
Proof.
  unfold val. rewrite BigZ.spec_add, plus_IZR. pose proof scaling_pos. field. lra.
Qed.

Lemma val_sub (a b : bigZ) : val (a - b) = val a - val b.
Proof.
  unfold val. rewrite BigZ.spec_sub, minus_IZR. pose proof scaling_pos. field. lra.
Qed.

Lemma val_opp (a : bigZ) : val (- a) = - val a.
Proof.
  unfold val. rewrite BigZ.spec_opp, opp_IZR. pose proof scaling_pos. field. lra.
Qed.

Lemma val_0 : val 0%bigZ = 0.
Proof.
  unfold val. change (BigZ.to_Z 0) with 0%Z. pose proof scaling_pos. field. lra.
Qed.

Lemma to_Z_bits : BigZ.to_Z bits = 64%Z.
Proof. reflexivity. Qed.

Lemma to_Z_unscale (z : bigZ) :
  BigZ.to_Z (unscale z) = (BigZ.to_Z z * 2 ^ 64)%Z.
Proof.
  unfold unscale. rewrite BigZ.spec_shiftl, to_Z_bits.
  now rewrite Z.shiftl_mul_pow2.
Qed.

Lemma to_Z_floor_scale (z : bigZ) :
  BigZ.to_Z (floor_scale z) = (BigZ.to_Z z / 2 ^ 64)%Z.
Proof.
  unfold floor_scale. rewrite BigZ.spec_shiftr, to_Z_bits.
  now rewrite Z.shiftr_div_pow2.
Qed.

Lemma val_unscale (z : bigZ) : IZR (BigZ.to_Z (unscale z)) = IZR (BigZ.to_Z z) * scaling.
Proof. rewrite to_Z_unscale, mult_IZR. reflexivity. Qed.

(** Division of integers rounds down; its opposite on the opposite rounds
    up. *)
Lemma div_below (a b : Z) : (0 < b)%Z -> IZR (a / b) <= IZR a / IZR b.
Proof.
  intros Hb. assert (Hb' : 0 < IZR b) by now apply (IZR_lt 0).
  apply Rmult_le_reg_r with (IZR b); [exact Hb'|].
  replace (IZR a / IZR b * IZR b) with (IZR a) by (field; lra).
  rewrite <- mult_IZR. apply IZR_le.
  rewrite Z.mul_comm. now apply Z.mul_div_le.
Qed.

Lemma div_above (a b : Z) : (0 < b)%Z -> IZR a / IZR b <= IZR (- (- a / b)).
Proof.
  intros Hb. pose proof (div_below (- a) b Hb) as H.
  rewrite opp_IZR, Rdiv_opp_l in H. rewrite opp_IZR. lra.
Qed.

Lemma val_floor_scale (z : bigZ) :
  val (floor_scale z) <= IZR (BigZ.to_Z z) / (scaling * scaling).
Proof.
  unfold val. rewrite to_Z_floor_scale.
  pose proof (div_below (BigZ.to_Z z) (2 ^ 64) eq_refl) as H.
  fold scaling in H. pose proof scaling_pos as Hu.
  apply Rmult_le_reg_r with scaling; [exact Hu|].
  replace (IZR (BigZ.to_Z z) / (scaling * scaling) * scaling)
    with (IZR (BigZ.to_Z z) / scaling) by (field; lra).
  unfold Rdiv at 1. rewrite Rmult_assoc, Rinv_l, Rmult_1_r by lra. exact H.
Qed.

Lemma val_ceil_scale (z : bigZ) :
  IZR (BigZ.to_Z z) / (scaling * scaling) <= val (ceil_scale z).
Proof.
  unfold ceil_scale. rewrite val_opp.
  pose proof (val_floor_scale (- z)%bigZ) as H.
  rewrite BigZ.spec_opp, opp_IZR, Rdiv_opp_l in H. unfold floor_scale in H.
  lra.
Qed.

Lemma val_mul (a b : bigZ) :
  IZR (BigZ.to_Z (a * b)) / (scaling * scaling) = val a * val b.
Proof.
  unfold val. rewrite BigZ.spec_mul, mult_IZR. pose proof scaling_pos.
  field. lra.
Qed.

Lemma val_div_below (n d : bigZ) :
  (0 < BigZ.to_Z d)%Z ->
  val (n / d) <= val n / IZR (BigZ.to_Z d).
Proof.
  intros Hd. unfold val. rewrite BigZ.spec_div.
  pose proof (div_below (BigZ.to_Z n) _ Hd) as H. pose proof scaling_pos as Hu.
  assert (Hd' : 0 < IZR (BigZ.to_Z d)) by now apply (IZR_lt 0).
  apply Rmult_le_reg_r with scaling; [exact Hu|].
  unfold Rdiv at 1. rewrite Rmult_assoc, Rinv_l, Rmult_1_r by lra.
  replace (IZR (BigZ.to_Z n) / scaling / IZR (BigZ.to_Z d) * scaling)
    with (IZR (BigZ.to_Z n) / IZR (BigZ.to_Z d)) by (field; lra).
  exact H.
Qed.

Lemma val_div_above (n d : bigZ) :
  (0 < BigZ.to_Z d)%Z ->
  val n / IZR (BigZ.to_Z d) <= val (ceil_div n d).
Proof.
  intros Hd. unfold ceil_div. rewrite val_opp.
  pose proof (val_div_below (- n)%bigZ d Hd) as H.
  rewrite val_opp, Rdiv_opp_l in H. lra.
Qed.

(** *** The operations enclose *)

Lemma contains_point (z : bigZ) : contains (point z) (val z).
Proof. unfold contains. simpl. lra. Qed.

Lemma val_of_Z (z : Z) : val (unscale (BigZ.of_Z z)) = IZR z.
Proof.
  unfold val. rewrite val_unscale, BigZ.spec_of_Z. pose proof scaling_pos.
  field. lra.
Qed.

Lemma contains_of_Z (z : Z) : contains (of_Z z) (IZR z).
Proof. unfold of_Z. rewrite <- val_of_Z. apply contains_point. Qed.

Lemma contains_of_Q (q : Q) : contains (of_Q q) (Q2R q).
Proof.
  unfold contains, of_Q, Q2R. cbn [lo hi].
  assert (Hd : (0 < BigZ.to_Z (BigZ.of_Z (Zpos (Qden q))))%Z)
    by (rewrite BigZ.spec_of_Z; reflexivity).
  pose proof (val_div_below (unscale (BigZ.of_Z (Qnum q))) _ Hd) as H1.
  pose proof (val_div_above (unscale (BigZ.of_Z (Qnum q))) _ Hd) as H2.
  rewrite val_of_Z, BigZ.spec_of_Z in *. unfold Rdiv in *. lra.
Qed.

Lemma contains_zero : contains zero 0.
Proof. unfold contains, zero. simpl. rewrite val_0. lra. Qed.

Lemma contains_add (a b : interval) (x y : R) :
  contains a x -> contains b y -> contains (iadd a b) (x + y).
Proof.
  unfold contains, iadd. cbn [lo hi]. rewrite !val_add. lra.
Qed.

Lemma contains_sub (a b : interval) (x y : R) :
  contains a x -> contains b y -> contains (isub a b) (x - y).
Proof.
  unfold contains, isub. cbn [lo hi]. rewrite !val_sub. lra.
Qed.

Lemma contains_neg (a : interval) (x : R) :
  contains a x -> contains (ineg a) (- x).
Proof.
  unfold contains, ineg. cbn [lo hi]. rewrite !val_opp. lra.
Qed.

(** A product lies between the least and the greatest of the four products
    of bounds. *)
Lemma product_below (la ha lb hb x y : R) :
  la <= x <= ha -> lb <= y <= hb ->
  la * lb <= x * y \/ la * hb <= x * y \/ ha * lb <= x * y \/ ha * hb <= x * y.
Proof.
  intros Hx Hy.
  destruct (Rle_dec 0 y), (Rle_dec 0 la), (Rle_dec 0 ha);
    first [ left; nra | right; left; nra | right; right; left; nra
          | right; right; right; nra ].
Qed.

Lemma product_above (la ha lb hb x y : R) :
  la <= x <= ha -> lb <= y <= hb ->
  x * y <= la * lb \/ x * y <= la * hb \/ x * y <= ha * lb \/ x * y <= ha * hb.
Proof.
  intros Hx Hy.
  destruct (product_below (- ha) (- la) lb hb (- x) y) as [H|[H|[H|H]]];
    lra.
Qed.

Lemma contains_mul (a b : interval) (x y : R) :
  contains a x -> contains b y -> contains (imul a b) (x * y).
Proof.
  unfold contains, imul. intros Hx Hy. cbn [lo hi].
  set (p1 := (lo a * lo b)%bigZ). set (p2 := (lo a * hi b)%bigZ).
  set (p3 := (hi a * lo b)%bigZ). set (p4 := (hi a * hi b)%bigZ).
  assert (Hq : forall p q : bigZ,
             (BigZ.to_Z p <= BigZ.to_Z q)%Z ->
             IZR (BigZ.to_Z p) / (scaling * scaling) <=
             IZR (BigZ.to_Z q) / (scaling * scaling)).
  { intros p q H. apply Rmult_le_compat_r.
    - left. apply Rinv_0_lt_compat. pose proof scaling_pos. nra.
    - now apply IZR_le. }
  split.
  - eapply Rle_trans; [apply val_floor_scale|].
    set (m := BigZ.min (BigZ.min p1 p2) (BigZ.min p3 p4)).
    assert (H1 : (BigZ.to_Z m <= BigZ.to_Z p1)%Z /\
                 (BigZ.to_Z m <= BigZ.to_Z p2)%Z /\
                 (BigZ.to_Z m <= BigZ.to_Z p3)%Z /\
                 (BigZ.to_Z m <= BigZ.to_Z p4)%Z)
      by (unfold m; rewrite !BigZ.spec_min; lia).
    destruct H1 as (H1 & H2 & H3 & H4).
    apply Hq in H1, H2, H3, H4. unfold p1, p2, p3, p4 in *.
    rewrite val_mul in *.
    destruct (product_below _ _ _ _ x y Hx Hy) as [H|[H|[H|H]]]; lra.
  - eapply Rle_trans; [|apply val_ceil_scale].
    set (m := BigZ.max (BigZ.max p1 p2) (BigZ.max p3 p4)).
    assert (H1 : (BigZ.to_Z p1 <= BigZ.to_Z m)%Z /\
                 (BigZ.to_Z p2 <= BigZ.to_Z m)%Z /\
                 (BigZ.to_Z p3 <= BigZ.to_Z m)%Z /\
                 (BigZ.to_Z p4 <= BigZ.to_Z m)%Z)
      by (unfold m; rewrite !BigZ.spec_max; lia).
    destruct H1 as (H1 & H2 & H3 & H4).
    apply Hq in H1, H2, H3, H4. unfold p1, p2, p3, p4 in *.
    rewrite val_mul in *.
    destruct (product_above _ _ _ _ x y Hx Hy) as [H|[H|[H|H]]]; lra.
Qed.

(** Quotients by a positive number. *)
Lemma fraction_le (a b c d : R) :
  0 < b -> 0 < d -> a * d <= c * b -> a / b <= c / d.
Proof.
  intros Hb Hd H.
  apply Rmult_le_reg_r with (b * d); [nra|].
  replace (a / b * (b * d)) with (a * d) by (field; lra).
  replace (c / d * (b * d)) with (c * b) by (field; lra).
  exact H.
Qed.

Lemma quotient_below (l x lb hb y : R) :
  l <= x -> 0 < lb -> lb <= y <= hb ->
  (if Rle_dec 0 l then l / hb else l / lb) <= x / y.
Proof.
  intros Hx Hlb Hy. destruct (Rle_dec 0 l); apply fraction_le; nra.
Qed.

Lemma quotient_above (h x lb hb y : R) :
  x <= h -> 0 < lb -> lb <= y <= hb ->
  x / y <= (if Rle_dec 0 h then h / lb else h / hb).
Proof.
  intros Hx Hlb Hy. destruct (Rle_dec 0 h); apply fraction_le; nra.
Qed.

Lemma val_pos (z : bigZ) : (0 < BigZ.to_Z z)%Z <-> 0 < val z.
Proof.
  unfold val. pose proof scaling_pos as Hu. split; intros H.
  - apply Rdiv_lt_0_compat; [now apply (IZR_lt 0) | exact Hu].
  - apply lt_IZR. apply Rmult_lt_reg_r with (/ scaling).
    + now apply Rinv_0_lt_compat.
    + unfold Rdiv in H. lra.
Qed.

Lemma val_nonneg (z : bigZ) : (0 <= BigZ.to_Z z)%Z <-> 0 <= val z.
Proof.
  unfold val. pose proof scaling_pos as Hu. split; intros H.
  - apply Rmult_le_pos; [now apply (IZR_le 0) | left; now apply Rinv_0_lt_compat].
  - apply le_IZR. apply Rmult_le_reg_r with (/ scaling).
    + now apply Rinv_0_lt_compat.
    + unfold Rdiv in H. lra.
Qed.

Lemma val_ratio (n d : bigZ) :
  val (unscale n) / IZR (BigZ.to_Z d) = val n / val d.
Proof.
  unfold val. rewrite val_unscale. pose proof scaling_pos as Hu.
  destruct (Req_dec (IZR (BigZ.to_Z d)) 0) as [H0|H0].
  - rewrite H0. unfold Rdiv. rewrite Rmult_0_l, !Rinv_0. ring.
  - field. lra.
Qed.

Lemma contains_div_pos (a b : interval) (x y : R) :
  (0 < BigZ.to_Z (lo b))%Z ->
  contains a x -> contains b y -> contains (div_pos a b) (x / y).
Proof.
  unfold contains, div_pos. intros Hb Hx Hy. cbn [lo hi].
  assert (Hlb : 0 < val (lo b)) by now apply val_pos.
  assert (Hhb : (0 < BigZ.to_Z (hi b))%Z) by (apply val_pos; lra).
  rewrite !BigZ.spec_leb. change (BigZ.to_Z 0) with 0%Z.
  split.
  - pose proof (quotient_below (val (lo a)) x _ _ y (proj1 Hx) Hlb Hy) as Hq.
    destruct (Z.leb_spec 0 (BigZ.to_Z (lo a))) as [H|H].
    + eapply Rle_trans; [apply val_div_below; exact Hhb|].
      rewrite val_ratio.
      destruct (Rle_dec 0 (val (lo a))) as [_|Hn]; [exact Hq|].
      exfalso. apply Hn. now apply val_nonneg.
    + eapply Rle_trans; [apply val_div_below; exact Hb|].
      rewrite val_ratio.
      destruct (Rle_dec 0 (val (lo a))) as [Hn|_]; [|exact Hq].
      apply val_nonneg in Hn. lia.
  - pose proof (quotient_above (val (hi a)) x _ _ y (proj2 Hx) Hlb Hy) as Hq.
    destruct (Z.leb_spec 0 (BigZ.to_Z (hi a))) as [H|H].
    + eapply Rle_trans; [|apply val_div_above; exact Hb].
      rewrite val_ratio.
      destruct (Rle_dec 0 (val (hi a))) as [_|Hn]; [exact Hq|].
      exfalso. apply Hn. now apply val_nonneg.
    + eapply Rle_trans; [|apply val_div_above; exact Hhb].
      rewrite val_ratio.
      destruct (Rle_dec 0 (val (hi a))) as [Hn|_]; [|exact Hq].
      apply val_nonneg in Hn. lia.
Qed.

(** [idiv] answers only for a divisor away from zero. *)
Lemma contains_div (a b q : interval) (x y : R) :
  idiv a b = Some q ->
  contains a x -> contains b y -> y <> 0 /\ contains q (x / y).
Proof.
  unfold idiv. rewrite !BigZ.spec_ltb. change (BigZ.to_Z 0) with 0%Z.
  intros Hq Hx Hy.
  destruct (Z.ltb_spec 0 (BigZ.to_Z (lo b))) as [Hb|_].
  - injection Hq as <-. split.
    + apply val_pos in Hb. destruct Hy. lra.
    + now apply contains_div_pos.
  - destruct (Z.ltb_spec (BigZ.to_Z (hi b)) 0) as [Hb|_]; [|discriminate].
    injection Hq as <-.
    assert (Hy0 : y < 0).
    { assert (H : 0 < val (- hi b)%bigZ)
        by (apply val_pos; rewrite BigZ.spec_opp; lia).
      rewrite val_opp in H. destruct Hy. lra. }
    split; [lra|].
    replace (x / y) with (- x / - y) by (field; lra).
    apply contains_div_pos.
    + cbn [ineg lo]. rewrite BigZ.spec_opp. lia.
    + now apply contains_neg.
    + now apply contains_neg.
Qed.

Lemma contains_div_Z (a : interval) (d : Z) (x : R) :
  (0 < d)%Z -> contains a x -> contains (div_Z a d) (x / IZR d).
Proof.
  unfold contains, div_Z. intros Hd Hx. cbn [lo hi].
  assert (Hd' : (0 < BigZ.to_Z (BigZ.of_Z d))%Z) by now rewrite BigZ.spec_of_Z.
  pose proof (val_div_below (lo a) _ Hd') as H1.
  pose proof (val_div_above (hi a) _ Hd') as H2.
  rewrite BigZ.spec_of_Z in *.
  assert (0 < / IZR d) by (apply Rinv_0_lt_compat; now apply (IZR_lt 0)).
  unfold Rdiv in *. split.
  - eapply Rle_trans; [exact H1|]. apply Rmult_le_compat_r; lra.
  - eapply Rle_trans; [|exact H2]. apply Rmult_le_compat_r; lra.
Qed.

Lemma contains_half (a : interval) (x : R) :
  contains a x -> contains (half a) (x / 2).
Proof.
  unfold contains, half. intros Hx. cbn [lo hi].
  assert (H : forall z : bigZ, val (BigZ.shiftr z 1) <= val z / 2).
  { intros z. unfold val. rewrite BigZ.spec_shiftr.
    change (BigZ.to_Z 1) with 1%Z. rewrite Z.shiftr_div_pow2 by lia.
    pose proof (div_below (BigZ.to_Z z) (2 ^ 1) eq_refl) as H.
    change (IZR (2 ^ 1)) with 2 in H. pose proof scaling_pos as Hu.
    apply Rmult_le_reg_r with scaling; [exact Hu|].
    unfold Rdiv at 1. rewrite Rmult_assoc, Rinv_l, Rmult_1_r by lra.
    replace (IZR (BigZ.to_Z z) / scaling / 2 * scaling)
      with (IZR (BigZ.to_Z z) / 2) by (field; lra).
    exact H. }
  split.
  - eapply Rle_trans; [apply H|]. lra.
  - rewrite val_opp. pose proof (H (- hi a)%bigZ) as H'.
    rewrite val_opp in H'. lra.
Qed.

Lemma square_le (s r : R) : 0 <= s -> 0 <= r -> s * s <= r * r -> s <= r.
Proof. intros Hs Hr H. destruct (Rle_dec s r); [assumption | nra]. Qed.

Lemma contains_sqrt (a : interval) (x : R) :
  (0 <= BigZ.to_Z (lo a))%Z ->
  contains a x -> contains (isqrt a) (R_sqrt.sqrt x).
Proof.
  unfold contains, isqrt. intros Ha Hx. cbn [lo hi].
  assert (Hl : 0 <= val (lo a)) by now apply val_nonneg.
  assert (Hh : (0 <= BigZ.to_Z (hi a))%Z) by (apply val_nonneg; lra).
  pose proof scaling_pos as Hu.
  assert (Hs : forall z : bigZ,
             (0 <= BigZ.to_Z z)%Z ->
             0 <= val (BigZ.sqrt (unscale z)) /\
             val (BigZ.sqrt (unscale z)) * val (BigZ.sqrt (unscale z)) <= val z /\
             val z < (val (BigZ.sqrt (unscale z)) + / scaling) *
                     (val (BigZ.sqrt (unscale z)) + / scaling)).
  { intros z Hz. unfold val. rewrite BigZ.spec_sqrt, to_Z_unscale.
    set (n := (BigZ.to_Z z * 2 ^ 64)%Z).
    assert (Hn : (0 <= n)%Z) by (unfold n; lia).
    pose proof (Z.sqrt_spec n Hn) as (H1 & H2).
    pose proof (Z.sqrt_nonneg n) as H0.
    apply IZR_le in H0, H1. apply IZR_lt in H2.
    rewrite mult_IZR in H1. unfold Z.succ in H2.
    rewrite mult_IZR, plus_IZR in H2.
    replace (IZR n) with (IZR (BigZ.to_Z z) * scaling) in *
      by (unfold n, scaling; now rewrite mult_IZR).
    set (s := IZR (Z.sqrt n)) in *. set (v := IZR (BigZ.to_Z z)) in *.
    assert (Hi : 0 < / scaling) by now apply Rinv_0_lt_compat.
    split; [|split].
    - unfold Rdiv. nra.
    - apply Rmult_le_reg_r with (scaling * scaling); [nra|].
      replace (s / scaling * (s / scaling) * (scaling * scaling)) with (s * s)
        by (field; lra).
      replace (v / scaling * (scaling * scaling)) with (v * scaling) by (field; lra).
      exact H1.
    - apply Rmult_lt_reg_r with (scaling * scaling); [nra|].
      replace ((s / scaling + / scaling) * (s / scaling + / scaling) * (scaling * scaling))
        with ((s + 1) * (s + 1)) by (field; lra).
      replace (v / scaling * (scaling * scaling)) with (v * scaling) by (field; lra).
      exact H2. }
  destruct (Hs (lo a) Ha) as (Hl0 & Hl1 & _).
  destruct (Hs (hi a) Hh) as (Hh0 & _ & Hh2).
  assert (Hx0 : 0 <= x) by lra.
  pose proof (sqrt_pos x) as Hr0. pose proof (sqrt_sqrt x Hx0) as Hr.
  set (r := R_sqrt.sqrt x) in *.
  rewrite val_add.
  replace (val 1%bigZ) with (/ scaling)
    by (unfold val; change (BigZ.to_Z 1) with 1%Z; unfold Rdiv; ring).
  assert (Hi : 0 < / scaling) by now apply Rinv_0_lt_compat.
  split; apply square_le; lra.
Qed.

Lemma contains_subset (a b : interval) (x : R) :
  subset a b = true -> contains a x -> contains b x.
Proof.
  unfold subset, contains. rewrite andb_true_iff, !BigZ.spec_leb.
  intros (H1 & H2) Hx. apply Z.leb_le in H1, H2.
  apply val_le in H1, H2. lra.
Qed.

Lemma contains_mag (a : interval) (x : R) :
  contains a x -> Rabs x <= val (mag a).
Proof.
  unfold contains, mag. intros Hx.
  assert (H1 : val (- lo a)%bigZ <= val (BigZ.max (- lo a) (hi a)))
    by (apply val_le; rewrite BigZ.spec_max; lia).
  assert (H2 : val (hi a) <= val (BigZ.max (- lo a) (hi a)))
    by (apply val_le; rewrite BigZ.spec_max; lia).
  rewrite val_opp in H1. apply Rabs_le. lra.
Qed.

(** *** Sine and cosine *)

Lemma sin_term_next (x : R) (i : nat) :
  sin_term x (S i) =
  - (sin_term x i * (x * x)
     / IZR (2 * (Z.of_nat i + 1) * (2 * (Z.of_nat i + 1) + 1))).
Proof.
  unfold sin_term.
  replace (2 * S i + 1)%nat with (S (S (2 * i + 1))) by lia.
  repeat (rewrite mult_IZR || rewrite plus_IZR). rewrite <- INR_IZR_INZ.
  rewrite !fact_simpl, !mult_INR, !S_INR, plus_INR, mult_INR.
  pose proof (INR_fact_neq_0 (2 * i + 1)) as Hf.
  pose proof (pos_INR i) as Hi.
  set (m := (2 * i + 1)%nat) in *. set (f := INR (fact m)) in *.
  cbn [pow INR]. field. repeat split; lra.
Qed.

Lemma sin_series_ok (a2 : interval) (x : R) :
  contains a2 (x * x) ->
  forall (n i : nat) (term sum : interval),
    contains term (sin_term x i) ->
    contains sum (sin_approx x i) ->
    contains (fst (sin_series n (Z.of_nat i + 1) a2 term sum))
             (sin_term x (i + n)) /\
    contains (snd (sin_series n (Z.of_nat i + 1) a2 term sum))
             (sin_approx x (i + n)).
Proof.
  intros Hx. induction n as [|n IH]; intros i term sum Ht Hs.
  - rewrite Nat.add_0_r. simpl. now split.
  - cbn [sin_series].
    replace (Z.of_nat i + 1 + 1)%Z with (Z.of_nat (S i) + 1)%Z by lia.
    replace (i + S n)%nat with (S i + n)%nat by lia.
    assert (Ht' : contains
                    (ineg (div_Z (imul term a2)
                            (2 * (Z.of_nat i + 1) * (2 * (Z.of_nat i + 1) + 1))))
                    (sin_term x (S i))).
    { rewrite sin_term_next. apply contains_neg, contains_div_Z; [lia|].
      now apply contains_mul. }
    apply IH; [exact Ht'|].
    unfold sin_approx in *. cbn [sum_f_R0]. now apply contains_add.
Qed.

Lemma contains_sin (a : interval) (x : R) :
  0 <= x <= 4 -> contains a x -> contains (isin a) (sin x).
Proof.
  intros Hx Ha. unfold isin.
  assert (H0 : sin_term x 0 = x) by (unfold sin_term; simpl; field).
  assert (Ht : contains a (sin_term x 0)) by now rewrite H0.
  assert (Hs : contains a (sin_approx x 0))
    by (unfold sin_approx; simpl; now rewrite H0).
  assert (Ha2 : contains (imul a a) (x * x)) by now apply contains_mul.
  pose proof (sin_series_ok _ _ Ha2 (2 * rank + 1) 0 a a Ht Hs) as H1.
  change (Z.of_nat 0 + 1)%Z with 1%Z in H1.
  destruct (sin_series (2 * rank + 1) 1 (imul a a) a a) as [term below].
  cbn [fst snd] in H1. destruct H1 as (Ht1 & Hs1).
  pose proof (sin_series_ok _ _ Ha2 1 _ term below Ht1 Hs1) as H2.
  change (Z.of_nat (0 + (2 * rank + 1)) + 1)%Z with (2 * Z.of_nat rank + 2)%Z
    in H2.
  destruct (sin_series 1 (2 * Z.of_nat rank + 2) (imul a a) term below)
    as [term' above].
  cbn [fst snd] in H2. destruct H2 as (_ & Hs2).
  pose proof (pre_sin_bound x rank (proj1 Hx) (proj2 Hx)) as Hb.
  change (0 + (2 * rank + 1))%nat with (2 * rank + 1)%nat in *.
  change (2 * rank + 1 + 1)%nat with (2 * (rank + 1))%nat in *.
  unfold contains in *. cbn [lo hi]. lra.
Qed.

Lemma contains_cos (a : interval) (x : R) :
  0 <= x <= 4 -> contains a x -> contains (icos a) (cos x).
Proof.
  intros Hx Ha. unfold icos.
  replace x with (2 * (x / 2)) by field. rewrite cos_2a_sin.
  assert (Hs : contains (isin (half a)) (sin (x / 2)))
    by (apply contains_sin; [lra | now apply contains_half]).
  apply contains_sub; [apply (contains_of_Z 1)|].
  replace (2 * sin (x / 2) * sin (x / 2))
    with (sin (x / 2) * sin (x / 2)
          + sin (x / 2) * sin (x / 2)) by ring.
  apply contains_add; now apply contains_mul.
Qed.

Lemma in_0_3_bounds (a : interval) (x : R) :
  in_0_3 a = true -> contains a x -> 0 <= x <= 3.
Proof.
  unfold in_0_3, contains. rewrite andb_true_iff, !BigZ.spec_leb.
  intros (H1 & H2) Hx. apply Z.leb_le in H1, H2.
  apply val_le in H1, H2. rewrite val_0 in H1.
  replace (val (lo (of_Z 3))) with 3 in H2; [lra|].
  unfold of_Z, point. cbn [lo]. now rewrite val_of_Z.
Qed.

Lemma contains_pi : contains Taylor.pi PI.
Proof.
  pose proof (PI_2_3_7_ineq 10) as H.
  unfold sum_f_R0, tg_alt, PI_2_3_7_tg, Ratan_seq in H. simpl in H.
  unfold contains, Taylor.pi, val, scaling. cbn [lo hi].
  change (BigZ.to_Z 57952155664616982739) with 57952155664616982739%Z.
  change (BigZ.to_Z 57952155664616982740) with 57952155664616982740%Z.
  lra.
Qed.

End IntervalFacts.

Module TaylorFacts.

Import Interval IntervalFacts Taylor.
Local Open Scope R_scope.

(** A containment, by the structure of the interval expression. *)
Ltac enclose :=
  repeat first
    [ assumption
    | apply contains_add | apply contains_sub | apply contains_mul
    | apply contains_neg | apply contains_zero ].

Ltac conjuncts := repeat match goal with |- _ /\ _ => split end.

(** *** The remainders of cosine and sine *)

Lemma Rabs_bounds (x m : R) : Rabs x <= m -> - m <= x <= m.
Proof. unfold Rabs. destruct (Rcase_abs x); lra. Qed.

Lemma cos_remainder (t m : R) :
  Rabs t <= m -> m <= 1 ->
  exists k, 1 / 2 - m * m / 24 <= k <= 1 / 2 /\ cos t = 1 - k * (t * t).
Proof.
  intros Ht Hm. apply Rabs_bounds in Ht.
  assert (Hb : 1 - t * t / 2 <= cos t <= 1 - t * t / 2 + t * t * (t * t) / 24).
  { pose proof (pre_cos_bound t 0) as H.
    unfold cos_approx, cos_term in H. simpl in H.
    assert (H' : -2 <= t) by lra. assert (H'' : t <= 2) by lra.
    specialize (H H' H''). lra. }
  assert (Hq : t * t <= m * m) by nra.
  destruct (Req_dec t 0) as [-> | H0].
  - exists (1 / 2). rewrite cos_0. split; [nra | ring].
  - assert (Hp : 0 < t * t) by nra.
    exists ((1 - cos t) / (t * t)). split; [|field; lra].
    split.
    + apply Rmult_le_reg_r with (t * t); [exact Hp|].
      replace ((1 - cos t) / (t * t) * (t * t)) with (1 - cos t)
        by (field; lra).
      nra.
    + apply Rmult_le_reg_r with (t * t); [exact Hp|].
      replace ((1 - cos t) / (t * t) * (t * t)) with (1 - cos t)
        by (field; lra).
      lra.
Qed.

Lemma sin_remainder_pos (t : R) :
  0 < t <= 1 ->
  1 / 6 - t * t / 120 <= (t - sin t) / (t * (t * t)) <= 1 / 6.
Proof.
  intros Ht.
  assert (Hb : t - t * (t * t) / 6 <= sin t
               <= t - t * (t * t) / 6 + t * (t * t) * (t * t) / 120).
  { pose proof (pre_sin_bound t 0) as H.
    unfold sin_approx, sin_term in H. simpl in H.
    assert (H' : 0 <= t) by lra. assert (H'' : t <= 4) by lra.
    specialize (H H' H''). lra. }
  assert (Hp : 0 < t * (t * t)) by (apply Rmult_lt_0_compat; nra).
  split.
  - apply Rmult_le_reg_r with (t * (t * t)); [exact Hp|].
    replace ((t - sin t) / (t * (t * t)) * (t * (t * t))) with (t - sin t)
      by (field; lra).
    nra.
  - apply Rmult_le_reg_r with (t * (t * t)); [exact Hp|].
    replace ((t - sin t) / (t * (t * t)) * (t * (t * t))) with (t - sin t)
      by (field; lra).
    lra.
Qed.

Lemma sin_remainder (t m : R) :
  Rabs t <= m -> m <= 1 ->
  exists k, 1 / 6 - m * m / 120 <= k <= 1 / 6 /\
            sin t = t - k * (t * (t * t)).
Proof.
  intros Ht Hm. apply Rabs_bounds in Ht.
  assert (Hq : t * t <= m * m) by nra.
  destruct (Rtotal_order t 0) as [Hn | [-> | Hp]].
  - pose proof (sin_remainder_pos (- t)) as H.
    rewrite sin_neg in H.
    replace ((- t - - sin t) / (- t * (- t * - t)))
      with ((t - sin t) / (t * (t * t))) in H by (field; lra).
    replace (- t * - t) with (t * t) in H by ring.
    exists ((t - sin t) / (t * (t * t))). split; [|field; lra].
    assert (H' : 0 < - t <= 1) by lra. specialize (H H'). nra.
  - exists (1 / 6). rewrite sin_0. split; [nra | ring].
  - pose proof (sin_remainder_pos t) as H.
    exists ((t - sin t) / (t * (t * t))). split; [|field; lra].
    assert (H' : 0 < t <= 1) by lra. specialize (H H'). nra.
Qed.

Lemma half_of_Q : Q2R (1 # 2) = 1 / 2.
Proof. unfold Q2R. simpl. lra. Qed.

Lemma sixth_of_Q : Q2R (1 # 6) = 1 / 6.
Proof. unfold Q2R. simpl. lra. Qed.

Lemma contains_kappa (d : interval) (t : R) :
  small d = true -> contains d t ->
  exists k1 k2 : R,
    contains (fst (kappa d)) k1 /\ contains (snd (kappa d)) k2 /\
    cos t = 1 - k1 * (t * t) /\ sin t = t - k2 * (t * (t * t)).
Proof.
  intros Hs Hd.
  pose proof (contains_mag _ _ Hd) as Hm.
  assert (H1 : val (mag d) <= 1).
  { unfold small, subset in Hs. cbn [lo hi] in Hs.
    rewrite andb_true_iff, !BigZ.spec_leb in Hs. destruct Hs as (Hl & Hh).
    apply Z.leb_le in Hl, Hh.
    replace 1 with (val (lo (of_Z 1)))
      by (unfold of_Z, point; cbn [lo]; now rewrite val_of_Z).
    apply val_le. unfold mag. rewrite BigZ.spec_max, BigZ.spec_opp.
    replace (BigZ.to_Z (lo (of_Z (-1)))) with (- BigZ.to_Z (lo (of_Z 1)))%Z
      in Hl by reflexivity.
    lia. }
  destruct (cos_remainder t _ Hm H1) as (k1 & Hk1 & Hc).
  destruct (sin_remainder t _ Hm H1) as (k2 & Hk2 & Hsn).
  exists k1, k2. unfold kappa. cbn [fst snd].
  pose proof (contains_point (mag d)) as Hp.
  pose proof (contains_mul _ _ _ _ Hp Hp) as Hp2.
  pose proof (contains_of_Q (1 # 2)) as Hh. rewrite half_of_Q in Hh.
  pose proof (contains_of_Q (1 # 6)) as H6. rewrite sixth_of_Q in H6.
  pose proof (contains_sub _ _ _ _ Hh
                (contains_div_Z _ 24 _ eq_refl Hp2)) as Hl1.
  pose proof (contains_sub _ _ _ _ H6
                (contains_div_Z _ 120 _ eq_refl Hp2)) as Hl2.
  unfold contains in *. cbn [lo hi] in *.
  repeat split; try assumption; lra.
Qed.

Lemma extent_Some (r : Result (enclosure * enclosure)) (m1 m2 : bigZ) :
  Grid.extent r = Some (m1, m2) ->
  exists a b : form,
    r = Ok (Form a, Form b) /\ mag (range a) = m1 /\ mag (range b) = m2.
Proof.
  destruct r as [[[|k|a] [|l|b]]|]; cbn [Grid.extent]; intros Hm;
    try discriminate Hm.
  exists a, b. split; [reflexivity|].
  split.
  - exact (f_equal (fun o => match o with
                             | Some (u, _) => u
                             | None => m1
                             end) Hm).
  - exact (f_equal (fun o => match o with
                             | Some (_, v) => v
                             | None => m2
                             end) Hm).
Qed.

Section Point.

(** A point of the cell [K], by its offsets from the centre. *)
Variable K : cell.
Variables d1 d2 : R.
Hypothesis offset1 : contains (W1 K) d1.
Hypothesis offset2 : contains (W2 K) d2.
Hypothesis offset11 : contains (W11 K) (d1 * d1).
Hypothesis offset12 : contains (W12 K) (d1 * d2).
Hypothesis offset22 : contains (W22 K) (d2 * d2).

Definition lin (a1 a2 : R) : R := a1 * d1 + a2 * d2.
Definition quad (a11 a12 a22 : R) : R :=
  a11 * (d1 * d1) + a12 * (d1 * d2) + a22 * (d2 * d2).

Lemma contains_linear (A1 A2 : interval) (a1 a2 : R) :
  contains A1 a1 -> contains A2 a2 -> contains (linear K A1 A2) (lin a1 a2).
Proof. intros. unfold linear, lin. enclose. Qed.

Lemma contains_quadratic (A11 A12 A22 : interval) (a11 a12 a22 : R) :
  contains A11 a11 -> contains A12 a12 -> contains A22 a22 ->
  contains (quadratic K A11 A12 A22) (quad a11 a12 a22).
Proof. intros. unfold quadratic, quad. enclose. Qed.

(** The value [v] at the point is one of those the form encloses. *)
Definition models (f : form) (v : R) : Prop :=
  exists c0 a1 a2 a11 a12 a22 : R,
    contains (c f) c0 /\
    contains (g1 f) a1 /\ contains (g2 f) a2 /\
    contains (h11 f) a11 /\ contains (h12 f) a12 /\ contains (h22 f) a22 /\
    v = c0 + lin a1 a2 + quad a11 a12 a22 /\
    contains (dev f) (v - c0) /\
    contains (range f) v.

Lemma models_make (C G1 G2 H11 H12 H22 : interval)
      (c0 a1 a2 a11 a12 a22 v : R) :
  contains C c0 -> contains G1 a1 -> contains G2 a2 ->
  contains H11 a11 -> contains H12 a12 -> contains H22 a22 ->
  v = c0 + lin a1 a2 + quad a11 a12 a22 ->
  models (make K C G1 G2 H11 H12 H22) v.
Proof.
  intros Hc Hg1 Hg2 Hh11 Hh12 Hh22 Hv.
  exists c0, a1, a2, a11, a12, a22. cbn [make c g1 g2 h11 h12 h22 dev range].
  assert (Hd : contains (iadd (linear K G1 G2) (quadratic K H11 H12 H22))
                        (v - c0)).
  { replace (v - c0) with (lin a1 a2 + quad a11 a12 a22) by (rewrite Hv; ring).
    apply contains_add;
      [now apply contains_linear | now apply contains_quadratic]. }
  conjuncts; try assumption.
  replace v with (c0 + (v - c0)) at 1 by ring. now apply contains_add.
Qed.

Ltac open_models H :=
  let c0 := fresh "c" in
  let a1 := fresh "a" in let a2 := fresh "a" in
  let a11 := fresh "b" in let a12 := fresh "b" in let a22 := fresh "b" in
  let Hc := fresh "Hc" in
  let Hg1 := fresh "Hg" in let Hg2 := fresh "Hg" in
  let Hh11 := fresh "Hh" in let Hh12 := fresh "Hh" in
  let Hh22 := fresh "Hh" in
  let Hv := fresh "Hv" in let Hd := fresh "Hd" in let Hr := fresh "Hr" in
  destruct H as (c0 & a1 & a2 & a11 & a12 & a22
                 & Hc & Hg1 & Hg2 & Hh11 & Hh12 & Hh22 & Hv & Hd & Hr).

Lemma models_add (f g : form) (x y : R) :
  models f x -> models g y -> models (add_form K f g) (x + y).
Proof.
  intros Hf Hg. open_models Hf. open_models Hg. unfold add_form.
  eapply models_make; [enclose ..|]; try eassumption.
  subst x y. unfold lin, quad. ring.
Qed.

Lemma models_shift (f : form) (k : interval) (x y : R) :
  models f x -> contains k y -> models (shift f k) (x + y).
Proof.
  intros Hf Hk. open_models Hf.
  exists (c0 + y), a, a0, b, b0, b1. cbn [shift c g1 g2 h11 h12 h22 dev range].
  conjuncts; try assumption; enclose.
  - subst x. ring.
  - now replace (x + y - (c0 + y)) with (x - c0) by ring.
Qed.

Lemma models_neg (f : form) (x : R) :
  models f x -> models (neg_form f) (- x).
Proof.
  intros Hf. open_models Hf.
  exists (- c0), (- a), (- a0), (- b), (- b0), (- b1).
  cbn [neg_form c g1 g2 h11 h12 h22 dev range].
  conjuncts; enclose.
  - subst x. unfold lin, quad. ring.
  - replace (- x - - c0) with (- (x - c0)) by ring. enclose.
Qed.

Lemma models_scale (f : form) (k : interval) (x y : R) :
  models f x -> contains k y -> models (scale f k) (x * y).
Proof.
  intros Hf Hk. open_models Hf.
  exists (c0 * y), (a * y), (a0 * y), (b * y), (b0 * y), (b1 * y).
  cbn [scale c g1 g2 h11 h12 h22 dev range].
  conjuncts; enclose.
  - subst x. unfold lin, quad. ring.
  - replace (x * y - c0 * y) with ((x - c0) * y) by ring. enclose.
Qed.

Lemma models_mul (f g : form) (x y : R) :
  models f x -> models g y -> models (mul_form K f g) (x * y).
Proof.
  intros Hf Hg. open_models Hf. open_models Hg. unfold mul_form.
  apply models_make with
    (c0 := c0 * c1)
    (a1 := c0 * a1 + c1 * a)
    (a2 := c0 * a2 + c1 * a0)
    (a11 := x * b2 + (c1 + lin a1 a2) * b + a * a1)
    (a12 := x * b3 + (c1 + lin a1 a2) * b0 + (a * a2 + a0 * a1))
    (a22 := x * b4 + (c1 + lin a1 a2) * b1 + a0 * a2);
    try (enclose; now apply contains_linear).
  rewrite Hv, Hv0. unfold lin, quad. ring.
Qed.

(** A function of the value, expanded at the centre to the second order
    with a remainder. *)
Lemma models_compose (f : form) (F0 F1 F2 : interval) (x v : R) :
  models f x ->
  (forall c0 : R,
     contains (c f) c0 -> contains (dev f) (x - c0) -> contains (range f) x ->
     exists f0 f1 f2 : R,
       contains F0 f0 /\ contains F1 f1 /\ contains F2 f2 /\
       v = f0 + f1 * (x - c0) + f2 * ((x - c0) * (x - c0))) ->
  models (compose K f F0 F1 F2) v.
Proof.
  intros Hf Hv'. open_models Hf.
  destruct (Hv' c0 Hc Hd Hr) as (f0 & f1 & f2 & H0 & H1 & H2 & Hv0).
  unfold compose.
  apply models_make with
    (c0 := f0) (a1 := f1 * a) (a2 := f1 * a0)
    (a11 := f1 * b + f2 * (a * a + (lin a a0 + (x - c0)) * b))
    (a12 := f1 * b0 + f2 * (a * a0 + a * a0 + (lin a a0 + (x - c0)) * b0))
    (a22 := f1 * b1 + f2 * (a0 * a0 + (lin a a0 + (x - c0)) * b1));
    try (enclose; now apply contains_linear).
  rewrite Hv0, Hv. unfold lin, quad. ring.
Qed.

Lemma models_inv (f g : form) (x : R) :
  inv_form K f = Some g -> models f x -> x <> 0 /\ models g (1 / x).
Proof.
  unfold inv_form. intros Hg Hf.
  destruct (idiv one (c f)) as [ic|] eqn:Hic; [|discriminate].
  destruct (idiv one (range f)) as [ir|] eqn:Hir; [|discriminate].
  injection Hg as <-.
  pose proof (contains_of_Z 1) as H1. fold one in H1.
  assert (Hx : x <> 0 /\ contains ir (1 / x)).
  { open_models Hf. exact (contains_div _ _ _ _ _ Hir H1 Hr). }
  split; [exact (proj1 Hx)|].
  apply models_compose with (x := x); [exact Hf|].
  intros c0 Hc Hd Hr.
  destruct (contains_div _ _ _ _ _ Hic H1 Hc) as (Hc0 & Hci).
  exists (1 / c0), (- (1 / c0 * (1 / c0))), (1 / c0 * (1 / c0) * (1 / x)).
  conjuncts; enclose; try apply Hx.
  field. split; [exact (proj1 Hx) | exact Hc0].
Qed.

Lemma models_sqrt (f g : form) (x : R) :
  sqrt_form K f = Some g -> models f x ->
  0 < x /\ models g (R_sqrt.sqrt x).
Proof.
  unfold sqrt_form. intros Hg Hf.
  destruct (andb _ _) eqn:Hpos; [|discriminate].
  rewrite andb_true_iff, !BigZ.spec_ltb in Hpos. destruct Hpos as (Hpc & Hpr).
  apply Z.ltb_lt in Hpc, Hpr. change (BigZ.to_Z 0) with 0%Z in *.
  set (sc := isqrt (c f)) in *. set (sr := isqrt (range f)) in *.
  destruct (idiv one (iadd sc sc)) as [f1|] eqn:Hf1; [|discriminate].
  destruct (idiv one (imul (iadd sc sc) (imul (iadd sc sr) (iadd sc sr))))
    as [f2|] eqn:Hf2; [|discriminate].
  injection Hg as <-.
  pose proof (contains_of_Z 1) as H1. fold one in H1.
  assert (Hx : 0 < x /\ contains sr (R_sqrt.sqrt x)).
  { open_models Hf. split.
    - apply val_pos in Hpr. destruct Hr. lra.
    - apply contains_sqrt; [lia | exact Hr]. }
  split; [exact (proj1 Hx)|].
  apply models_compose with (x := x); [exact Hf|].
  intros c0 Hc Hd Hr.
  assert (Hc0 : 0 < c0) by (apply val_pos in Hpc; destruct Hc; lra).
  assert (Hsc : contains sc (R_sqrt.sqrt c0))
    by (apply contains_sqrt; [lia | exact Hc]).
  pose proof (sqrt_lt_R0 c0 Hc0) as Hs. pose proof (sqrt_lt_R0 x (proj1 Hx)) as Hr'.
  pose proof (sqrt_sqrt c0 (Rlt_le _ _ Hc0)) as Hss.
  pose proof (sqrt_sqrt x (Rlt_le _ _ (proj1 Hx))) as Hrr.
  set (s := R_sqrt.sqrt c0) in *. set (r := R_sqrt.sqrt x) in *.
  assert (Hd1 : contains (iadd sc sc) (s + s)) by enclose.
  assert (Hd2 : contains (imul (iadd sc sc) (imul (iadd sc sr) (iadd sc sr)))
                         ((s + s) * ((s + r) * (s + r))))
    by (enclose; apply Hx).
  destruct (contains_div _ _ _ _ _ Hf1 H1 Hd1) as (_ & Hq1).
  destruct (contains_div _ _ _ _ _ Hf2 H1 Hd2) as (_ & Hq2).
  exists s, (1 / (s + s)), (- (1 / ((s + s) * ((s + r) * (s + r))))).
  conjuncts; enclose.
  rewrite <- Hss, <- Hrr. field. split; lra.
Qed.

Lemma models_sin (f g : form) (x : R) :
  sin_form K f = Some g -> models f x -> models g (sin x).
Proof.
  unfold sin_form. intros Hg Hf.
  destruct (andb _ _) eqn:Hok; [|discriminate].
  rewrite andb_true_iff in Hok. destruct Hok as (H03 & Hsm).
  destruct (kappa (dev f)) as [k1 k2] eqn:Hk. injection Hg as <-.
  apply models_compose with (x := x); [exact Hf|].
  intros c0 Hc Hd Hr.
  pose proof (in_0_3_bounds _ _ H03 Hc) as Hc0.
  destruct (contains_kappa _ _ Hsm Hd) as (q1 & q2 & Hq1 & Hq2 & Hcos & Hsin).
  rewrite Hk in Hq1, Hq2. cbn [fst snd] in Hq1, Hq2.
  assert (Hsc : contains (isin (c f)) (sin c0))
    by (apply contains_sin; [lra | exact Hc]).
  assert (Hcc : contains (icos (c f)) (cos c0))
    by (apply contains_cos; [lra | exact Hc]).
  exists (sin c0), (cos c0),
         (- (q1 * sin c0 + (x - c0) * q2 * cos c0)).
  conjuncts; enclose.
  replace x with (c0 + (x - c0)) at 1 by ring.
  rewrite sin_plus, Hcos, Hsin. ring.
Qed.

Lemma models_cos (f g : form) (x : R) :
  cos_form K f = Some g -> models f x -> models g (cos x).
Proof.
  unfold cos_form. intros Hg Hf.
  destruct (andb _ _) eqn:Hok; [|discriminate].
  rewrite andb_true_iff in Hok. destruct Hok as (H03 & Hsm).
  destruct (kappa (dev f)) as [k1 k2] eqn:Hk. injection Hg as <-.
  apply models_compose with (x := x); [exact Hf|].
  intros c0 Hc Hd Hr.
  pose proof (in_0_3_bounds _ _ H03 Hc) as Hc0.
  destruct (contains_kappa _ _ Hsm Hd) as (q1 & q2 & Hq1 & Hq2 & Hcos & Hsin).
  rewrite Hk in Hq1, Hq2. cbn [fst snd] in Hq1, Hq2.
  assert (Hsc : contains (isin (c f)) (sin c0))
    by (apply contains_sin; [lra | exact Hc]).
  assert (Hcc : contains (icos (c f)) (cos c0))
    by (apply contains_cos; [lra | exact Hc]).
  exists (cos c0), (- sin c0),
         (- (q1 * cos c0 - (x - c0) * q2 * sin c0)).
  conjuncts; enclose.
  replace x with (c0 + (x - c0)) at 1 by ring.
  rewrite cos_plus, Hcos, Hsin. ring.
Qed.

Lemma models_div_const (f g : form) (k : interval) (x y : R) :
  div_form_const f k = Some g -> models f x -> contains k y ->
  y <> 0 /\ models g (x / y).
Proof.
  unfold div_form_const. intros Hg Hf Hk. open_models Hf.
  destruct (idiv (c f) k) as [qc|] eqn:Ec; [|discriminate].
  destruct (idiv (g1 f) k) as [q1|] eqn:E1; [|discriminate].
  destruct (idiv (g2 f) k) as [q2|] eqn:E2; [|discriminate].
  destruct (idiv (h11 f) k) as [q11|] eqn:E11; [|discriminate].
  destruct (idiv (h12 f) k) as [q12|] eqn:E12; [|discriminate].
  destruct (idiv (h22 f) k) as [q22|] eqn:E22; [|discriminate].
  destruct (idiv (dev f) k) as [qd|] eqn:Ed; [|discriminate].
  destruct (idiv (range f) k) as [qr|] eqn:Er; [|discriminate].
  injection Hg as <-.
  destruct (contains_div _ _ _ _ _ Ec Hc Hk) as (Hy & Hqc).
  split; [exact Hy|].
  exists (c0 / y), (a / y), (a0 / y), (b / y), (b0 / y), (b1 / y).
  cbn [c g1 g2 h11 h12 h22 dev range].
  conjuncts;
    try (eapply contains_div; [eassumption | assumption | assumption]).
  - rewrite Hv. unfold lin, quad. field. exact Hy.
  - replace (x / y - c0 / y) with ((x - c0) / y) by (field; exact Hy).
    eapply contains_div; [eassumption | assumption | assumption].
Qed.

(** *** The numbers of the interface *)

(** An enclosure stands for a finite value that it contains; [Top] stands
    for any value. *)
Definition represents (e : enclosure) (v : ideal) : Prop :=
  match e with
  | Top => True
  | Const k => exists r, v = Fin r /\ contains k r
  | Form f => exists r, v = Fin r /\ models f r
  end.

Ltac finite H :=
  let r := fresh "r" in
  let Hr := fresh "Hr" in
  destruct H as (r & -> & Hr).

Lemma represents_lit (q : Q) : represents (Const (of_Q q)) (Fin (Q2R q)).
Proof. exists (Q2R q). split; [reflexivity | apply contains_of_Q]. Qed.

Lemma represents_pi : represents (Const pi) (Fin PI).
Proof. exists PI. split; [reflexivity | apply contains_pi]. Qed.

Lemma represents_add (a b : enclosure) (x y : ideal) :
  represents a x -> represents b y ->
  represents (add_enclosure K a b) (Ideal.add x y).
Proof.
  destruct a as [|k|f], b as [|l|g]; cbn [add_enclosure represents];
    intros Ha Hb; try exact I; finite Ha; finite Hb;
    exists (r + r0); (split; [reflexivity|]).
  - now apply contains_add.
  - rewrite Rplus_comm. now apply models_shift.
  - now apply models_shift.
  - now apply models_add.
Qed.

Lemma represents_neg (a : enclosure) (x : ideal) :
  represents a x -> represents (neg_enclosure a) (Ideal.neg x).
Proof.
  destruct a as [|k|f]; cbn [neg_enclosure represents]; intros Ha;
    try exact I; finite Ha; exists (- r); (split; [reflexivity|]).
  - now apply contains_neg.
  - now apply models_neg.
Qed.

Lemma represents_sub (a b : enclosure) (x y : ideal) :
  represents a x -> represents b y ->
  represents (sub_enclosure K a b) (Ideal.sub x y).
Proof.
  intros Ha Hb. unfold sub_enclosure, Ideal.sub.
  apply represents_add; [exact Ha | now apply represents_neg].
Qed.

Lemma represents_mul (a b : enclosure) (x y : ideal) :
  represents a x -> represents b y ->
  represents (mul_enclosure K a b) (Ideal.mul x y).
Proof.
  destruct a as [|k|f], b as [|l|g]; cbn [mul_enclosure represents];
    intros Ha Hb; try exact I; finite Ha; finite Hb;
    exists (r * r0); (split; [reflexivity|]).
  - now apply contains_mul.
  - rewrite Rmult_comm. now apply models_scale.
  - now apply models_scale.
  - now apply models_mul.
Qed.

Lemma represents_div (a b : enclosure) (x y : ideal) :
  represents a x -> represents b y ->
  represents (div_enclosure K a b) (Ideal.div x y).
Proof.
  destruct a as [|k|f], b as [|l|g];
    cbn [div_enclosure mul_enclosure inv_enclosure represents];
    intros Ha Hb; try exact I; finite Ha; finite Hb.
  - destruct (idiv k l) as [q|] eqn:Hq; [|exact I].
    destruct (contains_div _ _ _ _ _ Hq Hr Hr0) as (H0 & Hc).
    exists (r / r0). split; [now apply IdealFacts.div_fin | exact Hc].
  - destruct (inv_form K g) as [h|] eqn:Hh; [|exact I].
    destruct (models_inv _ _ _ Hh Hr0) as (H0 & Hm).
    exists (r / r0). split; [now apply IdealFacts.div_fin|].
    replace (r / r0) with (1 / r0 * r) by (field; exact H0).
    now apply models_scale.
  - destruct (div_form_const f l) as [h|] eqn:Hh; [|exact I].
    destruct (models_div_const _ _ _ _ _ Hh Hr Hr0) as (H0 & Hm).
    exists (r / r0). split; [now apply IdealFacts.div_fin | exact Hm].
  - destruct (inv_form K g) as [h|] eqn:Hh; [|exact I].
    destruct (models_inv _ _ _ Hh Hr0) as (H0 & Hm).
    exists (r / r0). split; [now apply IdealFacts.div_fin|].
    replace (r / r0) with (r * (1 / r0)) by (field; exact H0).
    now apply models_mul.
Qed.

Lemma represents_sqrt (a : enclosure) (x : ideal) :
  represents a x -> represents (sqrt_enclosure K a) (Ideal.sqrt x).
Proof.
  destruct a as [|k|f]; cbn [sqrt_enclosure represents]; intros Ha;
    try exact I; finite Ha.
  - rewrite BigZ.spec_leb. change (BigZ.to_Z 0) with 0%Z.
    destruct (Z.leb_spec 0 (BigZ.to_Z (lo k))) as [H0|_]; [|exact I].
    assert (0 <= r) by (apply val_nonneg in H0; destruct Hr; lra).
    exists (R_sqrt.sqrt r).
    split; [now apply IdealFacts.sqrt_fin | now apply contains_sqrt].
  - destruct (sqrt_form K f) as [h|] eqn:Hh; [|exact I].
    destruct (models_sqrt _ _ _ Hh Hr) as (H0 & Hm).
    exists (R_sqrt.sqrt r).
    split; [apply IdealFacts.sqrt_fin; lra | exact Hm].
Qed.

Lemma represents_sin (a : enclosure) (x : ideal) :
  represents a x ->
  represents (sin_enclosure K a) (Ideal.trig sin x).
Proof.
  destruct a as [|k|f]; cbn [sin_enclosure represents]; intros Ha;
    try exact I; finite Ha.
  - destruct (in_0_3 k) eqn:H03; [|exact I].
    pose proof (in_0_3_bounds _ _ H03 Hr).
    exists (sin r).
    split; [reflexivity | apply contains_sin; [lra | exact Hr]].
  - destruct (sin_form K f) as [h|] eqn:Hh; [|exact I].
    exists (sin r).
    split; [reflexivity | now apply (models_sin f)].
Qed.

Lemma represents_cos (a : enclosure) (x : ideal) :
  represents a x ->
  represents (cos_enclosure K a) (Ideal.trig cos x).
Proof.
  destruct a as [|k|f]; cbn [cos_enclosure represents]; intros Ha;
    try exact I; finite Ha.
  - destruct (in_0_3 k) eqn:H03; [|exact I].
    pose proof (in_0_3_bounds _ _ H03 Hr).
    exists (cos r).
    split; [reflexivity | apply contains_cos; [lra | exact Hr]].
  - destruct (cos_form K f) as [h|] eqn:Hh; [|exact I].
    exists (cos r).
    split; [reflexivity | now apply (models_cos f)].
Qed.

(** Only [Top] stands for a value that is not finite. *)
Lemma represents_finite (e : enclosure) (v : ideal) :
  represents e v -> Ideal.finite v = false -> e = Top.
Proof.
  destruct e as [|k|f]; [reflexivity | |]; intros Hv Hn; finite Hv;
    discriminate.
Qed.

Lemma represents_tan (a : enclosure) (x : ideal) :
  represents a x ->
  represents (tan_enclosure K a) (Ideal.trig tan x).
Proof.
  intros Ha. unfold tan_enclosure.
  pose proof (represents_div _ _ _ _ (represents_sin _ _ Ha)
                (represents_cos _ _ Ha)) as H.
  destruct x as [r| |]; cbn [Ideal.trig] in *.
  - destruct (Req_dec_T (cos r) 0) as [H0|H0].
    + rewrite (represents_finite _ _ H); [exact I|].
      rewrite H0. cbn [Ideal.div].
      destruct (Req_dec_T 0 0); [|contradiction].
      now destruct (Req_dec_T (sin r) 0).
    + rewrite IdealFacts.div_fin in H by exact H0. exact H.
  - now rewrite (represents_finite _ _ H).
  - now rewrite (represents_finite _ _ H).
Qed.

Lemma contains_half_up (r : R) :
  contains half_up (IZR (Zfloor (r + 1 / 2)) - r).
Proof.
  pose proof (Zfloor_bound (r + 1 / 2)) as Hf.
  pose proof (contains_of_Q (-1 # 2)) as Hl.
  pose proof (contains_of_Q (1 # 2)) as Hh.
  replace (Q2R (-1 # 2)) with (- (1 / 2)) in Hl
    by (unfold Q2R; simpl; lra).
  rewrite half_of_Q in Hh.
  unfold contains, half_up in *. cbn [lo hi]. lra.
Qed.

Lemma represents_round (a : enclosure) (x : ideal) :
  represents a x -> represents (round_enclosure a) (Ideal.round x).
Proof.
  destruct a as [|k|f]; cbn [round_enclosure represents]; intros Ha;
    try exact I; finite Ha; cbn [Ideal.round];
    exists (r + (IZR (Zfloor (r + 1 / 2)) - r));
    (split; [f_equal; ring|]).
  - apply contains_add; [exact Hr | apply contains_half_up].
  - apply models_shift; [exact Hr | apply contains_half_up].
Qed.

Lemma represents_floor_interval (k : interval) (r : R) :
  contains k r -> represents (floor_interval k) (Fin (IZR (Zfloor r))).
Proof.
  intros Hk. unfold floor_interval.
  set (z := BigZ.shiftr (lo k) bits).
  rewrite BigZ.spec_ltb.
  destruct (Z.ltb_spec (BigZ.to_Z (hi k)) (BigZ.to_Z (unscale (z + 1))))
    as [Hh|_]; [|exact I].
  assert (Hz : IZR (BigZ.to_Z z) <= val (lo k)).
  { pose proof (div_below (BigZ.to_Z (lo k)) (2 ^ 64) eq_refl) as H.
    unfold z. fold (floor_scale (lo k)). rewrite to_Z_floor_scale.
    exact H. }
  assert (Hz1 : val (hi k) < IZR (BigZ.to_Z z) + 1).
  { apply IZR_lt in Hh. rewrite val_unscale in Hh.
    rewrite BigZ.spec_add, plus_IZR in Hh. change (BigZ.to_Z 1) with 1%Z in Hh.
    pose proof scaling_pos as Hu. unfold val.
    apply Rmult_lt_reg_r with scaling; [exact Hu|].
    unfold Rdiv. rewrite Rmult_assoc, Rinv_l, Rmult_1_r by lra. exact Hh. }
  assert (Hfl : Zfloor r = BigZ.to_Z z)
    by (apply Zfloor_eq; destruct Hk; lra).
  exists (IZR (Zfloor r)). split; [reflexivity|].
  rewrite Hfl. unfold contains, point. cbn [lo hi].
  unfold val. rewrite val_unscale. pose proof scaling_pos as Hu.
  replace (IZR (BigZ.to_Z z) * scaling / scaling) with (IZR (BigZ.to_Z z))
    by (field; lra).
  lra.
Qed.

Lemma represents_floor (a : enclosure) (x : ideal) :
  represents a x -> represents (floor_enclosure a) (Ideal.floor x).
Proof.
  destruct a as [|k|f]; cbn [floor_enclosure represents]; intros Ha;
    try exact I; finite Ha; cbn [Ideal.floor].
  - now apply represents_floor_interval.
  - apply represents_floor_interval. now open_models Hr.
Qed.

Lemma power_top (n : nat) : power K Top (S n) = Top.
Proof.
  induction n as [|n IH]; [reflexivity|].
  change (power K Top (S (S n))) with (mul_enclosure K (power K Top (S n)) Top).
  now rewrite IH.
Qed.

Lemma represents_power (a : enclosure) (b : R) (n : nat) :
  represents a (Fin b) -> represents (power K a (S n)) (Fin (b ^ S n)).
Proof.
  intros Ha. induction n as [|n IH].
  - cbn [power pow]. now rewrite Rmult_1_r.
  - change (power K a (S (S n))) with (mul_enclosure K (power K a (S n)) a).
    replace (b ^ S (S n)) with (b ^ S n * b) by (simpl; ring).
    exact (represents_mul _ _ _ _ IH Ha).
Qed.

(** [Math.pow(b, 1.5)] is [b * Math.sqrt(b)] on every finite [b]. *)
Lemma pow_three_halves (b : R) :
  Ideal.pow (Fin b) (Fin (3 / 2)) = Ideal.mul (Fin b) (Ideal.sqrt (Fin b)).
Proof.
  unfold Ideal.pow, Ideal.sqrt.
  destruct (Req_dec_T (3 / 2) 0); [lra|].
  assert (Hfloor : Zfloor (3 / 2) = 1%Z) by (apply Zfloor_eq; lra).
  unfold Ideal.is_integer, Ideal.Reqb. rewrite Hfloor.
  destruct (Req_dec_T (3 / 2) 1); [lra|].
  destruct (Req_dec_T b 0) as [-> | Hb].
  - destruct (Rlt_dec 0 (3 / 2)); [|lra].
    destruct (Rlt_dec 0 0); [lra|]. cbn [Ideal.mul]. now rewrite Rmult_0_l.
  - destruct (Rlt_dec b 0); [reflexivity|].
    cbn [Ideal.mul]. f_equal.
    assert (Hp : 0 < b) by lra.
    replace (3 / 2) with (1 + / 2) by lra.
    rewrite Rpower_plus, Rpower_1, Rpower_sqrt by exact Hp. reflexivity.
Qed.

Lemma represents_pow (a e : enclosure) (x y : ideal) :
  represents a x -> represents e y ->
  represents (pow_enclosure K a e) (Ideal.pow x y).
Proof.
  intros Ha He. destruct e as [|k|g]; cbn [pow_enclosure]; try exact I.
  finite He. rewrite BigZ.spec_eqb.
  destruct (Z.eqb_spec (BigZ.to_Z (lo k)) (BigZ.to_Z (hi k))) as [Hk|_];
    [|exact I].
  assert (Hr' : r = val (lo k)).
  { unfold contains, val in *. rewrite <- Hk in Hr. lra. }
  rewrite BigZ.spec_eqb.
  destruct (Z.eqb_spec (BigZ.to_Z (lo k)) (BigZ.to_Z (lo (of_Q (3 # 2)))))
    as [H32|_].
  - assert (Hr32 : r = 3 / 2).
    { rewrite Hr'. unfold val. rewrite H32.
      change (BigZ.to_Z (lo (of_Q (3 # 2)))) with 27670116110564327424%Z.
      unfold scaling. change (2 ^ 64)%Z with 18446744073709551616%Z. lra. }
    rewrite Hr32.
    destruct a as [|l|f]; [exact I | |]; pose proof Ha as Ha'; finite Ha';
      rewrite pow_three_halves;
      exact (represents_mul _ _ _ _ Ha (represents_sqrt _ _ Ha)).
  - set (n := BigZ.to_Z (BigZ.shiftr (lo k) bits)).
    rewrite BigZ.spec_eqb.
    destruct (Z.eqb_spec (BigZ.to_Z (lo k))
                (BigZ.to_Z (unscale (BigZ.of_Z n)))) as [Hn|_]; [|exact I].
    destruct (Z.ltb_spec 0 n) as [Hn0|_]; [|exact I].
    destruct (Z.ltb_spec n 8) as [Hn8|_]; [|exact I].
    cbn [andb].
    assert (Hrn : r = IZR n).
    { rewrite Hr'. unfold val. rewrite Hn.
      fold (val (unscale (BigZ.of_Z n))). apply val_of_Z. }
    destruct n as [|p|p]; try lia.
    rewrite Hrn. change (Z.to_nat (Z.pos p)) with (Pos.to_nat p).
    destruct (Pos2Nat.is_succ p) as (m & Hm). rewrite Hm.
    destruct a as [|l|f]; [now rewrite power_top | |];
      pose proof Ha as Ha'; finite Ha';
      rewrite ProjectionFacts.pow_fin_nat, Hm; now apply represents_power.
Qed.

(** *** The conversions *)

(** The operators of the interface, read at both instances. *)
Ltac interface :=
  cbn [lit NaN Math_PI add sub mul div Math_sqrt Math_sin Math_cos Math_tan
       Math_floor Math_round Math_pow enclosure_number ideal_number
       lat lng x y geographicToUtm_zoneNumber negb].

(** Two expressions of the same shape, one on enclosures and one on values:
    the first represents the second. *)
Ltac relate_step :=
  lazymatch goal with
  | H : represents ?a ?b |- represents ?a ?b => exact H
  | |- represents (Const (of_Q _)) _ => apply represents_lit
  | |- represents (Const pi) _ => apply represents_pi
  | |- represents (add_enclosure _ _ _) _ => apply represents_add
  | |- represents (sub_enclosure _ _ _) _ => apply represents_sub
  | |- represents (mul_enclosure _ _ _) _ => apply represents_mul
  | |- represents (div_enclosure _ _ _) _ => apply represents_div
  | |- represents (sqrt_enclosure _ _) _ => apply represents_sqrt
  | |- represents (sin_enclosure _ _) _ => apply represents_sin
  | |- represents (cos_enclosure _ _) _ => apply represents_cos
  | |- represents (tan_enclosure _ _) _ => apply represents_tan
  | |- represents (floor_enclosure _) _ => apply represents_floor
  | |- represents (round_enclosure _) _ => apply represents_round
  | |- represents (pow_enclosure _ _ _) _ => apply represents_pow
  end.

Ltac relate := interface; repeat relate_step.

Lemma related_let {A B : Type} (R : A -> B -> Prop)
      (a : enclosure) (b : ideal) (f : enclosure -> A) (g : ideal -> B) :
  represents a b ->
  (forall u v, represents u v -> R (f u) (g v)) ->
  R (let u := a in f u) (let v := b in g v).
Proof. intros Hab H. exact (H a b Hab). Qed.

(** One [let] of the source, on both sides. *)
Ltac walk :=
  lazymatch goal with
  | |- ?R ?p ?q =>
      lazymatch p with
      | let u := ?a in @?f u =>
          lazymatch q with
          | let v := ?b in @?g v =>
              apply (related_let R a b f g);
              [relate | intros ? ? ?; cbv beta]
          end
      end
  end.

Definition related_pair (p : enclosure * enclosure) (q : ideal * ideal)
  : Prop :=
  represents (fst p) (fst q) /\ represents (snd p) (snd q).

Definition related_point (p : Result (GeographicCoordinates enclosure))
           (q : Result (GeographicCoordinates ideal)) : Prop :=
  match p, q with
  | Ok g, Ok h => represents (lat g) (lat h) /\ represents (lng g) (lng h)
  | _, _ => False
  end.

Lemma geographicToUtm_series_enclosed (la lo : enclosure) (li oi : ideal) :
  represents la li -> represents lo oi ->
  related_pair
    (@geographicToUtm_series enclosure (enclosure_number K)
       {| lat := la; lng := lo |})
    (@geographicToUtm_series ideal ideal_number {| lat := li; lng := oi |}).
Proof.
  intros Hla Hlo.
  lazy delta [geographicToUtm_series]. lazy beta.
  repeat walk.
  unfold related_pair. cbn [fst snd]. split; relate.
Qed.

Lemma utmToGeographic_enclosed (ea na : enclosure) (ei ni : ideal) :
  represents ea ei -> represents na ni ->
  related_point
    (@utmToGeographic enclosure (enclosure_number K)
       {| x := ea; y := na; zone := "19N" |})
    (@utmToGeographic ideal ideal_number
       {| x := ei; y := ni; zone := "19N" |}).
Proof.
  intros He Hn.
  lazy delta [utmToGeographic]. lazy beta.
  lazy beta iota delta [utmToGeographic_zone zone String.eqb Ascii.eqb
                        Bool.eqb orb bind].
  repeat walk.
  unfold related_point. cbn [lat lng]. split; relate.
Qed.

Lemma round_trip_enclosed (la lo : enclosure) (li oi : ideal) :
  represents la li -> represents lo oi ->
  match @round_trip_error enclosure (enclosure_number K)
          {| lat := la; lng := lo |},
        @round_trip_error ideal ideal_number {| lat := li; lng := oi |} with
  | Ok p, Ok q => related_pair p q
  | _, _ => False
  end.
Proof.
  intros Hla Hlo. unfold round_trip_error.
  pose proof (geographicToUtm_series_enclosed _ _ _ _ Hla Hlo) as Hs.
  destruct (@geographicToUtm_series enclosure _ _) as [E N].
  destruct (@geographicToUtm_series ideal _ _) as [E' N'].
  destruct Hs as (HE & HN). cbn [fst snd] in HE, HN.
  pose proof (utmToGeographic_enclosed _ _ _ _ (represents_round _ _ HE)
                (represents_round _ _ HN)) as Hu.
  interface.
  destruct (@utmToGeographic enclosure _ _) as [g|];
    destruct (@utmToGeographic ideal _ _) as [h|];
    cbn [related_point bind] in *; try contradiction.
  destruct Hu as (Hlat & Hlng).
  unfold related_pair. cbn [fst snd]. split; relate.
Qed.

(** The coordinates of the point: the centre of the cell and the offset. *)
Lemma represents_latitude (centre : bigZ) :
  represents (Grid.variable K centre true) (Fin (val centre + d1)).
Proof.
  unfold Grid.variable. eexists. split; [reflexivity|].
  pose proof (contains_of_Z 1) as H1. fold one in H1.
  pose proof contains_zero as H0. pose proof (contains_point centre) as Hc.
  apply models_make with (c0 := val centre) (a1 := 1) (a2 := 0)
    (a11 := 0) (a12 := 0) (a22 := 0); try assumption.
  unfold lin, quad. ring.
Qed.

Lemma represents_longitude (centre : bigZ) :
  represents (Grid.variable K centre false) (Fin (val centre + d2)).
Proof.
  unfold Grid.variable. eexists. split; [reflexivity|].
  pose proof (contains_of_Z 1) as H1. fold one in H1.
  pose proof contains_zero as H0. pose proof (contains_point centre) as Hc.
  apply models_make with (c0 := val centre) (a1 := 0) (a2 := 1)
    (a11 := 0) (a12 := 0) (a22 := 0); try assumption.
  unfold lin, quad. ring.
Qed.

(** Where the round trip has an enclosure, it returns finite coordinates
    that differ from those of the point by what the enclosure allows. *)
Lemma round_trip_bound (c1 c2 m1 m2 : bigZ) :
  Grid.extent
    (@round_trip_error enclosure (enclosure_number K)
       {| lat := Grid.variable K c1 true; lng := Grid.variable K c2 false |})
  = Some (m1, m2) ->
  exists dla dlo : R,
    round_trip_error {| lat := Fin (val c1 + d1); lng := Fin (val c2 + d2) |}
    = Ok (Fin dla, Fin dlo) /\
    Rabs dla <= val m1 /\ Rabs dlo <= val m2.
Proof.
  intros Hm.
  destruct (extent_Some _ _ _ Hm) as (a & b & Hab & <- & <-).
  pose proof (round_trip_enclosed _ _ _ _ (represents_latitude c1)
                (represents_longitude c2)) as H.
  rewrite Hab in H.
  destruct (@round_trip_error ideal ideal_number
              {| lat := Fin (val c1 + d1); lng := Fin (val c2 + d2) |})
    as [[u v]|]; [|contradiction].
  destruct H as (Ha & Hb). cbn [fst snd represents] in Ha, Hb.
  destruct Ha as (dla & -> & Ha). destruct Hb as (dlo & -> & Hb).
  exists dla, dlo. split; [reflexivity|].
  open_models Ha. open_models Hb.
  split; now apply contains_mag.
Qed.

End Point.
End TaylorFacts.

Module GridFacts.

Import Interval IntervalFacts Taylor TaylorFacts Grid.
Local Open Scope R_scope.

Lemma cell_offsets (w1 w2 : bigZ) (d1 d2 : R) :
  Rabs d1 <= val w1 -> Rabs d2 <= val w2 ->
  contains (W1 (cell_of w1 w2)) d1 /\
  contains (W2 (cell_of w1 w2)) d2 /\
  contains (W11 (cell_of w1 w2)) (d1 * d1) /\
  contains (W12 (cell_of w1 w2)) (d1 * d2) /\
  contains (W22 (cell_of w1 w2)) (d2 * d2).
Proof.
  intros H1 H2. apply Rabs_bounds in H1, H2.
  assert (Ha : contains (mk (- w1) w1) d1)
    by (unfold contains; cbn [lo hi]; rewrite val_opp; lra).
  assert (Hb : contains (mk (- w2) w2) d2)
    by (unfold contains; cbn [lo hi]; rewrite val_opp; lra).
  pose proof (contains_mul _ _ _ _ Ha Ha) as Haa.
  pose proof (contains_mul _ _ _ _ Ha Hb) as Hab.
  pose proof (contains_mul _ _ _ _ Hb Hb) as Hbb.
  cbn [cell_of W1 W2 W11 W12 W22].
  repeat match goal with |- _ /\ _ => split end; try assumption.
  - unfold contains in *. cbn [lo hi] in *. rewrite val_0. nra.
  - unfold contains in *. cbn [lo hi] in *. rewrite val_0. nra.
Qed.

Lemma cell_bound (w1 w2 c1 c2 m1 m2 : bigZ) (la lo : R) :
  Rabs (la - val c1) <= val w1 ->
  Rabs (lo - val c2) <= val w2 ->
  extent
    (@round_trip_error enclosure (enclosure_number (cell_of w1 w2))
       {| lat := variable (cell_of w1 w2) c1 true;
          lng := variable (cell_of w1 w2) c2 false |})
  = Some (m1, m2) ->
  exists dla dlo : R,
    round_trip_error {| lat := Fin la; lng := Fin lo |} =
    Ok (Fin dla, Fin dlo) /\
    Rabs dla <= val m1 /\ Rabs dlo <= val m2.
Proof.
  intros H1 H2 Hm.
  destruct (cell_offsets _ _ _ _ H1 H2) as (O1 & O2 & O11 & O12 & O22).
  pose proof (round_trip_bound _ _ _ O1 O2 O11 O12 O22 _ _ _ _ Hm) as H.
  replace (val c1 + (la - val c1)) with la in H by ring.
  replace (val c2 + (lo - val c2)) with lo in H by ring.
  exact H.
Qed.

(** *** The cells cover the box *)

Lemma cover (first half x : R) (n : nat) :
  0 < half ->
  first <= x <= first + 2 * half * INR (S n) ->
  exists i : nat,
    (i <= n)%nat /\ Rabs (x - (first + (2 * INR i + 1) * half)) <= half.
Proof.
  intros Hh. induction n as [|n IH]; intros Hx.
  - exists 0%nat. split; [lia|]. simpl INR in *. apply Rabs_le. lra.
  - rewrite (S_INR (S n)) in Hx.
    destruct (Rle_dec x (first + 2 * half * INR (S n))) as [Hle|Hgt].
    + destruct IH as (i & Hi & Hb); [lra|]. exists i. split; [lia | exact Hb].
    + exists (S n). split; [lia|]. apply Rabs_le. lra.
Qed.

Lemma val_centre (first half : bigZ) (i : nat) :
  val (centre first half i) = val first + (2 * INR i + 1) * val half.
Proof.
  unfold centre. rewrite val_add. f_equal.
  unfold val. rewrite BigZ.spec_mul, BigZ.spec_of_Z, mult_IZR.
  rewrite plus_IZR, mult_IZR, <- INR_IZR_INZ. pose proof scaling_pos.
  field. lra.
Qed.

Lemma val_lat0 : val lat0 = 35 / 2.
Proof.
  unfold val, scaling.
  change (BigZ.to_Z lat0) with 322818021289917153280%Z.
  change (2 ^ 64)%Z with 18446744073709551616%Z. lra.
Qed.

Lemma val_lng0 : val lng0 = -72.
Proof.
  unfold val, scaling.
  change (BigZ.to_Z lng0) with (-1328165573307087716352)%Z.
  change (2 ^ 64)%Z with 18446744073709551616%Z. lra.
Qed.

Lemma val_half_height : val half_height = 5 / 64.
Proof.
  unfold val, scaling.
  change (BigZ.to_Z half_height) with 1441151880758558720%Z.
  change (2 ^ 64)%Z with 18446744073709551616%Z. lra.
Qed.

Lemma val_half_width : val half_width = 1 / 8.
Proof.
  unfold val, scaling.
  change (BigZ.to_Z half_width) with 2305843009213693952%Z.
  change (2 ^ 64)%Z with 18446744073709551616%Z. lra.
Qed.

(** Every point of the box is in one of the cells. *)
Lemma box_covered (la lo : R) :
  35 / 2 <= la <= 20 -> -72 <= lo <= -68 ->
  exists i j : nat,
    (i < cells)%nat /\ (j < cells)%nat /\
    Rabs (la - val (centre lat0 half_height i)) <= val half_height /\
    Rabs (lo - val (centre lng0 half_width j)) <= val half_width.
Proof.
  intros Hla Hlo.
  destruct (cover (35 / 2) (5 / 64) la 15) as (i & Hi & Hbi);
    [lra | simpl INR; lra |].
  destruct (cover (-72) (1 / 8) lo 15) as (j & Hj & Hbj);
    [lra | simpl INR; lra |].
  exists i, j. unfold cells.
  rewrite !val_centre, val_lat0, val_lng0, val_half_height, val_half_width.
  repeat split; try lia; assumption.
Qed.

(** *** The grid *)

Lemma forallb_grid (f : nat -> nat -> bool) (n : nat) :
  forallb (fun i => forallb (fun j => f i j) (seq 0 n)) (seq 0 n) = true ->
  forall i j : nat, (i < n)%nat -> (j < n)%nat -> f i j = true.
Proof.
  intros H i j Hi Hj. rewrite forallb_forall in H.
  assert (Hi' : In i (seq 0 n)) by (apply in_seq; lia).
  specialize (H i Hi'). rewrite forallb_forall in H.
  apply H. apply in_seq. lia.
Qed.

(** The square of a bound of the grid, in degrees. *)
Definition square_limit : R := IZR (BigZ.to_Z limit) / (scaling * scaling).

Lemma within_bound (o : option (bigZ * bigZ)) :
  within o = true ->
  exists m1 m2 : bigZ,
    o = Some (m1, m2) /\
    val m1 * val m1 + val m2 * val m2 <= square_limit.
Proof.
  destruct o as [[m1 m2]|]; cbn [within]; intros Hg;
    [|exact (False_ind _ (Bool.diff_false_true Hg))].
  exists m1, m2. split; [reflexivity|].
  rewrite BigZ.spec_leb in Hg. apply Z.leb_le in Hg.
  rewrite BigZ.spec_add, !BigZ.spec_mul in Hg.
  apply IZR_le in Hg. rewrite plus_IZR, !mult_IZR in Hg.
  unfold square_limit, val. pose proof scaling_pos as Hu.
  set (a := IZR (BigZ.to_Z m1)) in *. set (b := IZR (BigZ.to_Z m2)) in *.
  set (l := IZR (BigZ.to_Z limit)) in *.
  assert (Hi0 : 0 < / scaling) by now apply Rinv_0_lt_compat.
  unfold Rdiv. rewrite Rinv_mult.
  set (u := / scaling) in *.
  replace (a * u * (a * u) + b * u * (b * u)) with ((a * a + b * b) * (u * u))
    by ring.
  apply Rmult_le_compat_r; [nra | exact Hg].
Qed.

(** On each of the 256 cells the round trip has an enclosure, and the
    enclosure is within the limit. *)
Lemma grid_checked :
  forallb
    (fun i =>
       forallb
         (fun j =>
            within
              (extent
                 (@round_trip_error enclosure (enclosure_number box)
                    {| lat := variable box (centre lat0 half_height i) true;
                       lng := variable box (centre lng0 half_width j) false
                    |})))
         (seq 0 cells))
    (seq 0 cells) = true.
Proof. vm_compute. reflexivity. Qed.

Lemma cell_checked (i j : nat) :
  (i < cells)%nat -> (j < cells)%nat ->
  within
    (extent
       (@round_trip_error enclosure (enclosure_number box)
          {| lat := variable box (centre lat0 half_height i) true;
             lng := variable box (centre lng0 half_width j) false |}))
  = true.
Proof.
  exact (forallb_grid
           (fun i j =>
              within
                (extent
                   (@round_trip_error enclosure (enclosure_number box)
                      {| lat := variable box (centre lat0 half_height i) true;
                         lng := variable box (centre lng0 half_width j) false
                      |})))
           cells grid_checked i j).
Qed.

(** In the box the round trip returns finite coordinates, and the squares of
    the differences of latitude and longitude add up to less than the
    limit. *)
Lemma round_trip_close (la lo : R) :
  35 / 2 <= la <= 20 -> -72 <= lo <= -68 ->
  exists dla dlo : R,
    round_trip_error {| lat := Fin la; lng := Fin lo |} =
    Ok (Fin dla, Fin dlo) /\
    dla * dla + dlo * dlo <= square_limit.
Proof.
  intros Hla Hlo.
  destruct (box_covered la lo Hla Hlo) as (i & j & Hi & Hj & Hbi & Hbj).
  destruct (within_bound _ (cell_checked i j Hi Hj)) as (m1 & m2 & Hm & Hb).
  destruct (cell_bound _ _ _ _ _ _ la lo Hbi Hbj Hm)
    as (dla & dlo & Hr & H1 & H2).
  exists dla, dlo. split; [exact Hr|].
  apply Rabs_bounds in H1, H2. nra.
Qed.

End GridFacts.

Module RoundTripFacts.

Import IdealFacts CentroidFacts DistanceFacts ProjectionFacts.
Import IntervalFacts TaylorFacts GridFacts.
Local Open Scope R_scope.

(** *** The distance of two points that are close *)

Lemma sin_square (t : R) : Rabs t <= 1 -> sin t * sin t <= t * t.
Proof.
  intros Ht. destruct (sin_remainder t 1 Ht (Rle_refl 1)) as (k & Hk & ->).
  apply Rabs_bounds in Ht.
  assert (Hq : 0 <= t * t <= 1) by nra.
  assert (Hkq : 0 <= k * (t * t) <= 1) by nra.
  replace (t - k * (t * (t * t))) with (t * (1 - k * (t * t))) by ring.
  assert (Hs : (1 - k * (t * t)) * (1 - k * (t * t)) <= 1) by nra.
  replace (t * (1 - k * (t * t)) * (t * (1 - k * (t * t))))
    with (t * t * ((1 - k * (t * t)) * (1 - k * (t * t)))) by ring.
  nra.
Qed.

(** One metre on the sphere, as an angle, and a lower bound of its sine. *)
Definition metre : R := 1 / (2 * 6371000).
Definition metre_sine : R := metre - metre * (metre * metre) / 6.

Lemma metre_sine_below : 0 < metre_sine <= sin metre.
Proof.
  unfold metre_sine, metre. split; [lra|].
  pose proof (pre_sin_bound (1 / (2 * 6371000)) 0) as H.
  unfold sin_approx, sin_term in H. simpl in H.
  assert (H1 : 0 <= 1 / (2 * 6371000)) by lra.
  assert (H2 : 1 / (2 * 6371000) <= 4) by lra.
  specialize (H H1 H2). lra.
Qed.

Lemma limit_in_radians :
  PI / 360 * (PI / 360) * square_limit <= metre_sine * metre_sine.
Proof.
  pose proof contains_pi as Hpi. pose proof PI_RGT_0 as Hp0.
  unfold contains, Taylor.pi, val in Hpi. cbn [Interval.lo Interval.hi] in Hpi.
  change (BigZ.to_Z 57952155664616982739) with 57952155664616982739%Z in Hpi.
  change (BigZ.to_Z 57952155664616982740) with 57952155664616982740%Z in Hpi.
  unfold square_limit, metre_sine, metre.
  change (BigZ.to_Z Grid.limit) with 27521335183158694323546340738%Z.
  unfold scaling in *. change (2 ^ 64)%Z with 18446744073709551616%Z in *.
  set (p := 57952155664616982740 / 18446744073709551616) in *.
  assert (Hpp : PI * PI <= p * p) by nra.
  assert (Hc : p / 360 * (p / 360)
               * (27521335183158694323546340738
                  / (18446744073709551616 * 18446744073709551616))
               <= (1 / (2 * 6371000)
                   - 1 / (2 * 6371000)
                     * (1 / (2 * 6371000) * (1 / (2 * 6371000))) / 6)
                  * (1 / (2 * 6371000)
                     - 1 / (2 * 6371000)
                       * (1 / (2 * 6371000) * (1 / (2 * 6371000))) / 6))
    by (unfold p; lra).
  set (l := 27521335183158694323546340738
            / (18446744073709551616 * 18446744073709551616)) in *.
  assert (Hl : 0 <= l) by (unfold l; lra).
  eapply Rle_trans; [|exact Hc].
  replace (PI / 360 * (PI / 360) * l) with (PI * PI * (l / 129600)) by field.
  replace (p / 360 * (p / 360) * l) with (p * p * (l / 129600)) by field.
  apply Rmult_le_compat_r; [lra | exact Hpp].
Qed.

Lemma haversine_small (lat1 lng1 lat2 lng2 : R) :
  (lat2 - lat1) * (lat2 - lat1) + (lng2 - lng1) * (lng2 - lng1)
  <= square_limit ->
  haversine lat1 lng1 lat2 lng2 <= 1.
Proof.
  intros Hd. unfold haversine.
  set (p1 := lat1 * PI / 180). set (p2 := lat2 * PI / 180).
  set (a := (lat2 - lat1) * PI / 180 / 2).
  set (b := (lng2 - lng1) * PI / 180 / 2).
  pose proof (hav_bounds p1 p2 (2 * b)) as Hh.
  replace ((p2 - p1) / 2) with a in Hh by (unfold a, p1, p2; field).
  replace (2 * b / 2) with b in Hh by field.
  replace ((sin a)² + cos p1 * cos p2 * (sin b)²)
    with (sin a * sin a + cos p1 * cos p2 * sin b * sin b)
    by (unfold Rsqr; ring).
  set (h := sin a * sin a + cos p1 * cos p2 * sin b * sin b) in *.
  pose proof limit_in_radians as Hl. pose proof metre_sine_below as Hm.
  assert (Hab : a * a + b * b <= metre_sine * metre_sine).
  { eapply Rle_trans; [|exact Hl].
    replace (a * a + b * b)
      with (PI / 360 * (PI / 360)
            * ((lat2 - lat1) * (lat2 - lat1) + (lng2 - lng1) * (lng2 - lng1)))
      by (unfold a, b; field).
    apply Rmult_le_compat_l; [|exact Hd].
    pose proof PI_RGT_0. nra. }
  assert (Hms : metre_sine * metre_sine <= 1)
    by (unfold metre_sine, metre; lra).
  assert (Ha1 : Rabs a <= 1) by (apply Rabs_le; nra).
  assert (Hb1 : Rabs b <= 1) by (apply Rabs_le; nra).
  pose proof (sin_square a Ha1) as Hsa. pose proof (sin_square b Hb1) as Hsb.
  assert (Hcc : cos p1 * cos p2 <= 1).
  { pose proof (COS_bound p1). pose proof (COS_bound p2). nra. }
  assert (Hh' : h <= metre_sine * metre_sine).
  { unfold h. assert (0 <= sin b * sin b) by nra.
    replace (cos p1 * cos p2 * sin b * sin b)
      with (cos p1 * cos p2 * (sin b * sin b)) by ring.
    nra. }
  assert (Hsq : R_sqrt.sqrt h <= metre_sine).
  { apply square_le; [apply sqrt_pos | lra |].
    rewrite sqrt_sqrt by lra. exact Hh'. }
  assert (Has : asin (R_sqrt.sqrt h) <= metre).
  { pose proof (asin_bound (R_sqrt.sqrt h)) as Hb.
    pose proof (sqrt_pos h) as H0. pose proof PI2_1 as Hpi.
    assert (Hmet : 0 < metre < 1) by (unfold metre; lra).
    apply sin_incr_0; try lra.
    rewrite sin_asin by (unfold metre_sine, metre in *; lra). lra. }
  unfold metre in Has. lra.
Qed.

(** *** The round trip *)

(** In the northern hemisphere, between longitudes -72 and -66,
    [geographicToUtm] rounds what the series give and names the zone
    19N. *)
Lemma geographicToUtm_zone_19N (la lo : R) :
  0 <= la -> -72 <= lo < -66 ->
  geographicToUtm {| lat := Fin la; lng := Fin lo |} =
  {| x := Math_round
            (fst (geographicToUtm_series {| lat := Fin la; lng := Fin lo |}));
     y := Math_round
            (snd (geographicToUtm_series {| lat := Fin la; lng := Fin lo |}));
     zone := "19N" |}.
Proof.
  intros Hla Hlo. unfold geographicToUtm.
  rewrite zoneNumber_fin, hemisphere_fin.
  destruct (geographicToUtm_series _) as [E N].
  destruct (Rle_dec 0 la) as [_|Hn]; [|contradiction].
  assert (Hz : Zfloor ((lo + 180) / 6) = 18%Z) by (apply Zfloor_eq; lra).
  rewrite Hz. cbn [fst snd String.eqb Ascii.eqb Bool.eqb].
  ideal_ops. cbn [Ideal.toString]. rewrite ZfloorZ. reflexivity.
Qed.

Lemma sub_finite (a : ideal) (r d : R) :
  Ideal.sub a (Fin r) = Fin d -> a = Fin (r + d).
Proof.
  destruct a as [s|[]|]; cbn; intros H; try discriminate H.
  injection H as <-. f_equal. ring.
Qed.

Lemma round_trip_returns (la lo dla dlo : R) :
  0 <= la -> -72 <= lo < -66 ->
  round_trip_error {| lat := Fin la; lng := Fin lo |} =
  Ok (Fin dla, Fin dlo) ->
  utmToGeographic (geographicToUtm {| lat := Fin la; lng := Fin lo |}) =
  Ok {| lat := Fin (la + dla); lng := Fin (lo + dlo) |}.
Proof.
  intros Hla Hlo. rewrite geographicToUtm_zone_19N by assumption.
  unfold round_trip_error.
  destruct (geographicToUtm_series _) as [E N]. cbn [fst snd].
  destruct (utmToGeographic _) as [[bla blo]|]; cbn [bind lat lng];
    intros H; [|discriminate H].
  injection H as H1 H2. ideal_ops.
  apply sub_finite in H1, H2. now subst.
Qed.

End RoundTripFacts.

(** * Further properties *)

Local Open Scope list_scope.

(** ** Zone designators *)

Section DesignatorFacts.

Context {num : Type} `{JsNumber num}.

Local Open Scope string_scope.

Lemma app_letter_inj (ds ds' : string) (l l' : ascii) :
  ds ++ String l "" = ds' ++ String l' "" -> ds = ds' /\ l = l'.
Proof.
  revert ds'. induction ds as [|c ds IH]; intros [|c' ds']; simpl; intros Heq.
  - injection Heq as ->. auto.
  - injection Heq as -> Heq. destruct ds'; discriminate.
  - injection Heq as -> Heq. destruct ds; discriminate.
  - injection Heq as -> Heq. destruct (IH _ Heq) as [-> ->]. auto.
Qed.

(** The unanchored pattern, tried at the start of a run of digits that a
    hemisphere letter follows, captures the run and the letter. *)
Lemma zone_match_run (ds : string) (l : ascii) (post : string) :
  ds <> "" -> all_digits ds = true -> isNS l = true ->
  zone_match (ds ++ String l post) = Some (ds, l).
Proof.
  intros Hne Hds Hl. pose proof (zone_at_run ds l post Hne Hds Hl) as Hat.
  destruct ds as [|d ds]; [congruence|].
  change (String d ds ++ String l post)
    with (String d (ds ++ String l post)) in *.
  cbn [zone_match]. now rewrite Hat.
Qed.

(** A designator, digits and one hemisphere letter: the converter reads the
    number the digits spell, and the northern hemisphere for N or n. *)
Lemma utmToGeographic_zone_designator (ds : string) (l : ascii) :
  ds <> "" -> all_digits ds = true -> isNS l = true ->
  utmToGeographic_zone (num := num) (ds ++ String l "") =
  Ok (parseInt ds, (toUpperCase l =? "N")%char).
Proof.
  intros Hne Hds Hl. unfold utmToGeographic_zone.
  destruct (String.eqb_spec (ds ++ String l "") "19Q") as [HQ|_].
  - apply (app_letter_inj ds "19" l "Q") in HQ as [_ ->]. discriminate Hl.
  - destruct (String.eqb_spec (ds ++ String l "") "19N") as [HN|_].
    + apply (app_letter_inj ds "19" l "N") in HN as [-> ->]. reflexivity.
    + cbn [orb].
      destruct (String.eqb_spec (ds ++ String l "") "20N") as [H20|_].
      * apply (app_letter_inj ds "20" l "N") in H20 as [-> ->]. reflexivity.
      * now rewrite (zone_match_run ds l "" Hne Hds Hl).
Qed.

Lemma validated_zone (utm : UTMCoordinates num) :
  validateUtmCoordinates utm = true ->
  exists (digits : string) (letter : ascii),
    zone utm = digits ++ String letter "" /\
    zone_match_anchored (zone utm) = Some digits /\
    utmToGeographic_zone (num := num) (zone utm) =
    Ok (parseInt digits, (toUpperCase letter =? "N")%char).
Proof.
  unfold validateUtmCoordinates.
  destruct (zone_match_anchored (zone utm)) as [ds|] eqn:Hm; [|discriminate].
  intros _.
  pose proof Hm as Hm'.
  apply ValidatorFacts.zone_match_anchored_Some in Hm'
    as (l & Hz & Hlen & Hds & Hl).
  exists ds, l. split; [exact Hz | split; [reflexivity|]].
  rewrite Hz. apply utmToGeographic_zone_designator; try assumption.
  destruct ds; [simpl in Hlen; lia | discriminate].
Qed.

Lemma southern_as_northern (easting northing : num) (ds : string) :
  ds <> "" -> all_digits ds = true ->
  utmToGeographic {| x := easting; y := northing; zone := ds ++ "S" |} =
  utmToGeographic {| x := easting; y := sub northing (lit 10000000.0);
                     zone := ds ++ "N" |}.
Proof.
  intros Hne Hds. unfold utmToGeographic. cbn [x y zone].
  rewrite (utmToGeographic_zone_designator ds "S" Hne Hds eq_refl).
  rewrite (utmToGeographic_zone_designator ds "N" Hne Hds eq_refl).
  reflexivity.
Qed.

End DesignatorFacts.

(** ** The validator of geographic coordinates *)

Module GeographicFacts.

Import IdealFacts CentroidFacts ValidatorFacts.
Local Open Scope R_scope.

Lemma between (a : ideal) (lo hi : Q) :
  ge a (lit lo) && le a (lit hi) = true <-> in_range a (Q2R lo) (Q2R hi).
Proof.
  unfold ge, in_range. ideal_ops. rewrite andb_true_iff.
  destruct a as [r|[]|]; simpl.
  - rewrite !Rleb_true. split.
    + intros Hr. exists r. split; [reflexivity | exact Hr].
    + intros (r' & [= <-] & Hr). exact Hr.
  - split; [intros [[=] _] | intros (r & [=] & _)].
  - split; [intros [_ [=]] | intros (r & [=] & _)].
  - split; [intros [[=] _] | intros (r & [=] & _)].
Qed.

Lemma validateGeographicCoordinates_spec (c : GeographicCoordinates ideal) :
  validateGeographicCoordinates c = true <->
  in_range (lat c) (-90) 90 /\ in_range (lng c) (-180) 180.
Proof.
  unfold validateGeographicCoordinates.
  rewrite !andb_true_iff.
  pose proof (between (lat c) (-90) 90) as Hla.
  pose proof (between (lng c) (-180) 180) as Hlo.
  rewrite andb_true_iff in Hla, Hlo.
  replace (Q2R (-90)) with (-90) in Hla by (unfold Q2R; simpl; lra).
  replace (Q2R 90) with 90 in Hla by (unfold Q2R; simpl; lra).
  replace (Q2R (-180)) with (-180) in Hlo by (unfold Q2R; simpl; lra).
  replace (Q2R 180) with 180 in Hlo by (unfold Q2R; simpl; lra).
  tauto.
Qed.

End GeographicFacts.

(** ** The zone written by geographicToUtm *)

Module ZoneRoundTrip.

Import IdealFacts CentroidFacts ValidatorFacts ProjectionFacts GeographicFacts.
Local Open Scope string_scope.

(** The decimal digits of a zone number: one or two digits that spell it. *)
Definition digits_ok (k : Z) : bool :=
  let s := Ideal.string_of_Z k in
  all_digits s && (digits_value 0 s =? k)%Z &&
  ((String.length s =? 1)%nat || (String.length s =? 2)%nat).

Lemma digits_checked : forallb digits_ok (map Z.of_nat (seq 1 61)) = true.
Proof. vm_compute. reflexivity. Qed.

Lemma zone_digits (k : Z) :
  (1 <= k <= 61)%Z ->
  all_digits (Ideal.string_of_Z k) = true /\
  digits_value 0 (Ideal.string_of_Z k) = k /\
  (String.length (Ideal.string_of_Z k) = 1%nat \/
   String.length (Ideal.string_of_Z k) = 2%nat).
Proof.
  intros Hk. pose proof digits_checked as H. rewrite forallb_forall in H.
  assert (Hin : In k (map Z.of_nat (seq 1 61))).
  { apply in_map_iff. exists (Z.to_nat k). split; [lia|]. apply in_seq. lia. }
  specialize (H k Hin). unfold digits_ok in H.
  apply andb_true_iff in H as [H Hlen]. apply andb_true_iff in H as [Hds Hv].
  apply Z.eqb_eq in Hv. apply orb_true_iff in Hlen.
  rewrite !Nat.eqb_eq in Hlen. auto.
Qed.

Lemma zone_of_longitude (lo : R) :
  (-180 <= lo <= 180)%R -> (1 <= Zfloor ((lo + 180) / 6) + 1 <= 61)%Z.
Proof.
  intros Hlo. pose proof (Zfloor_bound ((lo + 180) / 6)) as Hb.
  assert (H0 : (0 <= Zfloor ((lo + 180) / 6))%Z)
    by (apply Zfloor_lub; simpl; lra).
  assert (H1 : (Zfloor ((lo + 180) / 6) <= 60)%Z) by (apply le_IZR; lra).
  lia.
Qed.

Lemma letter_of_hemisphere (la : R) :
  exists l : ascii,
    (if Rle_dec 0 la then "N" else "S") = String l "" /\ isNS l = true /\
    (toUpperCase l =? "N")%char = ge (Fin la) (lit 0).
Proof.
  unfold ge. ideal_ops. cbn [Ideal.le]. unfold Ideal.Rleb.
  replace (Q2R 0) with 0%R by (unfold Q2R; simpl; lra).
  destruct (Rle_dec 0 la); [exists "N"%char | exists "S"%char]; auto.
Qed.

(** The converter reads back the zone number and the hemisphere that
    [geographicToUtm] wrote. *)
Lemma zone_read_back (la lo : R) :
  (-180 <= lo <= 180)%R ->
  utmToGeographic_zone
    (zone (geographicToUtm {| lat := Fin la; lng := Fin lo |})) =
  Ok (geographicToUtm_zoneNumber {| lat := Fin la; lng := Fin lo |},
      ge (Fin la) (lit 0)).
Proof.
  intros Hlo.
  destruct (geographicToUtm_fin la lo) as (E & N0 & zE & zN & _ & -> & _).
  cbn [zone]. rewrite zoneNumber_fin.
  pose proof (zone_of_longitude lo Hlo) as Hk.
  set (k := (Zfloor ((lo + 180) / 6) + 1)%Z) in *.
  rewrite (integer_toString_small k) by lia.
  destruct (zone_digits k Hk) as (Hds & Hv & Hlen).
  destruct (letter_of_hemisphere la) as (l & -> & Hl & <-).
  assert (Hne : Ideal.string_of_Z k <> "")
    by (destruct (Ideal.string_of_Z k); [simpl in Hlen; lia | discriminate]).
  rewrite (utmToGeographic_zone_designator _ l Hne Hds Hl).
  rewrite (parseInt_digits _ Hne Hds), Hv. ideal_ops.
  now rewrite Q2R_inject_Z.
Qed.

(** At longitude 180 the zone written is 61, which the validator refuses. *)
Lemma zone_61 (la : R) :
  zone (geographicToUtm {| lat := Fin la; lng := Fin 180 |}) =
  (if Rle_dec 0 la then "61N" else "61S") /\
  validateUtmCoordinates (geographicToUtm {| lat := Fin la; lng := Fin 180 |})
  = false.
Proof.
  destruct (geographicToUtm_fin la 180) as (E & N0 & zE & zN & _ & -> & _).
  cbn [zone].
  assert (Hk : Zfloor ((180 + 180) / 6) = 60%Z) by (apply Zfloor_eq; simpl; lra).
  rewrite Hk. change (Ideal.integer_toString (60 + 1)) with "61".
  assert (H61 : forall (s : string) (a b : ideal),
             zone_match_anchored s = Some "61" ->
             validateUtmCoordinates {| x := a; y := b; zone := s |} = false).
  { intros s a b Hs. unfold validateUtmCoordinates. cbn [zone]. rewrite Hs.
    replace (gt (parseInt (num := ideal) "61") (lit 60)) with true;
      [now rewrite orb_true_r|].
    unfold gt, parseInt. simpl span_digits. cbv iota. ideal_ops.
    cbn [Ideal.lt]. symmetry. apply Rltb_true.
    unfold Q2R. simpl. lra. }
  destruct (Rle_dec 0 la); (split; [reflexivity | now apply H61]).
Qed.

(** In binary64 as well, with every [Math] library and at every latitude. *)
Lemma zone_61_double (M : F64.MathLib) (la : float) :
  zone (@geographicToUtm float (float_number M)
          {| lat := la; lng := 180%float |}) =
  (if (0 <=? la)%float then "61N" else "61S") /\
  @validateUtmCoordinates float (float_number M)
    (@geographicToUtm float (float_number M)
       {| lat := la; lng := 180%float |}) = false.
Proof.
  unfold geographicToUtm.
  destruct (geographicToUtm_series _) as [E N0].
  unfold geographicToUtm_hemisphere, ge. cbn [lat lng].
  assert (Hz : @toString float (float_number M)
                 (@geographicToUtm_zoneNumber float (float_number M)
                    {| lat := la; lng := 180%float |}) = "61")
    by (vm_compute; reflexivity).
  rewrite Hz.
  change (@le float (float_number M) (@lit float (float_number M) 0) la)
    with (0 <=? la)%float.
  destruct (0 <=? la)%float; cbn [String.eqb Ascii.eqb Bool.eqb zone];
    (split; [reflexivity|]); unfold validateUtmCoordinates; cbn [zone];
    vm_compute; reflexivity.
Qed.

End ZoneRoundTrip.

(** ** Symmetries of the projections *)

Section ConversionFields.

Context {num : Type} `{JsNumber num}.

(** The three fields of the record returned. *)
Lemma geographicToUtm_fields (c : GeographicCoordinates num) :
  x (geographicToUtm c) = Math_round (fst (geographicToUtm_series c)) /\
  y (geographicToUtm c) =
    Math_round
      (if (geographicToUtm_hemisphere c =? "S")%string
       then (snd (geographicToUtm_series c) + lit 10000000.0)%js
       else snd (geographicToUtm_series c)) /\
  zone (geographicToUtm c) =
    (toString (geographicToUtm_zoneNumber c) ++
     geographicToUtm_hemisphere c)%string.
Proof.
  unfold geographicToUtm. destruct (geographicToUtm_series c) as [E N0].
  cbn [x y zone fst snd]. auto.
Qed.

End ConversionFields.

Module ParityFacts.

Import Ideal IdealFacts CentroidFacts DistanceFacts ProjectionFacts.
Local Open Scope R_scope.

Lemma neg_add (a b : ideal) : neg (add a b) = add (neg a) (neg b).
Proof. destruct a as [r|[]|], b as [t|[]|]; ideal_cases. Qed.

Lemma sub_neg_neg (a b : ideal) : sub (neg a) (neg b) = neg (sub a b).
Proof. unfold sub. now rewrite neg_add. Qed.

Lemma add_neg_neg (a b : ideal) : add (neg a) (neg b) = neg (add a b).
Proof. now rewrite neg_add. Qed.

Lemma mul_neg_neg (a b : ideal) : mul (neg a) (neg b) = mul a b.
Proof. now rewrite mul_neg_l, mul_neg_r, neg_neg. Qed.

Lemma trig_cos_neg (a : ideal) : trig cos (neg a) = trig cos a.
Proof. destruct a; simpl; [now rewrite cos_neg | reflexivity..]. Qed.

Lemma trig_tan_neg (a : ideal) : trig tan (neg a) = neg (trig tan a).
Proof. destruct a; simpl; [now rewrite tan_neg | reflexivity..]. Qed.

Lemma is_integer_IZR (z : Z) : is_integer (IZR z) = true.
Proof.
  unfold is_integer, Reqb. rewrite ZfloorZ.
  destruct (Req_dec_T (IZR z) (IZR z)); congruence.
Qed.

Lemma pow_inf (s : bool) (n : positive) :
  pow (Inf s) (Fin (IZR (Zpos n))) = Inf (s && Z.odd (Zpos n)).
Proof.
  unfold pow. assert (Hn : 0 < IZR (Zpos n)) by (apply IZR_lt; lia).
  destruct (Req_dec_T (IZR (Z.pos n)) 0); [lra|].
  destruct (Rlt_dec 0 (IZR (Z.pos n))); [|contradiction].
  destruct s; [|reflexivity].
  now rewrite is_integer_IZR, ZfloorZ.
Qed.

Lemma pow_nan (n : positive) : pow NotANumber (Fin (IZR (Zpos n))) = NotANumber.
Proof.
  unfold pow. assert (Hn : 0 < IZR (Zpos n)) by (apply IZR_lt; lia).
  destruct (Req_dec_T (IZR (Z.pos n)) 0); [lra | reflexivity].
Qed.

Lemma pow_neg_3 (a : ideal) : pow (neg a) (Fin 3) = neg (pow a (Fin 3)).
Proof.
  destruct a as [r|s|]; cbn [neg].
  - rewrite !pow_fin_nat. cbn [neg]. f_equal. simpl. ring.
  - rewrite !pow_inf. destruct s; reflexivity.
  - now rewrite pow_nan.
Qed.

Lemma pow_neg_5 (a : ideal) : pow (neg a) (Fin 5) = neg (pow a (Fin 5)).
Proof.
  destruct a as [r|s|]; cbn [neg].
  - rewrite !pow_fin_nat. cbn [neg]. f_equal. simpl. ring.
  - rewrite !pow_inf. destruct s; reflexivity.
  - now rewrite pow_nan.
Qed.

Lemma pow_neg_4 (a : ideal) : pow (neg a) (Fin 4) = pow a (Fin 4).
Proof.
  destruct a as [r|s|]; cbn [neg].
  - rewrite !pow_fin_nat. f_equal. simpl. ring.
  - rewrite !pow_inf. destruct s; reflexivity.
  - reflexivity.
Qed.

Lemma pow_neg_6 (a : ideal) : pow (neg a) (Fin 6) = pow a (Fin 6).
Proof.
  destruct a as [r|s|]; cbn [neg].
  - rewrite !pow_fin_nat. f_equal. simpl. ring.
  - rewrite !pow_inf. destruct s; reflexivity.
  - reflexivity.
Qed.

(** Opposites move outwards through the operations. *)
Ltac outwards :=
  repeat first
    [ rewrite neg_neg | rewrite mul_neg_neg | rewrite pow_neg_3 | rewrite pow_neg_4
    | rewrite pow_neg_5 | rewrite pow_neg_6
    | rewrite trig_sin_neg | rewrite trig_cos_neg | rewrite trig_tan_neg
    | rewrite mul_neg_r | rewrite mul_neg_l | rewrite div_neg_l
    | rewrite sub_neg_neg | rewrite add_neg_neg ].

(** *** Two runs of a conversion, let by let *)

Lemma let_even {A : Type} (G : A -> A -> Prop) (a b : ideal)
      (f g : ideal -> A) :
  b = a -> (forall u, u = a -> G (f u) (g u)) ->
  G (let u := a in f u) (let v := b in g v).
Proof. intros -> H. exact (H a eq_refl). Qed.

Lemma let_odd {A : Type} (G : A -> A -> Prop) (a b : ideal)
      (f g : ideal -> A) :
  b = neg a -> (forall u, u = a -> G (f u) (g (neg u))) ->
  G (let u := a in f u) (let v := b in g v).
Proof. intros -> H. exact (H a eq_refl). Qed.

Lemma let_both {A : Type} (G : A -> A -> Prop) (a b : ideal)
      (f g : ideal -> A) :
  (forall u v, u = a -> v = b -> G (f u) (g v)) ->
  G (let u := a in f u) (let v := b in g v).
Proof. intros H. exact (H a b eq_refl eq_refl). Qed.

Ltac operators :=
  cbn [add sub mul div lit NaN Math_PI Math_sqrt Math_sin Math_cos Math_tan
       Math_floor Math_round Math_pow Math_atan2 ideal_number];
  lazy beta iota delta [geographicToUtm_zoneNumber lat lng];
  unfold Q2R; cbn [Qnum Qden]; rewrite ?Rinv_1, ?Rmult_1_r.

Ltac parity := operators; outwards; first [reflexivity | assumption].

(** One [let] of the source in both runs: the second value is the first, or
    its opposite. *)
Ltac mirror :=
  lazymatch goal with
  | |- ?G ?p ?q =>
      lazymatch p with
      | let u := ?a in @?f u =>
          lazymatch q with
          | let v := ?b in @?g v =>
              first
                [ apply (let_even G a b f g);
                  [parity | intros ? ?; cbv beta]
                | apply (let_odd G a b f g);
                  [parity | intros ? ?; cbv beta] ]
          end
      end
  end.

(** The same, for values that are neither. *)
Ltac both :=
  lazymatch goal with
  | |- ?G ?p ?q =>
      lazymatch p with
      | let u := ?a in @?f u =>
          lazymatch q with
          | let v := ?b in @?g v =>
              apply (let_both G a b f g); intros ? ? ? ?; cbv beta
          end
      end
  end.

(** The central meridian of zone [k], in radians, as the source computes
    it. *)
Definition meridian (k : ideal) : ideal :=
  Ideal.div
    (Ideal.mul
       (Ideal.add (Ideal.sub (Ideal.mul (Ideal.sub k (Fin 1)) (Fin 6))
                             (Fin 180)) (Fin 3))
       (Fin PI))
    (Fin 180).

Definition degrees (a : ideal) : ideal :=
  Ideal.div (Ideal.mul a (Fin 180)) (Fin PI).

(** Two results with the same latitude, and longitudes on either side of
    the meridian [c]. *)
Definition mirrored (c : ideal)
           (r1 r2 : Result (GeographicCoordinates ideal)) : Prop :=
  match r1, r2 with
  | Ok g1, Ok g2 =>
      lat g2 = lat g1 /\
      exists q, lng g1 = degrees (Ideal.add c q) /\
                lng g2 = degrees (Ideal.add c (neg q))
  | _, _ => False
  end.

Lemma utmToGeographic_mirrored (e1 e2 n k : ideal) (h : bool) (s : string) :
  utmToGeographic_zone s = Ok (k, h) ->
  Ideal.sub e2 (Fin (5000000 * / 10)) =
  neg (Ideal.sub e1 (Fin (5000000 * / 10))) ->
  mirrored (meridian k)
    (utmToGeographic {| x := e1; y := n; zone := s |})
    (utmToGeographic {| x := e2; y := n; zone := s |}).
Proof.
  intros Hz He.
  lazy delta [utmToGeographic]. lazy beta. lazy beta iota delta [zone].
  rewrite Hz.
  lazy beta iota delta [bind x y].
  repeat mirror.
  lazy zeta. unfold mirrored. cbn [lat lng]. split; [reflexivity|].
  eexists. unfold degrees, meridian. subst u7. operators.
  split; [reflexivity|]. outwards. reflexivity.
Qed.

(** Two results with opposite latitudes and the same longitude. *)
Definition reflected (r1 r2 : Result (GeographicCoordinates ideal)) : Prop :=
  match r1, r2 with
  | Ok g1, Ok g2 => lat g2 = neg (lat g1) /\ lng g2 = lng g1
  | _, _ => False
  end.

Lemma utmToGeographic_reflected (e n1 n2 : ideal) (h1 h2 : bool)
      (k : ideal) (s1 s2 : string) :
  utmToGeographic_zone s1 = Ok (k, h1) ->
  utmToGeographic_zone s2 = Ok (k, h2) ->
  (if negb h2 then Ideal.sub n2 (Fin (100000000 * / 10)) else n2) =
  neg (if negb h1 then Ideal.sub n1 (Fin (100000000 * / 10)) else n1) ->
  reflected
    (utmToGeographic {| x := e; y := n1; zone := s1 |})
    (utmToGeographic {| x := e; y := n2; zone := s2 |}).
Proof.
  intros Hz1 Hz2 Hn.
  lazy delta [utmToGeographic]. lazy beta. lazy beta iota delta [zone].
  rewrite Hz1, Hz2.
  lazy beta iota delta [bind x y].
  do 6 mirror.
  both. match goal with Hu : ?u = n1, Hv : ?v = n2 |- _ => subst u v end.
  repeat mirror.
  unfold reflected. cbn [lat lng]. split; [parity | reflexivity].
Qed.

(** The result is a latitude and an offset of longitude that do not depend
    on the zone number, the offset added to the central meridian. *)
Definition same_offset (k1 k2 : ideal)
           (r1 r2 : Result (GeographicCoordinates ideal)) : Prop :=
  exists la q,
    r1 = Ok {| lat := la; lng := degrees (Ideal.add (meridian k1) q) |} /\
    r2 = Ok {| lat := la; lng := degrees (Ideal.add (meridian k2) q) |}.

Lemma utmToGeographic_offset (e n k1 k2 : ideal) (h : bool)
      (s1 s2 : string) :
  utmToGeographic_zone s1 = Ok (k1, h) ->
  utmToGeographic_zone s2 = Ok (k2, h) ->
  same_offset k1 k2
    (utmToGeographic {| x := e; y := n; zone := s1 |})
    (utmToGeographic {| x := e; y := n; zone := s2 |}).
Proof.
  intros Hz1 Hz2.
  lazy delta [utmToGeographic]. lazy beta. lazy beta iota delta [zone].
  rewrite Hz1, Hz2.
  lazy beta iota delta [bind x y].
  do 8 mirror. both. repeat mirror.
  lazy zeta. unfold same_offset, degrees, meridian.
  eexists. eexists. subst u7 v. operators. split; reflexivity.
Qed.

(** *** The series of geographicToUtm *)

(** The same northing, and eastings on either side of the false easting. *)
Definition mirrored_pair (p1 p2 : ideal * ideal) : Prop :=
  snd p2 = snd p1 /\
  exists q, fst p1 = Ideal.add q (Fin (5000000 * / 10)) /\
            fst p2 = Ideal.add (neg q) (Fin (5000000 * / 10)).

Lemma zone_of_offset (k : Z) (d : R) :
  -3 <= d < 3 -> Zfloor ((6 * IZR k - 183 + d + 180) / 6) = (k - 1)%Z.
Proof. intros Hd. apply Zfloor_eq. rewrite minus_IZR. lra. Qed.

Lemma geographicToUtm_series_mirrored (la : R) (k : Z) (d : R) :
  -3 < d < 3 ->
  mirrored_pair
    (geographicToUtm_series
       {| lat := Fin la; lng := Fin (6 * IZR k - 183 + d) |})
    (geographicToUtm_series
       {| lat := Fin la; lng := Fin (6 * IZR k - 183 + - d) |}).
Proof.
  intros Hd.
  assert (Hk1 : geographicToUtm_zoneNumber
                  {| lat := Fin la; lng := Fin (6 * IZR k - 183 + d) |} =
                Fin (IZR k)).
  { rewrite zoneNumber_fin, zone_of_offset by lra. do 2 f_equal. lia. }
  assert (Hk2 : geographicToUtm_zoneNumber
                  {| lat := Fin la; lng := Fin (6 * IZR k - 183 + - d) |} =
                Fin (IZR k)).
  { rewrite zoneNumber_fin, zone_of_offset by lra. do 2 f_equal. lia. }
  lazy delta [geographicToUtm_series]. lazy beta.
  rewrite Hk1, Hk2. lazy beta iota delta [lat lng].
  mirror. both. repeat mirror.
  lazymatch goal with
  | |- ?G (let u := ?a in @?f u) (let v := ?b in @?g v) =>
      apply (let_odd G a b f g); [|intros ? ?; cbv beta]
  end.
  { subst. operators. eval_with cheap. cbn [neg mul]. f_equal. field. }
  mirror. both. mirror.
  unfold mirrored_pair. cbn [fst snd]. split; [reflexivity|].
  eexists.
  subst u13 v0.
  operators. split; [reflexivity|]. outwards. reflexivity.
Qed.

(** The same easting, and opposite northings. *)
Definition reflected_pair (p1 p2 : ideal * ideal) : Prop :=
  fst p2 = fst p1 /\ snd p2 = neg (snd p1).

Lemma geographicToUtm_series_reflected (a o : ideal) :
  reflected_pair
    (geographicToUtm_series {| lat := a; lng := o |})
    (geographicToUtm_series {| lat := neg a; lng := o |}).
Proof.
  lazy delta [geographicToUtm_series]. lazy beta.
  lazy beta iota delta [lat lng].
  repeat mirror.
  unfold reflected_pair. cbn [fst snd]. split; reflexivity.
Qed.

(** *** On finite values *)

Lemma meridian_fin (k : R) :
  meridian (Fin k) = Fin ((6 * k - 183) * PI / 180).
Proof.
  unfold meridian. cbn [sub add neg mul]. rewrite div_fin by lra.
  f_equal. field.
Qed.

Lemma degrees_fin (r : R) : degrees (Fin r) = Fin (r * 180 / PI).
Proof. unfold degrees. cbn [mul]. now rewrite div_fin by apply PI_neq0. Qed.

Lemma degrees_add_finite (m : R) (q : ideal) (lo : R) :
  degrees (add (Fin m) q) = Fin lo -> exists r, q = Fin r.
Proof.
  destruct q as [r|s|]; [eauto | |]; unfold degrees; cbn [add mul];
    unfold scale_inf; intros H.
  - destruct (Req_dec_T 180 0); discriminate H.
  - discriminate H.
Qed.

Lemma utmToGeographic_mirror (d k la lo : R) (n : ideal) (s : string)
      (h : bool) :
  utmToGeographic_zone s = Ok (Fin k, h) ->
  utmToGeographic {| x := Fin (500000 + d); y := n; zone := s |} =
  Ok {| lat := Fin la; lng := Fin lo |} ->
  utmToGeographic {| x := Fin (500000 - d); y := n; zone := s |} =
  Ok {| lat := Fin la; lng := Fin (2 * (6 * k - 183) - lo) |}.
Proof.
  intros Hz H1.
  assert (He : sub (Fin (500000 - d)) (Fin (5000000 * / 10)) =
               neg (sub (Fin (500000 + d)) (Fin (5000000 * / 10))))
    by (cbn [sub add neg]; f_equal; lra).
  pose proof (utmToGeographic_mirrored _ _ n _ _ _ Hz He) as Hm.
  rewrite H1 in Hm.
  destruct (utmToGeographic {| x := Fin (500000 - d); y := n; zone := s |})
    as [[la2 lo2]|]; [|contradiction].
  destruct Hm as (Hlat & q & Hq1 & Hq2). cbn [lat lng] in *. subst la2 lo2.
  rewrite meridian_fin in *. symmetry in Hq1.
  destruct (degrees_add_finite _ _ _ Hq1) as (r & ->).
  cbn [add neg] in *. rewrite degrees_fin in *. injection Hq1 as <-.
  do 3 f_equal. pose proof PI_neq0. field. assumption.
Qed.

(** Another zone number, the hemisphere unchanged: the same latitude, and
    the longitude moved by six degrees for each zone. *)
Lemma utmToGeographic_zone_shift (e n : ideal) (k1 k2 : R) (h : bool)
      (s1 s2 : string) :
  utmToGeographic_zone s1 = Ok (Fin k1, h) ->
  utmToGeographic_zone s2 = Ok (Fin k2, h) ->
  exists g1 g2,
    utmToGeographic {| x := e; y := n; zone := s1 |} = Ok g1 /\
    utmToGeographic {| x := e; y := n; zone := s2 |} = Ok g2 /\
    lat g2 = lat g1 /\
    lng g2 = add (lng g1) (Fin (6 * (k2 - k1))).
Proof.
  intros Hz1 Hz2.
  destruct (utmToGeographic_offset e n _ _ _ _ _ Hz1 Hz2)
    as (la & q & -> & ->).
  eexists. eexists. split; [reflexivity | split; [reflexivity|]].
  cbn [lat lng]. split; [reflexivity|]. rewrite !meridian_fin.
  destruct q as [r|sg|]; cbn [add].
  - rewrite !degrees_fin. cbn [add]. f_equal. pose proof PI_neq0.
    field. assumption.
  - unfold degrees. cbn [mul]. unfold scale_inf.
    destruct (Req_dec_T 180 0); [lra|]. cbn [div add]. reflexivity.
  - reflexivity.
Qed.

(** The southern point of northing [10,000,000 - n] is the image of the
    northern point of northing [n] in the equator. *)
Lemma utmToGeographic_reflection (e : ideal) (n : R) (ds : string) :
  ds <> ""%string -> all_digits ds = true ->
  exists g,
    utmToGeographic {| x := e; y := Fin n; zone := (ds ++ "N")%string |} =
    Ok g /\
    utmToGeographic
      {| x := e; y := Fin (10000000 - n); zone := (ds ++ "S")%string |} =
    Ok {| lat := neg (lat g); lng := lng g |}.
Proof.
  intros Hne Hds.
  pose proof (utmToGeographic_zone_designator (num := ideal)
                ds "N" Hne Hds eq_refl) as HzN.
  pose proof (utmToGeographic_zone_designator (num := ideal)
                ds "S" Hne Hds eq_refl) as HzS.
  assert (Hr : reflected
                 (utmToGeographic
                    {| x := e; y := Fin n; zone := (ds ++ "N")%string |})
                 (utmToGeographic
                    {| x := e; y := Fin (10000000 - n);
                       zone := (ds ++ "S")%string |})).
  { apply (utmToGeographic_reflected e _ _ _ _ _ _ _ HzN HzS).
    change (toUpperCase "S" =? "N")%char with false.
    change (toUpperCase "N" =? "N")%char with true.
    cbn [negb sub add neg]. f_equal. lra. }
  destruct (utmToGeographic {| x := e; y := Fin n; zone := _ |})
    as [g|]; [|contradiction].
  destruct (utmToGeographic {| y := Fin (10000000 - n) |})
    as [[la2 lo2]|]; [|contradiction].
  destruct Hr as [Hla Hlo]. cbn [lat lng] in *. subst. eauto.
Qed.

(** *** geographicToUtm on finite values *)

Lemma series_mirror (la : R) (k : Z) (d : R) :
  -3 < d < 3 ->
  exists E N0 : R,
    geographicToUtm_series
      {| lat := Fin la; lng := Fin (6 * IZR k - 183 + d) |} =
    (Fin E, Fin N0) /\
    geographicToUtm_series
      {| lat := Fin la; lng := Fin (6 * IZR k - 183 - d) |} =
    (Fin (1000000 - E), Fin N0).
Proof.
  intros Hd. pose proof (geographicToUtm_series_mirrored la k d Hd) as Hm.
  destruct (geographicToUtm_series_fin la (6 * IZR k - 183 + d))
    as (E & N0 & H1).
  destruct (geographicToUtm_series_fin la (6 * IZR k - 183 + - d))
    as (E' & N0' & H2).
  rewrite H1, H2 in Hm. destruct Hm as (HN & q & Hq1 & Hq2).
  cbn [fst snd] in *. exists E, N0. split; [exact H1|].
  replace (6 * IZR k - 183 - d) with (6 * IZR k - 183 + - d) by ring.
  rewrite H2, HN. destruct q as [r| |]; try discriminate Hq1.
  cbn [neg add] in *. injection Hq1 as ->. injection Hq2 as ->.
  do 2 f_equal. lra.
Qed.

Lemma zoneNumber_meridian (la : R) (k : Z) (d : R) :
  -3 <= d < 3 ->
  geographicToUtm_zoneNumber
    {| lat := Fin la; lng := Fin (6 * IZR k - 183 + d) |} = Fin (IZR k).
Proof.
  intros Hd. rewrite zoneNumber_fin, zone_of_offset by lra.
  do 2 f_equal. lia.
Qed.

(** On the central meridian of a zone the easting is the false easting. *)
Lemma central_meridian_easting (la : R) (k : Z) :
  x (geographicToUtm {| lat := Fin la; lng := Fin (6 * IZR k - 183) |}) =
  Fin 500000.
Proof.
  destruct (series_mirror la k 0) as (E & N0 & H1 & H2); [lra|].
  replace (6 * IZR k - 183 + 0) with (6 * IZR k - 183) in H1 by ring.
  replace (6 * IZR k - 183 - 0) with (6 * IZR k - 183) in H2 by ring.
  rewrite H1 in H2. injection H2 as HE.
  destruct (geographicToUtm_fields
              {| lat := Fin la; lng := Fin (6 * IZR k - 183) |}) as (-> & _).
  rewrite H1. cbn [fst]. ideal_ops. cbn [round]. do 2 f_equal.
  apply Zfloor_eq. lra.
Qed.

Lemma series_reflect (la lo : R) :
  exists E N0 : R,
    geographicToUtm_series {| lat := Fin la; lng := Fin lo |} =
    (Fin E, Fin N0) /\
    geographicToUtm_series {| lat := Fin (- la); lng := Fin lo |} =
    (Fin E, Fin (- N0)).
Proof.
  pose proof (geographicToUtm_series_reflected (Fin la) (Fin lo)) as Hr.
  destruct (geographicToUtm_series_fin la lo) as (E & N0 & H1).
  exists E, N0. split; [exact H1|]. rewrite H1 in Hr. cbn [neg] in Hr.
  destruct (geographicToUtm_series {| lat := Fin (- la); lng := Fin lo |})
    as [E' N']. destruct Hr as [HE HN]. cbn [fst snd neg] in *. now subst.
Qed.

(** On the equator the northing is zero, and the hemisphere is N. *)
Lemma equator_northing (lo : R) :
  y (geographicToUtm {| lat := Fin 0; lng := Fin lo |}) = Fin 0 /\
  geographicToUtm_hemisphere {| lat := Fin 0; lng := Fin lo |} = "N"%string.
Proof.
  assert (Hh : geographicToUtm_hemisphere {| lat := Fin 0; lng := Fin lo |}
               = "N"%string).
  { rewrite hemisphere_fin. destruct (Rle_dec 0 0); [reflexivity | lra]. }
  split; [|exact Hh].
  destruct (series_reflect 0 lo) as (E & N0 & H1 & H2).
  replace (- 0) with 0 in H2 by ring. rewrite H1 in H2. injection H2 as HN.
  destruct (geographicToUtm_fields {| lat := Fin 0; lng := Fin lo |})
    as (_ & -> & _).
  rewrite Hh, H1. cbn [String.eqb Ascii.eqb Bool.eqb snd]. ideal_ops.
  cbn [round]. do 2 f_equal. apply Zfloor_eq. simpl. lra.
Qed.

End ParityFacts.

(** ** Where utmToGeographic is finite *)

Module FootpointFacts.

Import IdealFacts CentroidFacts DistanceFacts ProjectionFacts ParityFacts.
Local Open Scope R_scope.

(** A northing within 9,000,000 m of the equator: the footpoint latitude
    stays below 3/2 radians, short of the pole, and every intermediate value
    is finite. *)
Lemma utmToGeographic_within
  (P : Result (GeographicCoordinates ideal) -> Prop)
  (easting northing zoneNumber : R) (isNorthern : bool) (s : string) :
  utmToGeographic_zone s = Ok (Fin zoneNumber, isNorthern) ->
  Rabs (if isNorthern then northing else northing - 10000000) <= 9000000 ->
  (forall la lo : R, P (Ok {| lat := Fin la; lng := Fin lo |})) ->
  P (utmToGeographic {| x := Fin easting; y := Fin northing; zone := s |}).
Proof.
  intros Hz Hy HP. apply TaylorFacts.Rabs_bounds in Hy.
  lazy delta [utmToGeographic]. lazy beta. lazy beta iota delta [zone x y].
  rewrite Hz. lazy beta iota delta [bind].
  step cheap. step cheap. step cheap. step cheap.
  assert (Hn : 0 <= n <= 1 / 100).
  { pose proof (sqrt_pos (1 - e)) as H0.
    pose proof (sqrt_sqrt (1 - e)) as H1.
    set (s0 := R_sqrt.sqrt (1 - e)) in *.
    assert (Hs : 99 / 100 <= s0 <= 1) by (unfold e in *; nra).
    assert (Hn1 : n * (1 + s0) = 1 - s0) by (unfold n; fold s0; field; lra).
    nra. }
  clearbody n.
  step cheap. step cheap. step cheap.
  match goal with v := northing : R |- _ => rename v into yn end.
  assert (Hy1 : exists y1 : R,
             (if negb isNorthern then (Fin yn - lit 10000000.0)%js
              else Fin yn)
             = Fin y1 /\ -9000000 <= y1 <= 9000000).
  { destruct isNorthern; cbn [negb].
    - exists yn. split; [reflexivity | exact Hy].
    - eexists. split; [ideal_ops; literals; reflexivity|].
      unfold yn. lra. }
  destruct Hy1 as (y1 & -> & Hy1). clear Hy. clearbody yn.
  lazymatch goal with
  | |- P (let y0 := ?t in @?b y0) => change (P (b t)); cbv beta
  end.
  step cheap. step cheap. step cheap.
  assert (Hmu : -142 / 100 <= mu <= 142 / 100).
  { unfold mu.
    match goal with |- _ <= _ / ?d <= _ => set (den := d) end.
    assert (Hd : 6360000 <= den <= 6380000) by (unfold den, a, e; lra).
    assert (HM : -9004000 <= M <= 9004000) by (unfold M, k0; lra).
    assert (Hq : M / den * den = M) by (field; lra).
    set (q := M / den) in *. nra. }
  clearbody mu.
  step cheap.
  assert (Hphi : -3 / 2 < phi1Rad < 3 / 2).
  { unfold phi1Rad.
    pose proof (SIN_bound (2 * mu)). pose proof (SIN_bound (4 * mu)).
    pose proof (SIN_bound (6 * mu)).
    set (s2 := sin (2 * mu)) in *. set (s4 := sin (4 * mu)) in *.
    set (s6 := sin (6 * mu)) in *.
    replace (n ^ 3) with (n * (n * n)) by ring.
    replace (n ^ 4) with (n * n * (n * n)) by ring.
    replace (21 * n * n) with (21 * (n * n)) by ring.
    assert (Hm : 0 <= n * n <= 1 / 10000) by nra.
    set (m := n * n) in *.
    assert (Hnm : 0 <= n * m <= 1 / 10000) by nra.
    assert (Hmm : 0 <= m * m <= 1 / 10000) by nra.
    set (c1 := 3 * n / 2 - 27 * (n * m) / 32).
    set (c2 := 21 * m / 16 - 55 * (m * m) / 32).
    set (c3 := 151 * (n * m) / 96).
    assert (Hc1 : -2 / 100 <= c1 <= 2 / 100) by (unfold c1; lra).
    assert (Hc2 : -1 / 100 <= c2 <= 1 / 100) by (unfold c2; lra).
    assert (Hc3 : -1 / 100 <= c3 <= 1 / 100) by (unfold c3; lra).
    clearbody c1 c2 c3 s2 s4 s6. nra. }
  assert (Hcos : cos phi1Rad <> 0).
  { apply Rgt_not_eq, Rlt_gt, cos_gt_0; pose proof PI2_3_2; lra. }
  clearbody phi1Rad.
  step cheap.
  step full.
  assert (Hrho : 0 < rho1Calc) by (unfold rho1Calc, a, e, phi1; positive).
  clearbody rho1Calc.
  step full.
  assert (Hnu : 0 < nu1Calc) by (unfold nu1Calc, a, e, phi1; positive).
  clearbody nu1Calc.
  step cheap. step cheap. step full. step full. step full.
  ideal_ops. literals. eval_with cheap. apply HP.
Qed.

Lemma utmToGeographic_finite (easting northing zoneNumber : R)
      (isNorthern : bool) (s : string) :
  utmToGeographic_zone s = Ok (Fin zoneNumber, isNorthern) ->
  Rabs (if isNorthern then northing else northing - 10000000) <= 9000000 ->
  exists la lo : R,
    utmToGeographic {| x := Fin easting; y := Fin northing; zone := s |} =
    Ok {| lat := Fin la; lng := Fin lo |}.
Proof.
  intros Hz Hy.
  apply (utmToGeographic_within
           (fun r => exists la lo : R,
                       r = Ok {| lat := Fin la; lng := Fin lo |})
           easting northing zoneNumber isNorthern s Hz Hy).
  eauto.
Qed.

(** On the false easting the longitude is the central meridian of the
    zone. *)
Lemma central_meridian_longitude (northing zoneNumber : R)
      (isNorthern : bool) (s : string) :
  utmToGeographic_zone s = Ok (Fin zoneNumber, isNorthern) ->
  Rabs (if isNorthern then northing else northing - 10000000) <= 9000000 ->
  exists la : R,
    utmToGeographic {| x := Fin 500000; y := Fin northing; zone := s |} =
    Ok {| lat := Fin la; lng := Fin (6 * zoneNumber - 183) |}.
Proof.
  intros Hz Hy.
  destruct (utmToGeographic_finite 500000 northing _ _ _ Hz Hy)
    as (la & lo & H1).
  exists la. rewrite H1. do 3 f_equal.
  pose proof (utmToGeographic_mirror 0 zoneNumber la lo (Fin northing) s
                isNorthern Hz) as Hm.
  replace (500000 + 0) with 500000 in Hm by ring.
  replace (500000 - 0) with 500000 in Hm by ring.
  specialize (Hm H1). rewrite H1 in Hm. injection Hm as Hm. lra.
Qed.

End FootpointFacts.

(** ** The Haversine distance *)

Module HaversineFacts.

Import IdealFacts CentroidFacts DistanceFacts ValidatorFacts GeographicFacts.
Local Open Scope R_scope.

(** The quantity under the square root, for two points in degrees. *)
Definition chord (lat1 lng1 lat2 lng2 : R) : R :=
  sin ((lat2 - lat1) * PI / 180 / 2) * sin ((lat2 - lat1) * PI / 180 / 2) +
  cos (lat1 * PI / 180) * cos (lat2 * PI / 180) *
  (sin ((lng2 - lng1) * PI / 180 / 2) * sin ((lng2 - lng1) * PI / 180 / 2)).

Lemma haversine_chord (lat1 lng1 lat2 lng2 : R) :
  haversine lat1 lng1 lat2 lng2 =
  2 * 6371000 * asin (R_sqrt.sqrt (chord lat1 lng1 lat2 lng2)).
Proof. reflexivity. Qed.

Lemma chord_bounds (lat1 lng1 lat2 lng2 : R) :
  0 <= chord lat1 lng1 lat2 lng2 <= 1.
Proof.
  pose proof (hav_bounds (lat1 * PI / 180) (lat2 * PI / 180)
                ((lng2 - lng1) * PI / 180)) as H.
  unfold chord.
  replace ((lat2 - lat1) * PI / 180 / 2)
    with ((lat2 * PI / 180 - lat1 * PI / 180) / 2) by field.
  lra.
Qed.

Lemma asin_nonneg (t : R) : 0 <= t <= 1 -> 0 <= asin t <= PI / 2.
Proof.
  intros Ht. pose proof (asin_bound t) as Hb. split; [|lra].
  destruct (Rle_dec 0 (asin t)) as [|Hneg]; [assumption|].
  exfalso. assert (Hs : sin (asin t) < 0).
  { apply sin_lt_0_var; pose proof PI_RGT_0; lra. }
  rewrite sin_asin in Hs by lra. lra.
Qed.

Lemma sqrt_unit (h : R) : 0 <= h <= 1 -> 0 <= R_sqrt.sqrt h <= 1.
Proof.
  intros Hh. split; [apply sqrt_pos|].
  rewrite <- sqrt_1. apply sqrt_le_1_alt. lra.
Qed.

Lemma asin_abs_sin (a : R) :
  Rabs a <= PI / 2 -> asin (Rabs (sin a)) = Rabs a.
Proof.
  intros Ha. pose proof PI_RGT_0 as Hpi. apply TaylorFacts.Rabs_bounds in Ha.
  destruct (Rlt_dec a 0) as [Hneg|Hpos].
  - assert (Hs : sin a < 0) by (apply sin_lt_0_var; lra).
    rewrite (Rabs_left (sin a)), (Rabs_left a) by assumption.
    rewrite <- sin_neg. apply asin_sin. lra.
  - assert (Hs : 0 <= sin a) by (apply sin_ge_0; lra).
    rewrite (Rabs_right (sin a)), (Rabs_right a) by lra.
    apply asin_sin. lra.
Qed.

Lemma asin_sqrt_square (a : R) :
  Rabs a <= PI / 2 -> asin (R_sqrt.sqrt (sin a * sin a)) = Rabs a.
Proof.
  intros Ha. change (sin a * sin a) with (Rsqr (sin a)).
  rewrite sqrt_Rsqr_abs. now apply asin_abs_sin.
Qed.

(** Along a meridian a degree of latitude is R pi / 180 metres. *)
Lemma haversine_meridian (lat1 lat2 lng0 : R) :
  Rabs (lat2 - lat1) <= 180 ->
  haversine lat1 lng0 lat2 lng0 = 6371000 * (Rabs (lat2 - lat1) * PI / 180).
Proof.
  intros Hd. rewrite haversine_chord. unfold chord.
  replace ((lng0 - lng0) * PI / 180 / 2) with 0 by lra.
  rewrite sin_0, Rmult_0_r, Rmult_0_r, Rplus_0_r.
  pose proof PI_RGT_0 as Hpi.
  assert (Ha : Rabs ((lat2 - lat1) * PI / 180 / 2) =
               Rabs (lat2 - lat1) * PI / 360).
  { replace ((lat2 - lat1) * PI / 180 / 2)
      with ((lat2 - lat1) * (PI / 360)) by field.
    rewrite Rabs_mult, (Rabs_right (PI / 360)) by lra. field. }
  rewrite asin_sqrt_square by (rewrite Ha; nra).
  rewrite Ha. field.
Qed.

(** Along the equator a degree of longitude is as much. *)
Lemma haversine_equator (lng1 lng2 : R) :
  Rabs (lng2 - lng1) <= 180 ->
  haversine 0 lng1 0 lng2 = 6371000 * (Rabs (lng2 - lng1) * PI / 180).
Proof.
  intros Hd. rewrite haversine_chord. unfold chord.
  replace ((0 - 0) * PI / 180 / 2) with 0 by lra.
  replace (0 * PI / 180) with 0 by lra.
  rewrite sin_0, cos_0, Rmult_0_r, Rplus_0_l, !Rmult_1_l.
  pose proof PI_RGT_0 as Hpi.
  assert (Ha : Rabs ((lng2 - lng1) * PI / 180 / 2) =
               Rabs (lng2 - lng1) * PI / 360).
  { replace ((lng2 - lng1) * PI / 180 / 2)
      with ((lng2 - lng1) * (PI / 360)) by field.
    rewrite Rabs_mult, (Rabs_right (PI / 360)) by lra. field. }
  rewrite asin_sqrt_square by (rewrite Ha; nra).
  rewrite Ha. field.
Qed.

(** A longitude and the same longitude a full turn further are at the same
    distance from every point. *)
Lemma haversine_full_turn (lat1 lng1 lat2 lng2 : R) :
  haversine lat1 lng1 lat2 (lng2 + 360) = haversine lat1 lng1 lat2 lng2.
Proof.
  rewrite !haversine_chord. do 3 f_equal. unfold chord.
  replace ((lng2 + 360 - lng1) * PI / 180 / 2)
    with ((lng2 - lng1) * PI / 180 / 2 + PI) by field.
  rewrite neg_sin. ring.
Qed.

Lemma sin_zero_small (t : R) : Rabs t <= PI / 2 -> sin t = 0 -> t = 0.
Proof.
  intros Ht Hs. apply TaylorFacts.Rabs_bounds in Ht.
  pose proof PI_RGT_0. apply sin_inj; [lra | lra |]. now rewrite sin_0.
Qed.

Lemma sin_zero_turn (t : R) :
  Rabs t <= PI -> sin t = 0 -> t = 0 \/ t = PI \/ t = - PI.
Proof.
  intros Ht Hs. apply TaylorFacts.Rabs_bounds in Ht. pose proof PI_RGT_0 as Hpi.
  destruct (sin_eq_0_0 t Hs) as (k & Hk).
  assert (Hk1 : (-1 <= k <= 1)%Z).
  { split; [apply (le_IZR (-1)) | apply (le_IZR k 1)]; nra. }
  assert (Hc : k = (-1)%Z \/ k = 0%Z \/ k = 1%Z) by lia.
  destruct Hc as [-> | [-> | ->]]; lra.
Qed.

Lemma cos_zero_quarter (t : R) :
  Rabs t <= PI / 2 -> cos t = 0 -> t = PI / 2 \/ t = - (PI / 2).
Proof.
  intros Ht Hc. apply TaylorFacts.Rabs_bounds in Ht. pose proof PI_RGT_0 as Hpi.
  destruct (Req_dec t (PI / 2)) as [|Hne1]; [auto|].
  destruct (Req_dec t (- (PI / 2))) as [|Hne2]; [auto|].
  exfalso. assert (0 < cos t) by (apply cos_gt_0; lra). lra.
Qed.

(** Two points at distance 0: the same latitude; and the same longitude,
    unless the latitude is a pole or the longitudes are a full turn apart. *)
Lemma haversine_zero (lat1 lng1 lat2 lng2 : R) :
  -90 <= lat1 <= 90 -> -90 <= lat2 <= 90 ->
  -180 <= lng1 <= 180 -> -180 <= lng2 <= 180 ->
  haversine lat1 lng1 lat2 lng2 = 0 ->
  lat2 = lat1 /\
  (lng2 = lng1 \/ Rabs lat1 = 90 \/ Rabs (lng2 - lng1) = 360).
Proof.
  intros H1 H2 H3 H4 Hd. rewrite haversine_chord in Hd.
  pose proof (chord_bounds lat1 lng1 lat2 lng2) as Hc.
  pose proof (sqrt_unit _ Hc) as Hs. pose proof PI_RGT_0 as Hpi.
  assert (Ha : asin (R_sqrt.sqrt (chord lat1 lng1 lat2 lng2)) = 0) by lra.
  assert (Hq : R_sqrt.sqrt (chord lat1 lng1 lat2 lng2) = 0).
  { rewrite <- (sin_asin (R_sqrt.sqrt _)) by lra. rewrite Ha. apply sin_0. }
  assert (Hh : chord lat1 lng1 lat2 lng2 = 0).
  { apply sqrt_eq_0; [lra | exact Hq]. }
  clear Hd Ha Hq Hs Hc. unfold chord in Hh.
  set (a := (lat2 - lat1) * PI / 180 / 2) in *.
  set (b := (lng2 - lng1) * PI / 180 / 2) in *.
  set (p1 := lat1 * PI / 180) in *. set (p2 := lat2 * PI / 180) in *.
  assert (Hp1 : 0 <= cos p1) by (apply cos_ge_0; unfold p1; nra).
  assert (Hp2 : 0 <= cos p2) by (apply cos_ge_0; unfold p2; nra).
  assert (Hcc : 0 <= cos p1 * cos p2) by now apply Rmult_le_pos.
  assert (Hbb : 0 <= sin b * sin b) by apply Rle_0_sqr.
  assert (Haa : 0 <= sin a * sin a) by apply Rle_0_sqr.
  assert (Hcb : 0 <= cos p1 * cos p2 * (sin b * sin b))
    by now apply Rmult_le_pos.
  assert (Hsa : sin a = 0).
  { destruct (Rmult_integral (sin a) (sin a)); lra. }
  assert (Ha0 : a = 0).
  { apply sin_zero_small; [|exact Hsa]. apply Rabs_le. unfold a. nra. }
  assert (Hlat : lat2 = lat1) by (unfold a in Ha0; nra).
  split; [exact Hlat|].
  assert (Hprod : cos p1 * (cos p1 * (sin b * sin b)) = 0).
  { rewrite Hsa in Hh. unfold p2 in Hh. rewrite Hlat in Hh. fold p1 in Hh.
    lra. }
  destruct (Req_dec (cos p1) 0) as [Hc0|Hc0].
  - right. left.
    destruct (cos_zero_quarter p1) as [Hq|Hq];
      [apply Rabs_le; unfold p1; nra | exact Hc0 | |].
    + assert (Hl : lat1 = 90) by (unfold p1 in Hq; nra). rewrite Hl.
      apply Rabs_right. lra.
    + assert (Hl : lat1 = -90) by (unfold p1 in Hq; nra). rewrite Hl.
      rewrite Rabs_left by lra. lra.
  - assert (Hsb : sin b = 0).
    { destruct (Rmult_integral _ _ Hprod) as [|Hr]; [contradiction|].
      destruct (Rmult_integral _ _ Hr) as [|Hr']; [contradiction|].
      destruct (Rmult_integral _ _ Hr'); assumption. }
    destruct (sin_zero_turn b) as [Hb|[Hb|Hb]];
      [apply Rabs_le; unfold b; nra | exact Hsb | | |].
    + left. unfold b in Hb. nra.
    + right. right. assert (lng2 - lng1 = 360) by (unfold b in Hb; nra).
      rewrite Rabs_right; lra.
    + right. right. assert (lng2 - lng1 = -360) by (unfold b in Hb; nra).
      rewrite Rabs_left; lra.
Qed.

Lemma sin_square_eighth (t : R) : Rabs t <= PI / 4 -> sin t * sin t <= 1 / 2.
Proof.
  intros Ht. apply TaylorFacts.Rabs_bounds in Ht.
  assert (Hc : 0 <= cos (2 * t)) by (apply cos_ge_0; lra).
  rewrite cos_2a_sin in Hc. lra.
Qed.

Lemma cos_product (p q : R) :
  cos p * cos q <= 1 - sin ((q - p) / 2) * sin ((q - p) / 2).
Proof.
  pose proof (cos_plus p q) as H1. pose proof (cos_minus q p) as H2.
  pose proof (COS_bound (p + q)) as [_ H3].
  pose proof (cos_2a_sin ((q - p) / 2)) as H4.
  replace (2 * ((q - p) / 2)) with (q - p) in H4 by field.
  lra.
Qed.

(** Two points whose latitudes and longitudes differ by a quarter turn at
    most: the quantity under the square root is at most 3/4. *)
Lemma chord_near (lat1 lng1 lat2 lng2 : R) :
  Rabs (lat2 - lat1) <= 90 -> Rabs (lng2 - lng1) <= 90 ->
  chord lat1 lng1 lat2 lng2 <= 3 / 4.
Proof.
  intros Hla Hlo. unfold chord. pose proof PI_RGT_0 as Hpi.
  assert (Hs : Rabs ((lat2 - lat1) * PI / 180 / 2) <= PI / 4).
  { replace ((lat2 - lat1) * PI / 180 / 2)
      with ((lat2 - lat1) * (PI / 360)) by field.
    rewrite Rabs_mult, (Rabs_right (PI / 360)) by lra. nra. }
  assert (Ht : Rabs ((lng2 - lng1) * PI / 180 / 2) <= PI / 4).
  { replace ((lng2 - lng1) * PI / 180 / 2)
      with ((lng2 - lng1) * (PI / 360)) by field.
    rewrite Rabs_mult, (Rabs_right (PI / 360)) by lra. nra. }
  apply sin_square_eighth in Hs, Ht.
  pose proof (cos_product (lat1 * PI / 180) (lat2 * PI / 180)) as Hc.
  replace ((lat2 * PI / 180 - lat1 * PI / 180) / 2)
    with ((lat2 - lat1) * PI / 180 / 2) in Hc by field.
  set (s := sin ((lat2 - lat1) * PI / 180 / 2) *
            sin ((lat2 - lat1) * PI / 180 / 2)) in *.
  set (t := sin ((lng2 - lng1) * PI / 180 / 2) *
            sin ((lng2 - lng1) * PI / 180 / 2)) in *.
  set (c := cos (lat1 * PI / 180) * cos (lat2 * PI / 180)) in *.
  assert (H0s : 0 <= s) by (unfold s; nra).
  assert (H0t : 0 <= t) by (unfold t; nra).
  nra.
Qed.

Lemma asin_three_quarters (h : R) :
  0 <= h <= 3 / 4 -> 0 <= asin (R_sqrt.sqrt h) <= PI / 3.
Proof.
  intros Hh. pose proof PI_RGT_0 as Hpi.
  assert (Hu : 0 <= R_sqrt.sqrt h <= 1) by (apply sqrt_unit; lra).
  pose proof (asin_nonneg _ Hu) as Ha. split; [lra|].
  apply sin_incr_0; try lra.
  rewrite sin_asin by lra. rewrite sin_PI3.
  assert (H3 : R_sqrt.sqrt h <= R_sqrt.sqrt (3 / 4))
    by (apply sqrt_le_1_alt; lra).
  replace (R_sqrt.sqrt 3 / 2) with (R_sqrt.sqrt (3 / 4)); [exact H3|].
  rewrite sqrt_div_alt by lra.
  replace 4 with (2 * 2) by ring. now rewrite sqrt_square by lra.
Qed.

Lemma haversine_near (lat1 lng1 lat2 lng2 : R) :
  Rabs (lat2 - lat1) <= 90 -> Rabs (lng2 - lng1) <= 90 ->
  0 <= haversine lat1 lng1 lat2 lng2 <= 6371000 * (2 * PI / 3).
Proof.
  intros Hla Hlo. rewrite haversine_chord.
  pose proof (chord_bounds lat1 lng1 lat2 lng2) as [H0 _].
  pose proof (chord_near lat1 lng1 lat2 lng2 Hla Hlo) as H1.
  pose proof (asin_three_quarters _ (conj H0 H1)). lra.
Qed.

End HaversineFacts.

(** ** Symmetries of the centroid *)

Module CentroidSymmetry.

Import IdealFacts CentroidFacts ParityFacts.
Local Open Scope R_scope.

Lemma add_0_r (a : ideal) : Ideal.add a (Fin 0) = a.
Proof. rewrite add_comm. apply add_0_l. Qed.

Lemma sum_rev (l : list ideal) : sum (rev l) = sum l.
Proof.
  induction l as [|a l IH]; [reflexivity|].
  cbn [rev]. rewrite sum_app, IH, sum_cons, sum_cons, sum_nil, add_0_r.
  apply add_comm.
Qed.

Lemma sum_neg (l : list ideal) : sum (map Ideal.neg l) = Ideal.neg (sum l).
Proof.
  induction l as [|a l IH].
  - cbn [map]. rewrite sum_nil. cbn [Ideal.neg]. f_equal. lra.
  - cbn [map]. rewrite !sum_cons, IH. ideal_ops. now rewrite neg_add.
Qed.

(** *** The ring read backwards *)

Definition swap (pq : PolygonPoint ideal * PolygonPoint ideal)
  : PolygonPoint ideal * PolygonPoint ideal := (snd pq, fst pq).

Lemma chain_rev (l : list (PolygonPoint ideal)) (a z : PolygonPoint ideal) :
  chain (z :: rev l) a = rev (map swap (chain (a :: l) z)).
Proof.
  revert a. induction l as [|b l IH]; intros a; [reflexivity|].
  cbn [rev].
  change (z :: rev l ++ [b]) with ((z :: rev l) ++ b :: []).
  rewrite chain_app, IH.
  change (chain (a :: b :: l) z) with ((a, b) :: chain (b :: l) z).
  reflexivity.
Qed.

Lemma cyclic_pairs_rev (p : PolygonPoint ideal)
      (rest : list (PolygonPoint ideal)) :
  cyclic_pairs (p :: rev rest) = rev (map swap (cyclic_pairs (p :: rest))).
Proof. rewrite !cyclic_pairs_chain. apply chain_rev. Qed.

Lemma swapped_cross (pq : PolygonPoint ideal * PolygonPoint ideal) :
  cross (swap pq) = Ideal.neg (cross pq).
Proof. destruct pq as [p q]. apply cross_swap. Qed.

Lemma swapped_sums (f : PolygonPoint ideal -> ideal)
      (C : list (PolygonPoint ideal * PolygonPoint ideal)) :
  sum (map (fun pq => mul (add (f (fst pq)) (f (snd pq))) (cross pq))
           (rev (map swap C))) =
  Ideal.neg
    (sum (map (fun pq => mul (add (f (fst pq)) (f (snd pq))) (cross pq)) C)).
Proof.
  rewrite map_rev, sum_rev, map_map, <- sum_neg, map_map.
  f_equal. apply map_ext. intros pq. rewrite swapped_cross.
  unfold swap. cbn [fst snd]. ideal_ops.
  now rewrite mul_neg_r, (add_comm (f (snd pq))).
Qed.

Lemma swapped_area (C : list (PolygonPoint ideal * PolygonPoint ideal)) :
  sum (map cross (rev (map swap C))) = Ideal.neg (sum (map cross C)).
Proof.
  rewrite map_rev, sum_rev, map_map, <- sum_neg, map_map.
  f_equal. apply map_ext. intros pq. apply swapped_cross.
Qed.

(** A quotient of two opposites, the divisor not an exact zero. *)
Lemma div_neg_neg (S B : ideal) :
  B <> Fin 0 -> Ideal.div (Ideal.neg S) (Ideal.neg B) = Ideal.div S B.
Proof.
  intros HB. destruct S as [s|[]|], B as [b|[]|]; try reflexivity;
    assert (Hb : b <> 0) by (intros ->; now apply HB);
    cbn [Ideal.neg Ideal.div];
    destruct (Req_dec_T (- b) 0), (Req_dec_T b 0); try lra;
    rewrite ?(Rltb_opp b Hb); try (f_equal; now field);
    destruct (Ideal.Rltb b 0); reflexivity.
Qed.

Lemma denominator_zero (A : ideal) :
  Ideal.mul (Fin (Q2R 6)) (Ideal.mul A (Fin (Q2R 0.5))) = Fin 0 ->
  Ideal.mul (Fin (Q2R 0.5)) A = Fin 0.
Proof.
  destruct A as [a|s|]; cbn [Ideal.mul]; unfold Ideal.scale_inf.
  - intros [= H]. f_equal. unfold Q2R in *. simpl in *. lra.
  - destruct (Req_dec_T (Q2R 0.5) 0); cbn [Ideal.mul];
      unfold Ideal.scale_inf; [discriminate|].
    destruct (Req_dec_T (Q2R 6) 0); discriminate.
  - discriminate.
Qed.

(** The ring read in the other direction: every sum changes sign, and the
    quotients are the same, unless the area is an exact zero. *)
Lemma centroid_reverse (polygon : list (PolygonPoint ideal)) :
  signed_area polygon <> Fin 0 ->
  calculatePolygonCentroid (rev polygon) = calculatePolygonCentroid polygon.
Proof.
  intros Harea. destruct polygon as [|p [|q rest]]; try reflexivity.
  set (tail := q :: rest) in *.
  assert (Hlen : (2 <= length (p :: tail))%nat) by (simpl; lia).
  cbn [rev].
  rewrite (centroid_rotate [p] (rev tail))
    by (rewrite length_app, length_rev; simpl; lia).
  change ([p] ++ rev tail) with (p :: rev tail).
  rewrite (centroid_sums (p :: rev tail))
    by (cbn [length]; rewrite length_rev; unfold tail; simpl; lia).
  rewrite (centroid_sums (p :: tail)) by assumption.
  rewrite cyclic_pairs_rev, !swapped_sums, swapped_area.
  rewrite mul_neg_l, mul_neg_r.
  rewrite !div_neg_neg; [reflexivity | |];
    intros H0; apply Harea; unfold signed_area; ideal_ops;
    now apply denominator_zero.
Qed.

(** *** The ring closed by its first vertex *)

Lemma closed_ring_pairs (p : PolygonPoint ideal)
      (rest : list (PolygonPoint ideal)) :
  cyclic_pairs (p :: rest ++ [p]) = cyclic_pairs (p :: rest) ++ [(p, p)].
Proof.
  rewrite !cyclic_pairs_chain.
  change (p :: rest ++ [p]) with ((p :: rest) ++ p :: []).
  now rewrite chain_app.
Qed.

Lemma sum_closed (T : PolygonPoint ideal * PolygonPoint ideal -> ideal)
      (C : list (PolygonPoint ideal * PolygonPoint ideal))
      (p : PolygonPoint ideal) :
  T (p, p) = Fin 0 -> sum (map T (C ++ [(p, p)])) = sum (map T C).
Proof.
  intros HT. rewrite map_app, sum_app. cbn [map].
  now rewrite sum_cons, sum_nil, HT, !add_0_r.
Qed.

Lemma centroid_closed_ring (la lo : R) (rest : list (PolygonPoint ideal)) :
  rest <> [] ->
  calculatePolygonCentroid
    ({| lat := Fin la; lng := Fin lo |} :: rest ++
     [{| lat := Fin la; lng := Fin lo |}]) =
  calculatePolygonCentroid ({| lat := Fin la; lng := Fin lo |} :: rest).
Proof.
  intros Hne. set (p := {| lat := Fin la; lng := Fin lo |}).
  assert (Hlen : (2 <= length (p :: rest))%nat)
    by (destruct rest; [congruence | simpl; lia]).
  rewrite (centroid_sums (p :: rest ++ [p]))
    by (simpl; rewrite length_app; simpl; lia).
  rewrite (centroid_sums (p :: rest)) by assumption.
  rewrite closed_ring_pairs.
  assert (Hc : cross (p, p) = Fin 0)
    by (unfold cross, p; cbn [lat lng]; ideal_ops;
        cbn [Ideal.sub Ideal.add Ideal.neg Ideal.mul]; f_equal; ring).
  rewrite !sum_closed; try reflexivity; try exact Hc;
    unfold cross, p; cbn [fst snd lat lng]; ideal_ops;
    cbn [Ideal.sub Ideal.add Ideal.neg Ideal.mul]; f_equal; ring.
Qed.

(** *** Polygons of finite vertices *)

Definition finite_point (p : PolygonPoint ideal) : Prop :=
  exists la lo : R, p = {| lat := Fin la; lng := Fin lo |}.

Definition real (a : ideal) : R :=
  match a with Fin r => r | _ => 0 end.

Definition pair_of_points : Type := (PolygonPoint ideal * PolygonPoint ideal)%type.

(** The cross term and the two weighted terms of a pair, as real numbers. *)
Definition area_term (pq : pair_of_points) : R :=
  real (lng (fst pq)) * real (lat (snd pq)) -
  real (lng (snd pq)) * real (lat (fst pq)).

Definition lat_term (pq : pair_of_points) : R :=
  (real (lat (fst pq)) + real (lat (snd pq))) * area_term pq.

Definition lng_term (pq : pair_of_points) : R :=
  (real (lng (fst pq)) + real (lng (snd pq))) * area_term pq.

Definition total (l : list R) : R := fold_right Rplus 0 l.

Lemma cross_finite (pq : pair_of_points) :
  finite_point (fst pq) -> finite_point (snd pq) ->
  cross pq = Fin (area_term pq) /\
  mul (add (lat (fst pq)) (lat (snd pq))) (cross pq) = Fin (lat_term pq) /\
  mul (add (lng (fst pq)) (lng (snd pq))) (cross pq) = Fin (lng_term pq).
Proof.
  destruct pq as [p q]. cbn [fst snd].
  intros (la & lo & ->) (la' & lo' & ->).
  unfold cross, lat_term, lng_term, area_term. cbn [fst snd lat lng real].
  ideal_ops. cbn [Ideal.sub Ideal.add Ideal.neg Ideal.mul].
  repeat split; f_equal; ring.
Qed.

Lemma sum_finite (T : pair_of_points -> ideal) (TR : pair_of_points -> R)
      (C : list pair_of_points) :
  (forall pq, In pq C -> T pq = Fin (TR pq)) ->
  sum (map T C) = Fin (total (map TR C)).
Proof.
  induction C as [|pq C IH]; intros HT.
  - apply sum_nil.
  - cbn [map total fold_right]. rewrite sum_cons, (HT pq) by (left; reflexivity).
    rewrite IH by (intros; apply HT; now right). reflexivity.
Qed.

Lemma in_chain (l : list (PolygonPoint ideal)) (z : PolygonPoint ideal)
      (pq : pair_of_points) :
  In pq (chain l z) ->
  In (fst pq) l /\ (In (snd pq) l \/ snd pq = z).
Proof.
  induction l as [|p [|q rest] IH]; cbn [chain]; intros Hin.
  - contradiction.
  - destruct Hin as [<-|[]]. cbn [fst snd]. split; [now left | now right].
  - destruct Hin as [<-|Hin].
    + cbn [fst snd]. split; [now left | left; right; now left].
    + destruct (IH Hin) as [H1 H2]. split; [now right|].
      destruct H2 as [H2|H2]; [left; now right | now right].
Qed.

Lemma in_cyclic_pairs (l : list (PolygonPoint ideal)) (pq : pair_of_points) :
  In pq (cyclic_pairs l) -> In (fst pq) l /\ In (snd pq) l.
Proof.
  destruct l as [|p rest]; [contradiction|].
  rewrite cyclic_pairs_chain. intros Hin.
  destruct (in_chain _ _ _ Hin) as [H1 [H2|H2]]; split; auto.
  rewrite H2. now left.
Qed.

(** The three sums of the loop on a polygon of finite vertices. *)
Lemma finite_sums (polygon : list (PolygonPoint ideal)) :
  Forall finite_point polygon ->
  sum (map cross (cyclic_pairs polygon)) =
    Fin (total (map area_term (cyclic_pairs polygon))) /\
  sum (map (fun pq => mul (add (lat (fst pq)) (lat (snd pq))) (cross pq))
           (cyclic_pairs polygon)) =
    Fin (total (map lat_term (cyclic_pairs polygon))) /\
  sum (map (fun pq => mul (add (lng (fst pq)) (lng (snd pq))) (cross pq))
           (cyclic_pairs polygon)) =
    Fin (total (map lng_term (cyclic_pairs polygon))).
Proof.
  intros Hfin. rewrite Forall_forall in Hfin.
  repeat split; apply sum_finite; intros pq Hin;
    destruct (in_cyclic_pairs _ _ Hin) as [H1 H2];
    apply cross_finite; auto.
Qed.

(** The centroid of a polygon of two finite vertices or more is finite
    exactly when the sum of the cross terms is not zero. *)
Lemma centroid_finite (polygon : list (PolygonPoint ideal)) (cla clo : R) :
  Forall finite_point polygon -> (2 <= length polygon)%nat ->
  calculatePolygonCentroid polygon = Ok {| lat := Fin cla; lng := Fin clo |}
  <->
  total (map area_term (cyclic_pairs polygon)) <> 0 /\
  cla = total (map lat_term (cyclic_pairs polygon)) /
        (3 * total (map area_term (cyclic_pairs polygon))) /\
  clo = total (map lng_term (cyclic_pairs polygon)) /
        (3 * total (map area_term (cyclic_pairs polygon))).
Proof.
  intros Hfin Hlen. rewrite (centroid_sums polygon Hlen).
  destruct (finite_sums polygon Hfin) as (-> & -> & ->).
  set (A := total (map area_term (cyclic_pairs polygon))).
  set (Sy := total (map lat_term (cyclic_pairs polygon))).
  set (Sx := total (map lng_term (cyclic_pairs polygon))).
  ideal_ops. cbn [Ideal.mul].
  assert (Hd : Q2R 6 * (A * Q2R 0.5) = 3 * A) by (unfold Q2R; simpl; lra).
  rewrite Hd. cbn [Ideal.div].
  destruct (Req_dec_T (3 * A) 0) as [H0|H0].
  - split.
    + intros H. destruct (Req_dec_T Sy 0); discriminate H.
    + intros (HA & _). lra.
  - split.
    + intros [= <- <-]. repeat split. lra.
    + intros (_ & -> & ->). reflexivity.
Qed.

(** *** Triangles *)

Lemma centroid_triangle (la1 lo1 la2 lo2 la3 lo3 cla clo : R) :
  calculatePolygonCentroid
    [ {| lat := Fin la1; lng := Fin lo1 |};
      {| lat := Fin la2; lng := Fin lo2 |};
      {| lat := Fin la3; lng := Fin lo3 |} ] =
  Ok {| lat := Fin cla; lng := Fin clo |} ->
  cla = (la1 + la2 + la3) / 3 /\ clo = (lo1 + lo2 + lo3) / 3.
Proof.
  intros Hc. apply centroid_finite in Hc as (HA & -> & ->).
  - revert HA. cbn. unfold lat_term, lng_term, area_term. cbn.
    intros HA. split; field; intros H0; apply HA; lra.
  - repeat constructor; unfold finite_point; eauto.
  - simpl. lia.
Qed.

End CentroidSymmetry.

(** ** The conversions on the Dominican Republic *)

Module RegionFacts.

Import Interval IntervalFacts Taylor TaylorFacts Grid GridFacts Region.
Import ValidatorFacts.
Local Open Scope R_scope.

Lemma inside_sound (d1 d2 : R) (e : enclosure) (a b : Z) (v : ideal) :
  inside e a b = true -> represents d1 d2 e v ->
  exists r : R, v = Fin r /\ IZR a <= r <= IZR b.
Proof.
  unfold inside. destruct e as [|k|f]; cbn [span represents]; intros Hin Hv.
  - exact (False_ind _ (Bool.diff_false_true Hin)).
  - destruct Hv as (r & -> & Hr). exists r. split; [reflexivity|].
    pose proof (contains_subset _ _ _ Hin Hr) as H.
    unfold contains in H. cbn [lo hi] in H. now rewrite !val_of_Z in H.
  - destruct Hv as (r & -> & Hr). exists r. split; [reflexivity|].
    destruct Hr as (c0 & a1 & a2 & a11 & a12 & a22 & Hr).
    pose proof (contains_subset _ _ _ Hin
                  (proj2 (proj2 (proj2 (proj2 (proj2 (proj2 (proj2
                     (proj2 Hr))))))))) as H.
    unfold contains in H. cbn [lo hi] in H. now rewrite !val_of_Z in H.
Qed.

Lemma inside_pair_sound (d1 d2 : R) (p : enclosure * enclosure)
      (q : ideal * ideal) (a b c d : Z) :
  inside_pair p a b c d = true -> related_pair d1 d2 p q ->
  exists E N0 : R,
    q = (Fin E, Fin N0) /\ IZR a <= E <= IZR b /\ IZR c <= N0 <= IZR d.
Proof.
  unfold inside_pair. intros Hin (H1 & H2).
  apply andb_true_iff in Hin as (Hi1 & Hi2).
  destruct (inside_sound _ _ _ _ _ _ Hi1 H1) as (E & HE & HbE).
  destruct (inside_sound _ _ _ _ _ _ Hi2 H2) as (N0 & HN & HbN).
  exists E, N0. destruct q as [u v]. cbn [fst snd] in *. subst. auto.
Qed.

Lemma inside_point_sound (d1 d2 : R)
      (r : Result (GeographicCoordinates enclosure))
      (q : Result (GeographicCoordinates ideal)) (a b c d : Z) :
  inside_point r a b c d = true -> related_point d1 d2 r q ->
  exists la lo : R,
    q = Ok {| lat := Fin la; lng := Fin lo |} /\
    IZR a <= la <= IZR b /\ IZR c <= lo <= IZR d.
Proof.
  unfold inside_point, related_point.
  destruct r as [g|m]; [|intros Hin; exact (False_ind _ (Bool.diff_false_true Hin))].
  destruct q as [h|m]; [|intros _ []].
  intros Hin (H1 & H2). apply andb_true_iff in Hin as (Hi1 & Hi2).
  destruct (inside_sound _ _ _ _ _ _ Hi1 H1) as (la & Hla & Hbla).
  destruct (inside_sound _ _ _ _ _ _ Hi2 H2) as (lo & Hlo & Hblo).
  exists la, lo. destruct h as [u v]. cbn [lat lng] in *. subst. auto.
Qed.

(** The series of geographicToUtm on a cell. *)
Lemma series_on_cell (w1 w2 c1 c2 : bigZ) (a b c d : Z) (la lo : R) :
  Rabs (la - val c1) <= val w1 ->
  Rabs (lo - val c2) <= val w2 ->
  inside_pair
    (@geographicToUtm_series enclosure (enclosure_number (cell_of w1 w2))
       {| lat := variable (cell_of w1 w2) c1 true;
          lng := variable (cell_of w1 w2) c2 false |}) a b c d = true ->
  exists E N0 : R,
    geographicToUtm_series {| lat := Fin la; lng := Fin lo |} =
    (Fin E, Fin N0) /\
    IZR a <= E <= IZR b /\ IZR c <= N0 <= IZR d.
Proof.
  intros H1 H2 Hin.
  destruct (cell_offsets _ _ _ _ H1 H2) as (O1 & O2 & O11 & O12 & O22).
  pose proof (geographicToUtm_series_enclosed _ _ _ O1 O2 O11 O12 O22 _ _ _ _
                (represents_latitude _ _ _ O1 O2 O11 O12 O22 c1)
                (represents_longitude _ _ _ O1 O2 O11 O12 O22 c2)) as Hr.
  pose proof (inside_pair_sound _ _ _ _ _ _ _ _ Hin Hr) as H.
  replace (val c1 + (la - val c1)) with la in H by ring.
  replace (val c2 + (lo - val c2)) with lo in H by ring.
  exact H.
Qed.

(** utmToGeographic in zone 19N on a cell. *)
Lemma inverse_on_cell (w1 w2 c1 c2 : bigZ) (a b c d : Z) (e n : R) :
  Rabs (e - val c1) <= val w1 ->
  Rabs (n - val c2) <= val w2 ->
  inside_point
    (@utmToGeographic enclosure (enclosure_number (cell_of w1 w2))
       {| x := variable (cell_of w1 w2) c1 true;
          y := variable (cell_of w1 w2) c2 false;
          zone := "19N" |}) a b c d = true ->
  exists la lo : R,
    utmToGeographic {| x := Fin e; y := Fin n; zone := "19N" |} =
    Ok {| lat := Fin la; lng := Fin lo |} /\
    IZR a <= la <= IZR b /\ IZR c <= lo <= IZR d.
Proof.
  intros H1 H2 Hin.
  destruct (cell_offsets _ _ _ _ H1 H2) as (O1 & O2 & O11 & O12 & O22).
  pose proof (utmToGeographic_enclosed _ _ _ O1 O2 O11 O12 O22 _ _ _ _
                (represents_latitude _ _ _ O1 O2 O11 O12 O22 c1)
                (represents_longitude _ _ _ O1 O2 O11 O12 O22 c2)) as Hr.
  pose proof (inside_point_sound _ _ _ _ _ _ _ _ Hin Hr) as H.
  replace (val c1 + (e - val c1)) with e in H by ring.
  replace (val c2 + (n - val c2)) with n in H by ring.
  exact H.
Qed.

Lemma val_mid_latitude : val mid_latitude = 75 / 4.
Proof.
  unfold val, scaling.
  change (BigZ.to_Z mid_latitude) with 345876451382054092800%Z.
  change (2 ^ 64)%Z with 18446744073709551616%Z. lra.
Qed.

Lemma val_half_latitude : val half_latitude = 5 / 4.
Proof.
  unfold val, scaling.
  change (BigZ.to_Z half_latitude) with 23058430092136939520%Z.
  change (2 ^ 64)%Z with 18446744073709551616%Z. lra.
Qed.

Lemma val_mid_longitude : val mid_longitude = -70.
Proof. exact (val_of_Z (-70)). Qed.

Lemma val_half_longitude : val half_longitude = 2.
Proof. exact (val_of_Z 2). Qed.

Lemma val_mid_easting : val mid_easting = 550000.
Proof. exact (val_of_Z 550000). Qed.

Lemma val_half_easting : val half_easting = 250000.
Proof. exact (val_of_Z 250000). Qed.

Lemma val_mid_northing : val mid_northing = 2050000.
Proof. exact (val_of_Z 2050000). Qed.

Lemma val_half_northing : val half_northing = 150000.
Proof. exact (val_of_Z 150000). Qed.

Lemma forward_checked :
  inside_pair
    (@geographicToUtm_series enclosure
       (enclosure_number (cell_of half_latitude half_longitude))
       {| lat := variable (cell_of half_latitude half_longitude)
                          mid_latitude true;
          lng := variable (cell_of half_latitude half_longitude)
                          mid_longitude false |})
    181000 608000 1933000 2215000 = true.
Proof. vm_compute. reflexivity. Qed.

Lemma inverse_checked :
  inside_point
    (@utmToGeographic enclosure
       (enclosure_number (cell_of half_easting half_northing))
       {| x := variable (cell_of half_easting half_northing)
                        mid_easting true;
          y := variable (cell_of half_easting half_northing)
                        mid_northing false;
          zone := "19N" |})
    17 20 (-71) (-66) = true.
Proof. vm_compute. reflexivity. Qed.

(** In the box the series give an easting between 181,000 and 608,000 and
    a northing between 1,933,000 and 2,215,000. *)
Lemma series_in_region (la lo : R) :
  35 / 2 <= la <= 20 -> -72 <= lo <= -68 ->
  exists E N0 : R,
    geographicToUtm_series {| lat := Fin la; lng := Fin lo |} =
    (Fin E, Fin N0) /\
    181000 <= E <= 608000 /\ 1933000 <= N0 <= 2215000.
Proof.
  intros Hla Hlo.
  apply (series_on_cell half_latitude half_longitude mid_latitude
           mid_longitude 181000 608000 1933000 2215000 la lo).
  - rewrite val_mid_latitude, val_half_latitude. apply Rabs_le. lra.
  - rewrite val_mid_longitude, val_half_longitude. apply Rabs_le. lra.
  - exact forward_checked.
Qed.

Lemma inverse_in_region (e n : R) :
  300000 <= e <= 800000 -> 1900000 <= n <= 2200000 ->
  exists la lo : R,
    utmToGeographic {| x := Fin e; y := Fin n; zone := "19N" |} =
    Ok {| lat := Fin la; lng := Fin lo |} /\
    17 <= la <= 20 /\ -71 <= lo <= -66.
Proof.
  intros He Hn.
  apply (inverse_on_cell half_easting half_northing mid_easting
           mid_northing 17 20 (-71) (-66) e n).
  - rewrite val_mid_easting, val_half_easting. apply Rabs_le. lra.
  - rewrite val_mid_northing, val_half_northing. apply Rabs_le. lra.
  - exact inverse_checked.
Qed.

End RegionFacts.

(** ** The callers *)

Section MapFacts.

Context {num : Type} `{JsNumber num}.

Definition converted (point : UTMCoordinates num)
  : Result (GeographicCoordinates num) :=
  utmToGeographic {| x := x point; y := y point; zone := zone point |}.

(** No conversion throws: nothing is filtered out. *)
Lemma geographicPoints_all (points : list (UTMCoordinates num)) :
  map Ok (geographicPoints points) = map converted points.
Proof.
  unfold geographicPoints. induction points as [|point points IH].
  - reflexivity.
  - cbn [map]. fold (converted point).
    destruct (utmToGeographic_returns
                {| x := x point; y := y point; zone := zone point |})
      as (g & Hg).
    unfold converted at 1 2. rewrite Hg. cbn [orNull notNull map].
    now rewrite IH.
Qed.

Lemma geographicPoints_length (points : list (UTMCoordinates num)) :
  length (geographicPoints points) = length points.
Proof.
  rewrite <- (length_map Ok), geographicPoints_all. apply length_map.
Qed.

Lemma effect_drawn (points : list (UTMCoordinates num)) :
  points <> [] ->
  PolygonMapView_effect points =
  Drawn (geographicPoints points) (centerLat (geographicPoints points))
        (centerLng (geographicPoints points)).
Proof.
  intros Hne. unfold PolygonMapView_effect. rewrite geographicPoints_length.
  destruct points; [congruence | reflexivity].
Qed.

(** *** handleFileAnalysis *)

Lemma location_given (location : LocationResponse num) (la lo : num) :
  geographic_coordinates location =
  {| lat_or_null := Some la; lng_or_null := Some lo |} ->
  fst (handleFileAnalysis_location location) =
  geographic_coordinates location.
Proof.
  intros Hg. unfold handleFileAnalysis_location. rewrite Hg.
  cbn [lat_or_null lng_or_null isNullValue orb andb fst].
  destruct (utm_x (utm_coordinates location)),
    (utm_y (utm_coordinates location)); reflexivity.
Qed.

Lemma location_converted (location : LocationResponse num)
      (easting northing : num) :
  isNullValue (lat_or_null (geographic_coordinates location))
  || isNullValue (lng_or_null (geographic_coordinates location)) = true ->
  utm_x (utm_coordinates location) = Some easting ->
  utm_y (utm_coordinates location) = Some northing ->
  truthy easting = true -> truthy northing = true ->
  exists g,
    utmToGeographic {| x := easting; y := northing;
                       zone := utm_zone (utm_coordinates location) |} = Ok g /\
    fst (handleFileAnalysis_location location) =
    {| lat_or_null := Some (lat g); lng_or_null := Some (lng g) |} /\
    snd (handleFileAnalysis_location location) =
    (if isNullValue (lat_or_null (polygon_center location))
        || isNullValue (lng_or_null (polygon_center location))
     then {| lat_or_null := Some (lat g); lng_or_null := Some (lng g) |}
     else polygon_center location).
Proof.
  intros Hnull Hx Hy Hte Htn.
  destruct (utmToGeographic_returns
              {| x := easting; y := northing;
                 zone := utm_zone (utm_coordinates location) |}) as (g & Hg).
  exists g. split; [exact Hg|].
  unfold handleFileAnalysis_location. rewrite Hx, Hy, Hnull, Hte, Htn, Hg.
  cbn [andb fst snd lat_or_null lng_or_null isNullValue negb].
  rewrite !andb_true_r. auto.
Qed.

(** *** The points as parsed *)

Lemma utmToGeographic_parsed_throws (point : ParsedPoint num) :
  (exists g, utmToGeographic_parsed point = Ok g) <-> has_zone point = true.
Proof.
  unfold utmToGeographic_parsed, has_zone.
  destruct (zone_of point) as [s|].
  - split; [reflexivity|]. intros _. apply utmToGeographic_returns.
  - split; [intros [g Hg]; discriminate | discriminate].
Qed.

(** The points that remain are those whose zone is a string, converted, in
    order. *)
Lemma geographicPoints_parsed_all (points : list (ParsedPoint num)) :
  map Ok (geographicPoints_parsed points) =
  map utmToGeographic_parsed (filter has_zone points).
Proof.
  unfold geographicPoints_parsed.
  induction points as [|point points IH]; [reflexivity|].
  cbn [map filter]. unfold has_zone at 1, utmToGeographic_parsed at 1 3.
  destruct (zone_of point) as [s|] eqn:Hs.
  - destruct (utmToGeographic_returns
                {| x := x_of point; y := y_of point; zone := s |})
      as (g & Hg).
    rewrite Hg. cbn [orNull notNull map]. rewrite IH. f_equal.
    unfold utmToGeographic_parsed. now rewrite Hs, Hg.
  - cbn [orNull notNull]. exact IH.
Qed.

Lemma geographicPoints_parsed_length (points : list (ParsedPoint num)) :
  length (geographicPoints_parsed points) = length (filter has_zone points).
Proof.
  rewrite <- (length_map Ok), geographicPoints_parsed_all. apply length_map.
Qed.

Lemma filter_nil {A : Type} (f : A -> bool) (l : list A) :
  filter f l = [] <-> forallb (fun a => negb (f a)) l = true.
Proof.
  induction l as [|a l IH]; [simpl; tauto|].
  cbn [filter forallb]. destruct (f a); cbn [negb andb].
  - split; discriminate.
  - exact IH.
Qed.

(** The alert is shown exactly when there are points and none has a zone
    that is a string. *)
Lemma effect_parsed_alerted (points : list (ParsedPoint num)) :
  (exists message, PolygonMapView_effect_parsed points = Alerted message)
  <->
  points <> [] /\ forallb (fun point => negb (has_zone point)) points = true.
Proof.
  unfold PolygonMapView_effect_parsed.
  rewrite geographicPoints_parsed_length, <- filter_nil.
  destruct points as [|point points].
  - cbn. split; [intros [m Hm]; discriminate | intros [Hne _]; congruence].
  - cbn [length Nat.eqb].
    destruct (filter has_zone (point :: points)) as [|q l] eqn:Hf.
    + cbn. split; [intros _; split; [discriminate | reflexivity] | eauto].
    + cbn. split; [intros [m Hm]; discriminate | intros [_ Hn]; discriminate].
Qed.

Lemma geographicPoints_parsed_typed (points : list (UTMCoordinates num)) :
  geographicPoints_parsed (map parsed points) = geographicPoints points.
Proof.
  unfold geographicPoints_parsed, geographicPoints. now rewrite map_map.
Qed.

Lemma effect_parsed_typed (points : list (UTMCoordinates num)) :
  PolygonMapView_effect_parsed (map parsed points) =
  PolygonMapView_effect points.
Proof.
  unfold PolygonMapView_effect_parsed, PolygonMapView_effect.
  now rewrite geographicPoints_parsed_typed, length_map.
Qed.

End MapFacts.

Module CenterFacts.

Import IdealFacts CentroidFacts ValidatorFacts RegionFacts.
Local Open Scope R_scope.

(** The sum that [reduce] accumulates, for values between two bounds. *)
Lemma reduce_between (f : GeographicCoordinates ideal -> ideal)
      (l : list (GeographicCoordinates ideal)) (lo hi acc : R) :
  (forall p, In p l -> in_range (f p) lo hi) ->
  exists s : R,
    fold_left (fun sum point => Ideal.add sum (f point)) l (Fin acc) = Fin s /\
    acc + INR (length l) * lo <= s <= acc + INR (length l) * hi.
Proof.
  revert acc. induction l as [|p l IH]; intros acc Hall.
  - exists acc. split; [reflexivity|]. simpl. lra.
  - destruct (Hall p (or_introl eq_refl)) as (r & Hr & Hb).
    cbn [fold_left]. rewrite Hr. cbn [Ideal.add].
    destruct (IH (acc + r)) as (s & Hs & Hbs);
      [intros q Hq; apply Hall; now right|].
    exists s. split; [exact Hs|].
    change (length (p :: l)) with (S (length l)). rewrite S_INR. lra.
Qed.

Lemma mean_between (f : GeographicCoordinates ideal -> ideal)
      (l : list (GeographicCoordinates ideal)) (lo hi : R) :
  l <> [] ->
  (forall p, In p l -> in_range (f p) lo hi) ->
  in_range
    (div (fold_left (fun sum point => add sum (f point)) l (lit 0))
         (length_of l)) lo hi.
Proof.
  intros Hne Hall. unfold length_of. ideal_ops.
  rewrite Q2R_0, Q2R_inject_Z, <- INR_IZR_INZ.
  destruct (reduce_between f l lo hi 0 Hall) as (s & -> & Hs).
  assert (Hn : 0 < INR (length l)).
  { destruct l; [congruence|]. apply lt_0_INR. simpl. lia. }
  rewrite div_fin by lra. exists (s / INR (length l)).
  split; [reflexivity|].
  assert (Hq : s / INR (length l) * INR (length l) = s) by (field; lra).
  set (q := s / INR (length l)) in *. nra.
Qed.

Lemma center_between (vertices : list (GeographicCoordinates ideal))
      (a b c d : R) :
  vertices <> [] ->
  (forall p, In p vertices ->
             in_range (lat p) a b /\ in_range (lng p) c d) ->
  in_range (centerLat vertices) a b /\ in_range (centerLng vertices) c d.
Proof.
  intros Hne Hall. split.
  - apply (mean_between (fun p => lat p)); [exact Hne|].
    intros p Hp. now apply Hall.
  - apply (mean_between (fun p => lng p)); [exact Hne|].
    intros p Hp. now apply Hall.
Qed.

End CenterFacts.

(** ** Inputs for the examples *)

Module Examples.

Import IdealFacts CentroidFacts ValidatorFacts GeographicFacts.
Local Open Scope R_scope.

Lemma valid_utm :
  validateUtmCoordinates {| x := Fin 500000; y := Fin 0; zone := "19s" |}
  = true.
Proof.
  apply validateUtmCoordinates_spec; try discriminate. repeat split.
  - exists 19%Z. split; [|lia]. exists "19"%string, "s"%char.
    repeat split. now right.
  - exists 500000. split; [reflexivity | lra].
  - exists 0. split; [reflexivity | lra].
Qed.

Lemma valid_geographic (la lo : R) :
  -90 <= la <= 90 -> -180 <= lo <= 180 ->
  validateGeographicCoordinates {| lat := Fin la; lng := Fin lo |} = true.
Proof.
  intros Hla Hlo. apply validateGeographicCoordinates_spec. cbn [lat lng].
  split; [exists la | exists lo]; auto.
Qed.

Definition triangle : list (PolygonPoint ideal) :=
  [ {| lat := Fin 0; lng := Fin 0 |}; {| lat := Fin 0; lng := Fin 4 |};
    {| lat := Fin 3; lng := Fin 0 |} ].

Lemma triangle_finite : Forall CentroidSymmetry.finite_point triangle.
Proof. repeat constructor; unfold CentroidSymmetry.finite_point; eauto. Qed.

Lemma triangle_centroid :
  calculatePolygonCentroid triangle =
  Ok {| lat := Fin 1; lng := Fin (4 / 3) |}.
Proof.
  apply CentroidSymmetry.centroid_finite;
    [exact triangle_finite | simpl; lia |].
  cbn. unfold CentroidSymmetry.lat_term, CentroidSymmetry.lng_term,
         CentroidSymmetry.area_term. cbn.
  repeat split; try lra; field.
Qed.

Lemma triangle_area : signed_area triangle <> Fin 0.
Proof.
  unfold signed_area, triangle, cyclic_pairs.
  cbn [tl firstn app combine map]. rewrite !sum_cons, sum_nil.
  unfold cross. cbn [lat lng]. ideal_ops.
  cbn [Ideal.sub Ideal.add Ideal.neg Ideal.mul].
  intros [= H]. unfold Q2R in H. simpl in H. lra.
Qed.

Lemma truthy_finite (r : R) : r <> 0 -> truthy (Fin r) = true.
Proof.
  intros Hr. unfold truthy. ideal_ops. cbn [Ideal.lt]. rewrite Q2R_0.
  apply orb_true_iff. destruct (Rlt_dec r 0).
  - left. now apply Rltb_true.
  - right. apply Rltb_true. lra.
Qed.

(** A triangle with legs of some 11 m, in binary64. *)
Definition small_triangle : list (PolygonPoint float) :=
  [ {| lat := F64.literal 18.5; lng := F64.literal (-70) |};
    {| lat := F64.literal 18.5; lng := F64.literal (-69.9999) |};
    {| lat := F64.literal 18.5001; lng := F64.literal (-70) |} ].

Lemma small_triangle_outside (M : F64.MathLib) :
  exists c,
    @calculatePolygonCentroid float (float_number M) small_triangle = Ok c /\
    (lat c <? F64.literal 18.5)%float = true /\
    (F64.literal (-69.9999) <? lng c)%float = true.
Proof.
  eexists. split; [vm_compute; reflexivity|]. split; vm_compute; reflexivity.
Qed.
End Examples.

(** * The claims *)

Local Open Scope list_scope.

(** C1. In exact arithmetic, for every point of latitude 17.5 to 20 and
    longitude -72 to -68, [utmToGeographic (geographicToUtm p)] returns a
    point with finite coordinates whose distance from [p], as
    [calculateDistance] measures it, is at most 1 metre. *)
Theorem round_trip_within_one_metre :
  forall la lo : R,
    (35 / 2 <= la <= 20)%R -> (-72 <= lo <= -68)%R ->
    exists la' lo' d : R,
      utmToGeographic (geographicToUtm {| lat := Fin la; lng := Fin lo |}) =
      Ok {| lat := Fin la'; lng := Fin lo' |} /\
      calculateDistance {| lat := Fin la; lng := Fin lo |}
                        {| lat := Fin la'; lng := Fin lo' |} = Fin d /\
      (d <= 1)%R.
Proof.
  intros la lo Hla Hlo.
  destruct (GridFacts.round_trip_close la lo Hla Hlo)
    as (dla & dlo & Hr & Hd).
  exists (la + dla)%R, (lo + dlo)%R,
         (haversine la lo (la + dla) (lo + dlo)).
  split; [|split].
  - apply RoundTripFacts.round_trip_returns; [lra | lra | exact Hr].
  - apply DistanceFacts.distance_haversine.
  - apply RoundTripFacts.haversine_small.
    replace (la + dla - la)%R with dla by ring.
    replace (lo + dlo - lo)%R with dlo by ring.
    exact Hd.
Qed.

Lemma round_trip_within_one_metre_witness :
  exists la' lo' d : R,
    utmToGeographic (geographicToUtm {| lat := Fin 18; lng := Fin (-70) |}) =
    Ok {| lat := Fin la'; lng := Fin lo' |} /\
    calculateDistance {| lat := Fin 18; lng := Fin (-70) |}
                      {| lat := Fin la'; lng := Fin lo' |} = Fin d /\
    (d <= 1)%R.
Proof.
  apply round_trip_within_one_metre; lra.
Defined.

(** C2. A zone string other than "19Q", "19N" and "20N" that contains no
    <digits><N|S> pattern does not make [utmToGeographic] throw: the zone
    resolves to 19 in the northern hemisphere and the result is the one for
    zone "19N".  "19Q" and "19N" give the same result on every easting and
    northing; at easting 530478 and northing 2042873 both results are finite
    and their latitudes and longitudes differ by at most 0.0001 degrees. *)
Theorem utmToGeographic_zone_default :
  (forall (num : Type) (N : JsNumber num) (easting northing : num)
          (s : string),
     s <> "19Q"%string -> s <> "19N"%string -> s <> "20N"%string ->
     ~ contains_zone_pattern s ->
     utmToGeographic_zone s = Ok (lit 19, true) /\
     utmToGeographic {| x := easting; y := northing; zone := s |} =
     utmToGeographic {| x := easting; y := northing; zone := "19N" |} /\
     exists g,
       utmToGeographic {| x := easting; y := northing; zone := s |} = Ok g)
  /\
  (forall (num : Type) (N : JsNumber num) (easting northing : num),
     utmToGeographic {| x := easting; y := northing; zone := "19Q" |} =
     utmToGeographic {| x := easting; y := northing; zone := "19N" |})
  /\
  (exists la lo la' lo' : R,
     utmToGeographic
       {| x := Fin 530478; y := Fin 2042873; zone := "19Q" |} =
     Ok {| lat := Fin la; lng := Fin lo |} /\
     utmToGeographic
       {| x := Fin 530478; y := Fin 2042873; zone := "19N" |} =
     Ok {| lat := Fin la'; lng := Fin lo' |} /\
     (Rabs (la - la') <= 0.0001)%R /\ (Rabs (lo - lo') <= 0.0001)%R).
Proof.
  split; [|split].
  - intros num N easting northing s HQ HN H20 Hno.
    pose proof (utmToGeographic_zone_unparsed s HQ HN H20 Hno) as Hz.
    split; [exact Hz|]. split.
    + apply utmToGeographic_same_zone.
      now rewrite Hz, utmToGeographic_zone_19N.
    + apply utmToGeographic_returns.
  - intros num N easting northing. now apply utmToGeographic_same_zone.
  - pose proof (ProjectionFacts.utmToGeographic_scenario
                  (fun r => exists la lo : R,
                     r = Ok {| lat := Fin la; lng := Fin lo |})) as Hs.
    destruct Hs as (la & lo & Hs); [eauto|].
    exists la, lo, la, lo. split; [|split; [exact Hs|]].
    + rewrite <- Hs. now apply utmToGeographic_same_zone.
    + rewrite !Rminus_diag, Rabs_R0. split; lra.
Qed.

Lemma utmToGeographic_zone_default_witness :
  utmToGeographic_zone (num := ideal) "zona 19" = Ok (Fin (Q2R 19), true).
Proof.
  refine (proj1 (proj1 utmToGeographic_zone_default ideal _ (Fin 0) (Fin 0)
                   "zona 19"%string _ _ _ _)); try discriminate.
  apply zone_match_None. reflexivity.
Defined.

(** C3. [calculatePolygonCentroid] throws on an empty polygon and returns
    the point of a one-point polygon unchanged; on every polygon of two
    points or more it returns the signed-area centroid of the
    specification (here in exact arithmetic), which on a single finite
    point would be NaN. *)
Theorem calculatePolygonCentroid_edge_cases :
  (forall (num : Type) (N : JsNumber num),
     calculatePolygonCentroid (@nil (PolygonPoint num)) =
     Throw "Polygon must have at least one point") /\
  (forall (num : Type) (N : JsNumber num) (p : PolygonPoint num),
     calculatePolygonCentroid [p] = Ok p) /\
  (forall polygon : list (PolygonPoint ideal),
     (2 <= length polygon)%nat ->
     calculatePolygonCentroid polygon = Ok (shoelace_centroid polygon)) /\
  (forall la lo : R,
     shoelace_centroid [{| lat := Fin la; lng := Fin lo |}] =
     {| lat := NotANumber; lng := NotANumber |}).
Proof.
  split; [reflexivity | split; [reflexivity | split]].
  - exact CentroidFacts.centroid_shoelace.
  - intros la lo.
    pose proof (CentroidFacts.centroid_repeated_point la lo 2 (le_n 2)) as H2.
    rewrite CentroidFacts.centroid_shoelace in H2 by (simpl; lia).
    injection H2 as Hlat Hlng.
    unfold shoelace_centroid, signed_area, cyclic_pairs in *.
    cbn [repeat tl firstn app combine map fst snd lat lng] in *.
    CentroidFacts.ideal_ops.
    rewrite !CentroidFacts.sum_cons, CentroidFacts.sum_nil in *.
    cbn [cross fst snd lat lng] in *. CentroidFacts.ideal_ops.
    cbn [Ideal.sub Ideal.neg Ideal.mul Ideal.add] in *.
    IdealFacts.ideal_cases; exfalso; unfold Q2R in *; simpl in *; lra.
Qed.

Lemma calculatePolygonCentroid_edge_cases_witness :
  calculatePolygonCentroid
    [ {| lat := Fin 0; lng := Fin 0 |}; {| lat := Fin 0; lng := Fin 4 |};
      {| lat := Fin 3; lng := Fin 0 |} ] =
  Ok (shoelace_centroid
        [ {| lat := Fin 0; lng := Fin 0 |}; {| lat := Fin 0; lng := Fin 4 |};
          {| lat := Fin 3; lng := Fin 0 |} ]).
Proof.
  apply (proj1 (proj2 (proj2 calculatePolygonCentroid_edge_cases))).
  simpl. lia.
Defined.

(** C4. [calculatePolygonCentroid] signals no error on a polygon whose
    shoelace area is zero.  On every polygon of exactly two points both
    coordinates returned are NaN, in exact arithmetic and in binary64.  On
    every polygon of two points or more whose signed area is exactly zero
    (in binary64: whose accumulated area is a zero) the coordinates returned
    are the quotients by zero, not finite.  A vertex list that repeats one
    finite point is such a polygon and gives NaN. *)
Theorem calculatePolygonCentroid_degenerate :
  (forall p q : PolygonPoint ideal,
     calculatePolygonCentroid [p; q] =
     Ok {| lat := NotANumber; lng := NotANumber |}) /\
  (forall (M : F64.MathLib) (p q : PolygonPoint float),
     @calculatePolygonCentroid float (float_number M) [p; q] =
     Ok {| lat := PrimFloat.nan; lng := PrimFloat.nan |}) /\
  (forall polygon : list (PolygonPoint ideal),
     (2 <= length polygon)%nat ->
     signed_area polygon = Fin 0 ->
     exists c, calculatePolygonCentroid polygon = Ok c /\
               Ideal.finite (lat c) = false /\
               Ideal.finite (lng c) = false) /\
  (forall (M : F64.MathLib) (polygon : list (PolygonPoint float)),
     (2 <= length polygon)%nat ->
     F64Facts.is_zero
       (fold_left (@add float (float_number M))
          (map (@cross float (float_number M)) (cyclic_pairs polygon))
          (@lit float (float_number M) 0)) ->
     exists c,
       @calculatePolygonCentroid float (float_number M) polygon = Ok c /\
       F64Facts.not_finite (lat c) = true /\
       F64Facts.not_finite (lng c) = true) /\
  (forall (la lo : R) (n : nat),
     (2 <= n)%nat ->
     calculatePolygonCentroid (repeat {| lat := Fin la; lng := Fin lo |} n) =
     Ok {| lat := NotANumber; lng := NotANumber |}).
Proof.
  split; [|split; [|split; [|split]]].
  - exact CentroidFacts.centroid_two_points.
  - exact F64Facts.float_centroid_two_points.
  - exact CentroidFacts.centroid_zero_area.
  - exact F64Facts.float_centroid_zero_area.
  - exact CentroidFacts.centroid_repeated_point.
Qed.

Lemma calculatePolygonCentroid_degenerate_witness :
  calculatePolygonCentroid (repeat {| lat := Fin 18; lng := Fin (-69) |} 3) =
  Ok {| lat := NotANumber; lng := NotANumber |}.
Proof.
  apply (proj2 (proj2 (proj2 (proj2 calculatePolygonCentroid_degenerate)))).
  lia.
Defined.

(** C5, at the input where the code departs from it.  The claim holds on
    every easting and northing other than NaN
    ([ValidatorFacts.validateUtmCoordinates_spec]); NaN compares false with
    both bounds, so the validator accepts it, in exact arithmetic and in
    binary64 alike, while [validateGeographicCoordinates], written with the
    comparisons the other way round, rejects it. *)
Theorem validateUtmCoordinates_accepts_NaN :
  validateUtmCoordinates
    {| x := NotANumber; y := NotANumber; zone := "19N" |} = true /\
  (forall M : F64.MathLib,
     @validateUtmCoordinates float (float_number M)
       {| x := PrimFloat.nan; y := PrimFloat.nan; zone := "19N" |} = true) /\
  validateGeographicCoordinates
    {| lat := NotANumber; lng := NotANumber |} = false /\
  (forall M : F64.MathLib,
     @validateGeographicCoordinates float (float_number M)
       {| lat := PrimFloat.nan; lng := PrimFloat.nan |} = false).
Proof.
  split; [|split; [|split]].
  - unfold validateUtmCoordinates, parseInt, gt. cbn [zone x y].
    cbn [zone_match_anchored isDigit isNS nat_of_ascii]. simpl.
    CentroidFacts.ideal_ops. simpl.
    unfold Ideal.Rltb.
    destruct (Rlt_dec (Q2R (inject_Z 19)) (Q2R 1)) as [H1|_];
      [unfold Q2R in H1; simpl in H1; lra|].
    destruct (Rlt_dec (Q2R 60) (Q2R (inject_Z 19))) as [H1|_];
      [unfold Q2R in H1; simpl in H1; lra|].
    reflexivity.
  - intros M. vm_compute. reflexivity.
  - reflexivity.
  - intros M. vm_compute. reflexivity.
Qed.

(** C6. On every easting and northing the validator rejects the zone string
    "19Q", which [utmToGeographic] reads as zone 19 of the northern
    hemisphere. *)
Theorem validateUtmCoordinates_rejects_19Q :
  forall (num : Type) (N : JsNumber num) (easting northing : num),
    validateUtmCoordinates
      {| x := easting; y := northing; zone := "19Q" |} = false /\
    utmToGeographic_zone (num := num) "19Q" = Ok (lit 19, true).
Proof. intros num N easting northing. split; reflexivity. Qed.

(** C7.  For every number type, binary64 included, [geographicToUtm]
    returns the easting of the series rounded by [Math.round], the northing
    rounded after 10,000,000 is added to it when the latitude is not at
    least 0, and as zone the zone number floor((lng + 180) / 6) + 1, computed
    with the operations of the number type and converted to a string,
    followed by N when the latitude is at least 0 and by S otherwise.
    [Math.round] gives an integer nearest to its argument, the upper one at
    a tie, in exact arithmetic and in binary64; [Math.floor] gives the
    integer below; a zone number from 1 to 61 is printed in decimal digits
    in binary64, as every integer below 1e21 is in exact arithmetic. *)
Theorem geographicToUtm_rounds :
  (forall (num : Type) (N : JsNumber num)
          (coords : GeographicCoordinates num),
     let utmEasting := fst (geographicToUtm_series coords) in
     let utmNorthing := snd (geographicToUtm_series coords) in
     let zoneNumber :=
       (Math_floor ((lng coords + lit 180) / lit 6) + lit 1)%js in
     geographicToUtm coords =
     if (lat coords >= lit 0)%js
     then {| x := Math_round utmEasting;
             y := Math_round utmNorthing;
             zone := (toString zoneNumber ++ "N")%string |}
     else {| x := Math_round utmEasting;
             y := Math_round (utmNorthing + lit 10000000.0)%js;
             zone := (toString zoneNumber ++ "S")%string |}) /\
  (forall r : R,
     (exists z : Z,
        Math_round (Fin r) = Fin (IZR z) /\ nearest_integer r z) /\
     (exists z : Z,
        Math_floor (Fin r) = Fin (IZR z) /\ (IZR z <= r < IZR z + 1)%R)) /\
  (forall z : Z,
     (Z.abs z < 10 ^ 21)%Z ->
     toString (Fin (IZR z)) = Ideal.string_of_Z z) /\
  (forall (M : F64.MathLib) (a : float) (s : bool) (m : positive) (e : Z),
     Prim2SF a = S754_finite s m e ->
     exists z : Z,
       nearest_integer
         (IZR (fst (F64.scaled s m e)) / IZR (snd (F64.scaled s m e))) z /\
       (@Math_round float (float_number M) a = F64.of_Z z \/
        z = 0%Z /\
        @Math_round float (float_number M) a =
        if s then neg_zero else zero)) /\
  (forall (M : F64.MathLib) (z : Z),
     (1 <= z <= 61)%Z ->
     @toString float (float_number M) (F64.of_Z z) = Ideal.string_of_Z z).
Proof.
  split; [|split; [|split; [|split]]].
  - intros num N coords. cbv zeta. unfold geographicToUtm.
    fold (geographicToUtm_zoneNumber coords).
    unfold geographicToUtm_hemisphere.
    destruct (geographicToUtm_series coords) as [E N0]. cbn [fst snd].
    destruct (lat coords >= lit 0)%js; reflexivity.
  - intros r. split.
    + apply ProjectionFacts.round_nearest.
    + exists (Zfloor r). split; [reflexivity | apply Zfloor_bound].
  - intros z Hz. cbn [toString ideal_number Ideal.toString].
    rewrite ZfloorZ. now apply ProjectionFacts.integer_toString_small.
  - intros M a s m e Ha. now apply F64Facts.round_nearest_double.
  - intros M z Hz. pose proof F64Facts.toString_zone_numbers as H.
    rewrite forallb_forall in H.
    apply String.eqb_eq, (H z), in_map_iff.
    exists (Z.to_nat z). split; [lia | apply in_seq; lia].
Qed.

Lemma geographicToUtm_rounds_witness :
  toString (Fin (IZR 19)) = Ideal.string_of_Z 19 /\
  @toString float (float_number
                     {| F64.sin := fun a => a; F64.cos := fun a => a;
                        F64.tan := fun a => a; F64.pow := fun a _ => a;
                        F64.atan2 := fun a _ => a |}) (F64.of_Z 19) =
  Ideal.string_of_Z 19.
Proof.
  split.
  - apply (proj1 (proj2 (proj2 geographicToUtm_rounds)) 19%Z). reflexivity.
  - apply (proj2 (proj2 (proj2 (proj2 geographicToUtm_rounds)))). lia.
Defined.

(** C8, as amended.  Neither conversion consults a validator.  On every
    input whose zone is a string, whatever the numbers and the string,
    [utmToGeographic] resolves a zone and returns a coordinate record
    without throwing (no capture of a failed match is read); on a zone that
    is null, absent or not a string, which nothing keeps out of the parsed
    answer, it throws.  [geographicToUtm] has no operation that can throw.
    The numbers returned are finite on bounded input: in exact arithmetic,
    [utmToGeographic] returns finite coordinates for an easting and a zone
    number up to 1,000,000,000 in absolute value and a northing within 9,000,000 m
    of the equator, and [geographicToUtm] returns a whole easting and
    northing for a latitude and a longitude up to 1,000,000,000 degrees in absolute
    value, in the valid ranges or not. *)
Theorem utmToGeographic_does_not_throw :
  (forall (num : Type) (N : JsNumber num) (utm : UTMCoordinates num),
     (exists zoneNumber isNorthern,
        utmToGeographic_zone (zone utm) = Ok (zoneNumber, isNorthern)) /\
     (exists g, utmToGeographic utm = Ok g)) /\
  (forall (num : Type) (N : JsNumber num) (point : ParsedPoint num),
     (zone_of point = None ->
      utmToGeographic_parsed point = Throw "TypeError") /\
     (forall zone : string,
        zone_of point = Some zone ->
        utmToGeographic_parsed point =
        utmToGeographic
          {| x := x_of point; y := y_of point; zone := zone |})) /\
  (forall (easting northing zoneNumber : R) (isNorthern : bool)
          (s : string),
     utmToGeographic_zone s = Ok (Fin zoneNumber, isNorthern) ->
     (Rabs zoneNumber <= 1000000000)%R -> (Rabs easting <= 1000000000)%R ->
     (Rabs (if isNorthern then northing else northing - 10000000)
      <= 9000000)%R ->
     exists la lo : R,
       utmToGeographic {| x := Fin easting; y := Fin northing; zone := s |}
       = Ok {| lat := Fin la; lng := Fin lo |}) /\
  (forall la lo : R,
     (Rabs la <= 1000000000)%R -> (Rabs lo <= 1000000000)%R ->
     exists zE zN : Z,
       x (geographicToUtm {| lat := Fin la; lng := Fin lo |}) =
       Fin (IZR zE) /\
       y (geographicToUtm {| lat := Fin la; lng := Fin lo |}) =
       Fin (IZR zN)).
Proof.
  split; [|split; [|split]].
  - intros num N utm. split.
    + apply utmToGeographic_zone_returns.
    + apply utmToGeographic_returns.
  - intros num N point. unfold utmToGeographic_parsed.
    split; [intros -> | intros zone ->]; reflexivity.
  - intros easting northing zoneNumber isNorthern s Hz _ _ Hy.
    exact (FootpointFacts.utmToGeographic_finite easting northing zoneNumber
             isNorthern s Hz Hy).
  - intros la lo _ _.
    destruct (ProjectionFacts.geographicToUtm_fin la lo)
      as (E & N0 & zE & zN & _ & -> & _).
    exists zE, zN. split; reflexivity.
Qed.

Lemma utmToGeographic_does_not_throw_witness :
  exists la lo : R,
    utmToGeographic
      {| x := Fin (-1000000); y := Fin 2042873; zone := "99N" |} =
    Ok {| lat := Fin la; lng := Fin lo |}.
Proof.
  apply (proj1 (proj2 (proj2 utmToGeographic_does_not_throw))
           (-1000000)%R 2042873%R (Q2R (inject_Z 99)) true "99N").
  - reflexivity.
  - unfold Q2R, inject_Z. simpl. rewrite Rabs_pos_eq; lra.
  - rewrite Rabs_left; lra.
  - rewrite Rabs_pos_eq; lra.
Defined.

(** C8 as stated fails in binary64: for easting 1e300, northing 0 and zone
    "19N", finite numbers, the latitude returned is NaN with every [Math]
    library that returns zeros and NaN unchanged from [sin] and [tan], as
    ECMAScript requires; such libraries exist. *)
Lemma utmToGeographic_overflow_NaN :
  (exists M : F64.MathLib, F64.ES_zero_cases M) /\
  (exists utm : UTMCoordinates float,
     F64Facts.not_finite (x utm) = false /\
     F64Facts.not_finite (y utm) = false /\
     forall M : F64.MathLib,
       F64.ES_zero_cases M ->
       exists lo,
         @utmToGeographic float (float_number M) utm =
         Ok {| lat := PrimFloat.nan; lng := lo |}).
Proof.
  split.
  - exists {| F64.sin := fun a => a; F64.cos := fun _ => 1%float;
              F64.tan := fun a => a; F64.pow := fun a _ => a;
              F64.atan2 := fun a _ => a |}.
    repeat split.
  - exists {| x := 1e300%float; y := 0%float; zone := "19N" |}.
    split; [reflexivity | split; [reflexivity|]].
    exact F64Facts.utmToGeographic_overflow.
Qed.



(** C10. In exact arithmetic [calculateDistance] is symmetric on all
    numbers, is 0 from a finite point to itself, and on finite points is
    the Haversine distance 2 R asin (sqrt h) with R = 6,371,000. *)
Theorem calculateDistance_haversine :
  (forall a b : GeographicCoordinates ideal,
     calculateDistance a b = calculateDistance b a) /\
  (forall la lo : R,
     calculateDistance {| lat := Fin la; lng := Fin lo |}
                       {| lat := Fin la; lng := Fin lo |} = Fin 0) /\
  (forall lat1 lng1 lat2 lng2 : R,
     calculateDistance {| lat := Fin lat1; lng := Fin lng1 |}
                       {| lat := Fin lat2; lng := Fin lng2 |} =
     Fin (haversine lat1 lng1 lat2 lng2)).
Proof.
  split; [|split].
  - exact DistanceFacts.distance_symmetric.
  - intros la lo.
    now rewrite DistanceFacts.distance_haversine, DistanceFacts.haversine_self.
  - exact DistanceFacts.distance_haversine.
Qed.

(** * The engine and its callers *)

(** X1. A UTM coordinate that [validateUtmCoordinates] accepts has a zone
    of one or two digits and one letter, and [utmToGeographic] reads from
    that zone the number that the validator parsed, with the northern
    hemisphere exactly when the letter is N or n. *)
Theorem validated_zone_is_read :
  forall (num : Type) (N : JsNumber num) (utm : UTMCoordinates num),
    validateUtmCoordinates utm = true ->
    exists (digits : string) (letter : ascii),
      zone utm = (digits ++ String letter "")%string /\
      zone_match_anchored (zone utm) = Some digits /\
      utmToGeographic_zone (zone utm) =
      Ok (parseInt digits, (toUpperCase letter =? "N")%char).
Proof. intros num N utm. apply validated_zone. Qed.

Lemma validated_zone_is_read_witness :
  exists (digits : string) (letter : ascii),
    "19s"%string = (digits ++ String letter "")%string /\
    zone_match_anchored "19s" = Some digits /\
    utmToGeographic_zone (num := ideal) "19s" =
    Ok (parseInt digits, (toUpperCase letter =? "N")%char).
Proof.
  exact (validated_zone_is_read ideal _
           {| x := Fin 500000; y := Fin 0; zone := "19s" |}
           Examples.valid_utm).
Defined.

(** X2. A coordinate of the southern hemisphere is converted as the
    coordinate of the northern hemisphere with the same zone number and the
    false northing of 10,000,000 m taken off, whatever the numbers. *)
Theorem utmToGeographic_false_northing :
  forall (num : Type) (N : JsNumber num) (easting northing : num)
         (digits : string),
    digits <> ""%string -> all_digits digits = true ->
    utmToGeographic
      {| x := easting; y := northing; zone := (digits ++ "S")%string |} =
    utmToGeographic
      {| x := easting; y := (northing - lit 10000000.0)%js;
         zone := (digits ++ "N")%string |}.
Proof. intros num N. apply southern_as_northern. Qed.

Lemma utmToGeographic_false_northing_witness :
  utmToGeographic
    {| x := Fin 500000; y := Fin 9000000; zone := "19S" |} =
  utmToGeographic
    {| x := Fin 500000; y := (Fin 9000000 - lit 10000000.0)%js;
       zone := "19N" |}.
Proof.
  apply (utmToGeographic_false_northing ideal _ (Fin 500000) (Fin 9000000)
           "19"); [discriminate | reflexivity].
Defined.

(** X3. In exact arithmetic, the southern point of northing
    10,000,000 - n is the image in the equator of the northern point of
    northing n with the same easting and zone number: the opposite
    latitude, the same longitude. *)
Theorem utmToGeographic_equator_mirror :
  forall (easting : ideal) (northing : R) (digits : string),
    digits <> ""%string -> all_digits digits = true ->
    exists g,
      utmToGeographic
        {| x := easting; y := Fin northing;
           zone := (digits ++ "N")%string |} = Ok g /\
      utmToGeographic
        {| x := easting; y := Fin (10000000 - northing);
           zone := (digits ++ "S")%string |} =
      Ok {| lat := Ideal.neg (lat g); lng := lng g |}.
Proof. exact ParityFacts.utmToGeographic_reflection. Qed.

Lemma utmToGeographic_equator_mirror_witness :
  exists g,
    utmToGeographic
      {| x := Fin 530478; y := Fin 2042873; zone := "19N" |} = Ok g /\
    utmToGeographic
      {| x := Fin 530478; y := Fin (10000000 - 2042873); zone := "19S" |} =
    Ok {| lat := Ideal.neg (lat g); lng := lng g |}.
Proof.
  apply (utmToGeographic_equator_mirror (Fin 530478) 2042873 "19");
    [discriminate | reflexivity].
Defined.

(** X4. In exact arithmetic, for every coordinate that
    [validateGeographicCoordinates] accepts, [utmToGeographic] reads back
    from the zone string written by [geographicToUtm] the zone number and
    the hemisphere that [geographicToUtm] computed. *)
Theorem zone_written_is_read_back :
  forall c : GeographicCoordinates ideal,
    validateGeographicCoordinates c = true ->
    utmToGeographic_zone (zone (geographicToUtm c)) =
    Ok (geographicToUtm_zoneNumber c, (lat c >= lit 0)%js).
Proof.
  intros [la lo] Hv.
  apply GeographicFacts.validateGeographicCoordinates_spec in Hv
    as ((la' & Hla & _) & (lo' & Hlo & Hb)).
  cbn [lat lng] in *. subst. now apply ZoneRoundTrip.zone_read_back.
Qed.

Lemma zone_written_is_read_back_witness :
  utmToGeographic_zone
    (zone (geographicToUtm {| lat := Fin 18; lng := Fin (-70) |})) =
  Ok (geographicToUtm_zoneNumber {| lat := Fin 18; lng := Fin (-70) |},
      (Fin 18 >= lit 0)%js).
Proof.
  apply (zone_written_is_read_back {| lat := Fin 18; lng := Fin (-70) |}).
  apply Examples.valid_geographic; lra.
Defined.

(** X5. At longitude 180, which [validateGeographicCoordinates] accepts,
    [geographicToUtm] writes the zone 61, and [validateUtmCoordinates]
    rejects its result: in exact arithmetic for every latitude from -90 to
    90, and in binary64 for every latitude and every [Math] library. *)
Theorem geographicToUtm_zone_validity :
  (forall la : R,
     (-90 <= la <= 90)%R ->
     validateGeographicCoordinates {| lat := Fin la; lng := Fin 180 |} = true
     /\
     zone (geographicToUtm {| lat := Fin la; lng := Fin 180 |}) =
     (if Rle_dec 0 la then "61N" else "61S")%string /\
     validateUtmCoordinates
       (geographicToUtm {| lat := Fin la; lng := Fin 180 |}) = false) /\
  (forall (M : F64.MathLib) (la : float),
     ((-90 <=? la)%float && (la <=? 90)%float = true ->
      @validateGeographicCoordinates float (float_number M)
        {| lat := la; lng := 180%float |} = true) /\
     zone (@geographicToUtm float (float_number M)
             {| lat := la; lng := 180%float |}) =
     (if (0 <=? la)%float then "61N" else "61S")%string /\
     @validateUtmCoordinates float (float_number M)
       (@geographicToUtm float (float_number M)
          {| lat := la; lng := 180%float |}) = false).
Proof.
  split.
  - intros la Hla. split.
    + apply Examples.valid_geographic; lra.
    + apply ZoneRoundTrip.zone_61.
  - intros M la. split; [|apply ZoneRoundTrip.zone_61_double].
    intros Hla. apply andb_true_iff in Hla as [H1 H2].
    unfold validateGeographicCoordinates, ge. cbn [lat lng].
    change (@le float (float_number M)) with PrimFloat.leb.
    change (@lit float (float_number M) (-90)) with (-90)%float.
    change (@lit float (float_number M) 90) with 90%float.
    now rewrite H1, H2.
Qed.

Lemma geographicToUtm_zone_validity_witness :
  validateGeographicCoordinates {| lat := Fin 18; lng := Fin 180 |} = true /\
  zone (geographicToUtm {| lat := Fin 18; lng := Fin 180 |}) =
  (if Rle_dec 0 18 then "61N" else "61S")%string /\
  validateUtmCoordinates
    (geographicToUtm {| lat := Fin 18; lng := Fin 180 |}) = false.
Proof.
  apply (proj1 geographicToUtm_zone_validity 18%R). lra.
Defined.

(** X6. In exact arithmetic, a zone string that resolves to another zone
    number and the same hemisphere gives the same latitude, and a longitude
    moved by six degrees for each zone, on every easting and northing. *)
Theorem utmToGeographic_zone_step :
  forall (easting northing : ideal) (k1 k2 : R) (isNorthern : bool)
         (s1 s2 : string),
    utmToGeographic_zone s1 = Ok (Fin k1, isNorthern) ->
    utmToGeographic_zone s2 = Ok (Fin k2, isNorthern) ->
    exists g1 g2,
      utmToGeographic {| x := easting; y := northing; zone := s1 |} = Ok g1
      /\
      utmToGeographic {| x := easting; y := northing; zone := s2 |} = Ok g2
      /\
      lat g2 = lat g1 /\
      lng g2 = (lng g1 + Fin (6 * (k2 - k1)))%js.
Proof. exact ParityFacts.utmToGeographic_zone_shift. Qed.

Lemma utmToGeographic_zone_step_witness :
  exists g1 g2,
    utmToGeographic
      {| x := Fin 530478; y := Fin 2042873; zone := "19N" |} = Ok g1 /\
    utmToGeographic
      {| x := Fin 530478; y := Fin 2042873; zone := "20N" |} = Ok g2 /\
    lat g2 = lat g1 /\
    lng g2 = (lng g1 + Fin (6 * (Q2R 20 - Q2R 19)))%js.
Proof.
  apply (utmToGeographic_zone_step (Fin 530478) (Fin 2042873)
           (Q2R 19) (Q2R 20) true "19N" "20N"); reflexivity.
Defined.

(** X7. In exact arithmetic, a point on the central meridian of a zone
    (longitude 6k - 183 for a whole number k) is given the easting 500000
    exactly, at every latitude. *)
Theorem geographicToUtm_central_meridian :
  forall (la : R) (k : Z),
    x (geographicToUtm {| lat := Fin la; lng := Fin (6 * IZR k - 183) |}) =
    Fin 500000.
Proof. exact ParityFacts.central_meridian_easting. Qed.

(** X8. In exact arithmetic, a point on the equator is given the northing
    0 exactly, and a zone of the northern hemisphere, at every
    longitude. *)
Theorem geographicToUtm_equator :
  forall lo : R,
    y (geographicToUtm {| lat := Fin 0; lng := Fin lo |}) = Fin 0 /\
    zone (geographicToUtm {| lat := Fin 0; lng := Fin lo |}) =
    (toString (geographicToUtm_zoneNumber {| lat := Fin 0; lng := Fin lo |})
     ++ "N")%string.
Proof.
  intros lo. destruct (ParityFacts.equator_northing lo) as [Hy Hh].
  split; [exact Hy|].
  destruct (geographicToUtm_fields {| lat := Fin 0; lng := Fin lo |})
    as (_ & _ & ->).
  now rewrite Hh.
Qed.

(** X9. In exact arithmetic, two points of the same latitude at the same
    distance, of at most 2.9 degrees, east and west of the central meridian
    of a zone from 1 to 60 get the same zone, and before rounding the same
    northing and eastings at the same distance from 500000 on either
    side. *)
Theorem geographicToUtm_east_west :
  forall (la : R) (k : Z) (d : R),
    (1 <= k <= 60)%Z -> (Rabs d <= 29 / 10)%R ->
    let east := {| lat := Fin la; lng := Fin (6 * IZR k - 183 + d) |} in
    let west := {| lat := Fin la; lng := Fin (6 * IZR k - 183 - d) |} in
    zone (geographicToUtm west) = zone (geographicToUtm east) /\
    exists E N0 : R,
      geographicToUtm_series east = (Fin E, Fin N0) /\
      geographicToUtm_series west = (Fin (1000000 - E), Fin N0).
Proof.
  intros la k d _ Hd east west. apply TaylorFacts.Rabs_bounds in Hd.
  destruct (ParityFacts.series_mirror la k d) as (E & N0 & H1 & H2); [lra|].
  destruct (geographicToUtm_fields east) as (_ & _ & Hz1).
  destruct (geographicToUtm_fields west) as (_ & _ & Hz2).
  assert (Hk1 : geographicToUtm_zoneNumber east = Fin (IZR k))
    by (apply ParityFacts.zoneNumber_meridian; lra).
  assert (Hk2 : geographicToUtm_zoneNumber west = Fin (IZR k)).
  { unfold west.
    replace (6 * IZR k - 183 - d)%R with (6 * IZR k - 183 + - d)%R by ring.
    apply ParityFacts.zoneNumber_meridian; lra. }
  assert (Hh : geographicToUtm_hemisphere west =
               geographicToUtm_hemisphere east)
    by (unfold west, east; now rewrite !ProjectionFacts.hemisphere_fin).
  split; [now rewrite Hz1, Hz2, Hk1, Hk2, Hh|].
  exists E, N0. split; assumption.
Qed.

Lemma geographicToUtm_east_west_witness :
  let east := {| lat := Fin 18; lng := Fin (6 * IZR 19 - 183 + 1) |} in
  let west := {| lat := Fin 18; lng := Fin (6 * IZR 19 - 183 - 1) |} in
  zone (geographicToUtm west) = zone (geographicToUtm east) /\
  exists E N0 : R,
    geographicToUtm_series east = (Fin E, Fin N0) /\
    geographicToUtm_series west = (Fin (1000000 - E), Fin N0).
Proof.
  apply (geographicToUtm_east_west 18%R 19%Z 1%R); [lia|].
  rewrite Rabs_pos_eq; lra.
Defined.

(** X10. In exact arithmetic, a point of the northern hemisphere and its
    image in the equator get the same easting and the same zone number,
    the letters N and S, and northings that are, before rounding, N and
    10,000,000 - N. *)
Theorem geographicToUtm_north_south :
  forall la lo : R,
    (0 < la)%R ->
    let north := {| lat := Fin la; lng := Fin lo |} in
    let south := {| lat := Fin (- la); lng := Fin lo |} in
    x (geographicToUtm south) = x (geographicToUtm north) /\
    zone (geographicToUtm north) =
    (toString (geographicToUtm_zoneNumber north) ++ "N")%string /\
    zone (geographicToUtm south) =
    (toString (geographicToUtm_zoneNumber north) ++ "S")%string /\
    exists N0 : R,
      y (geographicToUtm north) = Math_round (Fin N0) /\
      y (geographicToUtm south) = Math_round (Fin (10000000 - N0)).
Proof.
  intros la lo Hla north south.
  destruct (ParityFacts.series_reflect la lo) as (E & N0 & H1 & H2).
  destruct (geographicToUtm_fields north) as (Hx1 & Hy1 & Hz1).
  destruct (geographicToUtm_fields south) as (Hx2 & Hy2 & Hz2).
  assert (Hk : geographicToUtm_zoneNumber south =
               geographicToUtm_zoneNumber north)
    by (unfold south, north; now rewrite !ProjectionFacts.zoneNumber_fin).
  assert (Hh1 : geographicToUtm_hemisphere north = "N"%string).
  { unfold north. rewrite ProjectionFacts.hemisphere_fin.
    destruct (Rle_dec 0 la); [reflexivity | lra]. }
  assert (Hh2 : geographicToUtm_hemisphere south = "S"%string).
  { unfold south. rewrite ProjectionFacts.hemisphere_fin.
    destruct (Rle_dec 0 (- la)); [lra | reflexivity]. }
  fold north in H1. fold south in H2.
  rewrite Hx1, Hx2, Hy1, Hy2, Hz1, Hz2, Hk, Hh1, Hh2, H1, H2.
  cbn [fst snd String.eqb Ascii.eqb Bool.eqb]. repeat split.
  exists N0. split; [reflexivity|].
  CentroidFacts.ideal_ops. DistanceFacts.literals. cbn [Ideal.add].
  do 2 f_equal. lra.
Qed.

Lemma geographicToUtm_north_south_witness :
  let north := {| lat := Fin 18; lng := Fin (-70) |} in
  let south := {| lat := Fin (- 18); lng := Fin (-70) |} in
  x (geographicToUtm south) = x (geographicToUtm north) /\
  zone (geographicToUtm north) =
  (toString (geographicToUtm_zoneNumber north) ++ "N")%string /\
  zone (geographicToUtm south) =
  (toString (geographicToUtm_zoneNumber north) ++ "S")%string /\
  exists N0 : R,
    y (geographicToUtm north) = Math_round (Fin N0) /\
    y (geographicToUtm south) = Math_round (Fin (10000000 - N0)).
Proof.
  apply (geographicToUtm_north_south 18%R (-70)%R). lra.
Defined.

(** X11. In exact arithmetic, for a zone number from 0 to 60, an easting
    from 0 to 1,000,000 and a northing that, the false northing taken off
    in the south, is within 9,000,000 m of the equator, [utmToGeographic]
    returns a finite latitude and a finite longitude; at the easting 500000
    the longitude is the central meridian of the zone,
    6 * zoneNumber - 183. *)
Theorem utmToGeographic_total_on_zone :
  forall (easting northing zoneNumber : R) (isNorthern : bool) (s : string),
    utmToGeographic_zone s = Ok (Fin zoneNumber, isNorthern) ->
    (0 <= zoneNumber <= 60)%R ->
    (0 <= easting <= 1000000)%R ->
    (Rabs (if isNorthern then northing else northing - 10000000)
     <= 9000000)%R ->
    (exists la lo : R,
       utmToGeographic
         {| x := Fin easting; y := Fin northing; zone := s |} =
       Ok {| lat := Fin la; lng := Fin lo |}) /\
    exists la : R,
      utmToGeographic {| x := Fin 500000; y := Fin northing; zone := s |} =
      Ok {| lat := Fin la; lng := Fin (6 * zoneNumber - 183) |}.
Proof.
  intros easting northing zoneNumber isNorthern s Hz _ _ Hy. split.
  - exact (FootpointFacts.utmToGeographic_finite easting northing zoneNumber
             isNorthern s Hz Hy).
  - exact (FootpointFacts.central_meridian_longitude northing zoneNumber
             isNorthern s Hz Hy).
Qed.

Lemma utmToGeographic_total_on_zone_witness :
  (exists la lo : R,
     utmToGeographic
       {| x := Fin 530478; y := Fin 2042873; zone := "19N" |} =
     Ok {| lat := Fin la; lng := Fin lo |}) /\
  exists la : R,
    utmToGeographic {| x := Fin 500000; y := Fin 2042873; zone := "19N" |} =
    Ok {| lat := Fin la; lng := Fin (6 * Q2R 19 - 183) |}.
Proof.
  apply (utmToGeographic_total_on_zone 530478 2042873 (Q2R 19) true "19N");
    [reflexivity | unfold Q2R; simpl; lra | lra |].
  rewrite Rabs_pos_eq; lra.
Defined.





(** X14. In exact arithmetic, a ring that is closed by repeating its first
    vertex at the end has the same centroid as the ring without the
    repeated vertex. *)
Theorem centroid_of_closed_ring :
  forall (la lo : R) (rest : list (PolygonPoint ideal)),
    rest <> [] ->
    calculatePolygonCentroid
      ({| lat := Fin la; lng := Fin lo |} :: rest ++
       [{| lat := Fin la; lng := Fin lo |}]) =
    calculatePolygonCentroid ({| lat := Fin la; lng := Fin lo |} :: rest).
Proof. exact CentroidSymmetry.centroid_closed_ring. Qed.

Lemma centroid_of_closed_ring_witness :
  calculatePolygonCentroid
    ({| lat := Fin 0; lng := Fin 0 |} ::
     [{| lat := Fin 0; lng := Fin 4 |}; {| lat := Fin 3; lng := Fin 0 |}] ++
     [{| lat := Fin 0; lng := Fin 0 |}]) =
  calculatePolygonCentroid
    ({| lat := Fin 0; lng := Fin 0 |} ::
     [{| lat := Fin 0; lng := Fin 4 |}; {| lat := Fin 3; lng := Fin 0 |}]).
Proof.
  apply (centroid_of_closed_ring 0 0
           [{| lat := Fin 0; lng := Fin 4 |};
            {| lat := Fin 3; lng := Fin 0 |}]).
  discriminate.
Defined.

(** X16. In exact arithmetic, whenever the centroid of a triangle is a
    finite point, it is the mean of the three vertices.  Binary64 does not
    keep this: of the triangle (18.5, -70), (18.5, -69.9999),
    (18.5001, -70), with legs of some 11 m, [calculatePolygonCentroid]
    returns, with every [Math] library, a latitude below 18.5 and a
    longitude above -69.9999: a point south and east of all three
    vertices. *)
Theorem centroid_of_triangle :
  (forall la1 lo1 la2 lo2 la3 lo3 cla clo : R,
     calculatePolygonCentroid
       [ {| lat := Fin la1; lng := Fin lo1 |};
         {| lat := Fin la2; lng := Fin lo2 |};
         {| lat := Fin la3; lng := Fin lo3 |} ] =
     Ok {| lat := Fin cla; lng := Fin clo |} ->
     cla = ((la1 + la2 + la3) / 3)%R /\ clo = ((lo1 + lo2 + lo3) / 3)%R) /\
  (forall M : F64.MathLib,
   exists c : GeographicCoordinates float,
     @calculatePolygonCentroid float (float_number M)
       [ {| lat := F64.literal 18.5; lng := F64.literal (-70) |};
         {| lat := F64.literal 18.5; lng := F64.literal (-69.9999) |};
         {| lat := F64.literal 18.5001; lng := F64.literal (-70) |} ] =
     Ok c /\
     (lat c <? F64.literal 18.5)%float = true /\
     (F64.literal (-69.9999) <? lng c)%float = true).
Proof.
  split.
  - exact CentroidSymmetry.centroid_triangle.
  - exact Examples.small_triangle_outside.
Qed.

Lemma centroid_of_triangle_witness :
  1%R = ((0 + 0 + 3) / 3)%R /\ (4 / 3)%R = ((0 + 4 + 0) / 3)%R.
Proof.
  exact (proj1 centroid_of_triangle _ _ _ _ _ _ _ _
           Examples.triangle_centroid).
Defined.

(** X17. In exact arithmetic, the distance of two points whose latitudes
    differ by at most 90 degrees and whose longitudes differ by at most 90
    degrees is a finite number, not negative and at most a third of the
    circumference of the sphere, 6371000 * 2 pi / 3. *)
Theorem calculateDistance_bounds :
  forall lat1 lng1 lat2 lng2 : R,
    (Rabs (lat2 - lat1) <= 90)%R -> (Rabs (lng2 - lng1) <= 90)%R ->
    exists d : R,
      calculateDistance {| lat := Fin lat1; lng := Fin lng1 |}
                        {| lat := Fin lat2; lng := Fin lng2 |} = Fin d /\
      (0 <= d <= 6371000 * (2 * PI / 3))%R.
Proof.
  intros lat1 lng1 lat2 lng2 Hla Hlo.
  rewrite DistanceFacts.distance_haversine.
  eexists. split; [reflexivity|].
  now apply HaversineFacts.haversine_near.
Qed.

Lemma calculateDistance_bounds_witness :
  exists d : R,
    calculateDistance {| lat := Fin (-45); lng := Fin 0 |}
                      {| lat := Fin 45; lng := Fin 90 |} = Fin d /\
    (0 <= d <= 6371000 * (2 * PI / 3))%R.
Proof.
  apply (calculateDistance_bounds (-45) 0 45 90);
    rewrite Rabs_pos_eq; lra.
Defined.

(** X18. In exact arithmetic, for two numbers of degrees that differ by at
    most 180, two points of one longitude with these latitudes, and two
    points of the equator with these longitudes, are at the distance of the
    arc: 6371000 times the difference in radians. *)
Theorem calculateDistance_arc :
  forall u v lng0 : R,
    (Rabs (v - u) <= 180)%R ->
    calculateDistance {| lat := Fin u; lng := Fin lng0 |}
                      {| lat := Fin v; lng := Fin lng0 |} =
    Fin (6371000 * (Rabs (v - u) * PI / 180)) /\
    calculateDistance {| lat := Fin 0; lng := Fin u |}
                      {| lat := Fin 0; lng := Fin v |} =
    Fin (6371000 * (Rabs (v - u) * PI / 180)).
Proof.
  intros u v lng0 H. rewrite !DistanceFacts.distance_haversine.
  now rewrite HaversineFacts.haversine_meridian,
    HaversineFacts.haversine_equator.
Qed.

Lemma calculateDistance_arc_witness :
  calculateDistance {| lat := Fin 17; lng := Fin (-70) |}
                    {| lat := Fin 20; lng := Fin (-70) |} =
  Fin (6371000 * (Rabs (20 - 17) * PI / 180)) /\
  calculateDistance {| lat := Fin 0; lng := Fin 17 |}
                    {| lat := Fin 0; lng := Fin 20 |} =
  Fin (6371000 * (Rabs (20 - 17) * PI / 180)).
Proof.
  apply (calculateDistance_arc 17 20 (-70)).
  rewrite Rabs_pos_eq; lra.
Defined.

(** X19. In exact arithmetic, the distance does not change when the
    longitude of the second point is moved by a full turn of 360
    degrees. *)
Theorem calculateDistance_full_turn :
  forall lat1 lng1 lat2 lng2 : R,
    calculateDistance {| lat := Fin lat1; lng := Fin lng1 |}
                      {| lat := Fin lat2; lng := Fin (lng2 + 360) |} =
    calculateDistance {| lat := Fin lat1; lng := Fin lng1 |}
                      {| lat := Fin lat2; lng := Fin lng2 |}.
Proof.
  intros. rewrite !DistanceFacts.distance_haversine.
  now rewrite HaversineFacts.haversine_full_turn.
Qed.

(** X20. In exact arithmetic, two points that
    [validateGeographicCoordinates] accepts are at distance 0 only if they
    have the same latitude and, besides, the same longitude, or lie on a
    pole, or have the longitudes -180 and 180. *)
Theorem calculateDistance_zero :
  forall lat1 lng1 lat2 lng2 : R,
    validateGeographicCoordinates {| lat := Fin lat1; lng := Fin lng1 |} =
    true ->
    validateGeographicCoordinates {| lat := Fin lat2; lng := Fin lng2 |} =
    true ->
    calculateDistance {| lat := Fin lat1; lng := Fin lng1 |}
                      {| lat := Fin lat2; lng := Fin lng2 |} = Fin 0 ->
    lat2 = lat1 /\
    (lng2 = lng1 \/ Rabs lat1 = 90%R \/ Rabs (lng2 - lng1) = 360%R).
Proof.
  intros lat1 lng1 lat2 lng2 H1 H2 Hd.
  apply GeographicFacts.validateGeographicCoordinates_spec in H1
    as ((a1 & [= <-] & Ha1) & (o1 & [= <-] & Ho1)).
  apply GeographicFacts.validateGeographicCoordinates_spec in H2
    as ((a2 & [= <-] & Ha2) & (o2 & [= <-] & Ho2)).
  rewrite DistanceFacts.distance_haversine in Hd. injection Hd as Hd.
  now apply HaversineFacts.haversine_zero.
Qed.

Lemma calculateDistance_zero_witness :
  18%R = 18%R /\
  ((-70)%R = (-70)%R \/ Rabs 18 = 90%R \/ Rabs (-70 - -70) = 360%R).
Proof.
  apply (calculateDistance_zero 18 (-70) 18 (-70)).
  - apply Examples.valid_geographic; lra.
  - apply Examples.valid_geographic; lra.
  - now rewrite DistanceFacts.distance_haversine,
      DistanceFacts.haversine_self.
Defined.

(** X21. In exact arithmetic, [validateGeographicCoordinates] returns true
    exactly when the latitude and the longitude are finite numbers, the
    latitude from -90 to 90 and the longitude from -180 to 180: NaN and the
    infinities are rejected. *)
Theorem validateGeographicCoordinates_accepts :
  forall c : GeographicCoordinates ideal,
    validateGeographicCoordinates c = true <->
    exists la lo : R,
      c = {| lat := Fin la; lng := Fin lo |} /\
      (-90 <= la <= 90)%R /\ (-180 <= lo <= 180)%R.
Proof.
  intros [la lo]. rewrite GeographicFacts.validateGeographicCoordinates_spec.
  unfold ValidatorFacts.in_range. cbn [lat lng]. split.
  - intros ((a & -> & Ha) & (o & -> & Ho)). exists a, o. auto.
  - intros (a & o & [= -> ->] & Ha & Ho). split; eauto.
Qed.

(** X22. In exact arithmetic, every point with latitude from 17.5 to 20
    and longitude from -72 to -68 is converted by [geographicToUtm] to zone
    19N with an easting from 181000 to 608000 and a northing from 1933000
    to 2215000, and [validateUtmCoordinates] accepts the result. *)
Theorem geographicToUtm_on_region :
  forall la lo : R,
    (35 / 2 <= la <= 20)%R -> (-72 <= lo <= -68)%R ->
    exists e n : Z,
      geographicToUtm {| lat := Fin la; lng := Fin lo |} =
      {| x := Fin (IZR e); y := Fin (IZR n); zone := "19N" |} /\
      (181000 <= e <= 608000)%Z /\ (1933000 <= n <= 2215000)%Z /\
      validateUtmCoordinates
        (geographicToUtm {| lat := Fin la; lng := Fin lo |}) = true.
Proof.
  intros la lo Hla Hlo.
  destruct (RegionFacts.series_in_region la lo Hla Hlo)
    as (E & N0 & Hs & HE & HN).
  rewrite RoundTripFacts.geographicToUtm_zone_19N by lra.
  rewrite Hs. cbn [fst snd]. CentroidFacts.ideal_ops.
  destruct (ProjectionFacts.round_nearest E) as (e & -> & He).
  destruct (ProjectionFacts.round_nearest N0) as (n & -> & Hn).
  unfold nearest_integer in He, Hn.
  assert (He' : (181000 <= e <= 608000)%Z).
  { split.
    - apply Z.lt_succ_r, lt_IZR. rewrite succ_IZR.
      change (Z.pred 181000) with 180999%Z. lra.
    - apply Z.lt_succ_r, lt_IZR. rewrite succ_IZR. lra. }
  assert (Hn' : (1933000 <= n <= 2215000)%Z).
  { split.
    - apply Z.lt_succ_r, lt_IZR. rewrite succ_IZR. lra.
    - apply Z.lt_succ_r, lt_IZR. rewrite succ_IZR. lra. }
  exists e, n. split; [reflexivity|]. split; [exact He'|].
  split; [exact Hn'|].
  apply ValidatorFacts.validateUtmCoordinates_spec; try discriminate.
  split; [|split].
  - exists 19%Z. split; [|lia]. exists "19"%string, "N"%char.
    split; [reflexivity|]. split; [now right|]. repeat split.
  - exists (IZR e). split; [reflexivity|].
    destruct He' as [H1 H2]. apply IZR_le in H1, H2. lra.
  - exists (IZR n). split; [reflexivity|].
    destruct Hn' as [H1 H2]. apply IZR_le in H1, H2. lra.
Qed.

Lemma geographicToUtm_on_region_witness :
  exists e n : Z,
    geographicToUtm {| lat := Fin 18; lng := Fin (-70) |} =
    {| x := Fin (IZR e); y := Fin (IZR n); zone := "19N" |} /\
    (181000 <= e <= 608000)%Z /\ (1933000 <= n <= 2215000)%Z /\
    validateUtmCoordinates
      (geographicToUtm {| lat := Fin 18; lng := Fin (-70) |}) = true.
Proof.
  apply (geographicToUtm_on_region 18 (-70)); lra.
Defined.

(** X23. In exact arithmetic, every UTM point in the ranges that the
    application documents for the Dominican Republic (x from 300000 to
    800000, y from 1900000 to 2200000) with the zone 19N or 19Q is
    converted by [utmToGeographic] to a latitude from 17 to 20 and a
    longitude from -71 to -66, which [validateGeographicCoordinates]
    accepts. *)
Theorem utmToGeographic_on_region :
  forall (e n : R) (s : string),
    (300000 <= e <= 800000)%R -> (1900000 <= n <= 2200000)%R ->
    s = "19N"%string \/ s = "19Q"%string ->
    exists la lo : R,
      utmToGeographic {| x := Fin e; y := Fin n; zone := s |} =
      Ok {| lat := Fin la; lng := Fin lo |} /\
      (17 <= la <= 20)%R /\ (-71 <= lo <= -66)%R /\
      validateGeographicCoordinates {| lat := Fin la; lng := Fin lo |} =
      true.
Proof.
  intros e n s He Hn Hs.
  destruct (RegionFacts.inverse_in_region e n He Hn)
    as (la & lo & Hu & Hla & Hlo).
  exists la, lo. split; [|split; [exact Hla | split; [exact Hlo|]]].
  - rewrite <- Hu. apply utmToGeographic_same_zone.
    destruct Hs as [-> | ->]; reflexivity.
  - apply Examples.valid_geographic; lra.
Qed.

Lemma utmToGeographic_on_region_witness :
  exists la lo : R,
    utmToGeographic {| x := Fin 530478; y := Fin 2042873; zone := "19Q" |} =
    Ok {| lat := Fin la; lng := Fin lo |} /\
    (17 <= la <= 20)%R /\ (-71 <= lo <= -66)%R /\
    validateGeographicCoordinates {| lat := Fin la; lng := Fin lo |} = true.
Proof.
  apply (utmToGeographic_on_region 530478 2042873 "19Q");
    [lra | lra | now right].
Defined.

(** X24. The map view drops exactly the points whose zone is not a string:
    on the points as [JSON.parse] gives them, [utmToGeographic] throws, a
    TypeError, only when the zone is null, absent or not a string, so the
    list that remains holds the conversions of the other points, in order,
    and the alert that no coordinate could be converted is shown exactly
    when there are points and none of them has a zone that is a string.  On
    points of the declared type nothing is dropped.  This holds for every
    number type. *)
Theorem PolygonMapView_drops_points_without_zone :
  forall (num : Type) (N : JsNumber num) (points : list (ParsedPoint num)),
    (forall point : ParsedPoint num,
       (exists g, utmToGeographic_parsed point = Ok g) <->
       has_zone point = true) /\
    map Ok (geographicPoints_parsed points) =
    map utmToGeographic_parsed (filter has_zone points) /\
    ((exists message : string,
        PolygonMapView_effect_parsed points = Alerted message) <->
     points <> [] /\
     forallb (fun point => negb (has_zone point)) points = true) /\
    (forall typed : list (UTMCoordinates num),
       PolygonMapView_effect_parsed (map parsed typed) =
       PolygonMapView_effect typed /\
       length (geographicPoints typed) = length typed).
Proof.
  intros num N points. split; [|split; [|split]].
  - apply utmToGeographic_parsed_throws.
  - apply geographicPoints_parsed_all.
  - apply effect_parsed_alerted.
  - intros typed. split.
    + apply effect_parsed_typed.
    + apply geographicPoints_length.
Qed.

(** X25. In exact arithmetic, for a polygon whose points are all in the
    documented ranges (x from 300000 to 800000, y from 1900000 to 2200000,
    zone 19N or 19Q) the map view draws a map: every vertex is a coordinate
    that [validateGeographicCoordinates] accepts, and the centre of the map
    has a latitude from 17 to 20 and a longitude from -71 to -66. *)
Theorem PolygonMapView_on_region :
  forall points : list (UTMCoordinates ideal),
    points <> [] ->
    Forall (fun point =>
              exists e n : R,
                x point = Fin e /\ y point = Fin n /\
                (300000 <= e <= 800000)%R /\ (1900000 <= n <= 2200000)%R /\
                (zone point = "19N"%string \/ zone point = "19Q"%string))
           points ->
    exists (vertices : list (GeographicCoordinates ideal)) (cla clo : R),
      PolygonMapView_effect points = Drawn vertices (Fin cla) (Fin clo)
      /\
      length vertices = length points /\
      Forall (fun g => validateGeographicCoordinates g = true) vertices /\
      (17 <= cla <= 20)%R /\ (-71 <= clo <= -66)%R.
Proof.
  intros points Hne Hall.
  assert (Hv : forall g, In g (geographicPoints points) ->
                         ValidatorFacts.in_range (lat g) 17 20 /\
                         ValidatorFacts.in_range (lng g) (-71) (-66)).
  { intros g Hg. apply (in_map Ok) in Hg. rewrite geographicPoints_all in Hg.
    apply in_map_iff in Hg as (point & Hc & Hp).
    apply (proj1 (Forall_forall _ _) Hall) in Hp
      as (e & n & Hx & Hy & He & Hn & Hz).
    unfold converted in Hc. rewrite Hx, Hy in Hc.
    destruct (RegionFacts.inverse_in_region e n He Hn)
      as (la & lo & Hu & Hla & Hlo).
    rewrite (utmToGeographic_same_zone (Fin e) (Fin n) (zone point) "19N")
      in Hc by (destruct Hz as [-> | ->]; reflexivity).
    rewrite Hu in Hc. injection Hc as <-. cbn [lat lng].
    split; eexists; (split; [reflexivity | assumption]). }
  assert (Hg : geographicPoints points <> []).
  { intros H0. apply Hne. apply length_zero_iff_nil.
    now rewrite <- geographicPoints_length, H0. }
  destruct (CenterFacts.center_between (geographicPoints points) 17 20
              (-71) (-66) Hg Hv) as ((cla & Hcla & Hbla) & (clo & Hclo & Hblo)).
  exists (geographicPoints points), cla, clo.
  split; [|split; [|split; [|split]]]; try assumption.
  - rewrite effect_drawn by assumption. now rewrite Hcla, Hclo.
  - apply geographicPoints_length.
  - apply Forall_forall. intros g Hin.
    destruct (Hv g Hin) as ((la & Hla & Hbl) & (lo & Hlo & Hbo)).
    destruct g as [gla glo]. cbn [lat lng] in Hla, Hlo. subst.
    apply Examples.valid_geographic; lra.
Qed.

Lemma PolygonMapView_on_region_witness :
  exists (vertices : list (GeographicCoordinates ideal)) (cla clo : R),
    PolygonMapView_effect
      [ {| x := Fin 561063; y := Fin 2066147; zone := "19Q" |};
        {| x := Fin 561047; y := Fin 2066132; zone := "19Q" |};
        {| x := Fin 561019; y := Fin 2066142; zone := "19Q" |} ] =
    Drawn vertices (Fin cla) (Fin clo) /\
    length vertices = 3%nat /\
    Forall (fun g => validateGeographicCoordinates g = true) vertices /\
    (17 <= cla <= 20)%R /\ (-71 <= clo <= -66)%R.
Proof.
  apply (PolygonMapView_on_region
           [ {| x := Fin 561063; y := Fin 2066147; zone := "19Q" |};
             {| x := Fin 561047; y := Fin 2066132; zone := "19Q" |};
             {| x := Fin 561019; y := Fin 2066142; zone := "19Q" |} ]).
  - discriminate.
  - repeat constructor; eexists; eexists;
      (split; [reflexivity|]); (split; [reflexivity|]);
      (split; [lra|]); (split; [lra|]); now right.
Defined.




